(** * Torus spiral portfolio: navigation state machine and camera choreography

    A shallow embedding of [src/App.jsx].  The React component state, the
    refs of [Scene3D] and the pointer state are fields of one [World]; every
    handler, effect and the per-frame callback is a function on it.

    Numbers are JavaScript doubles in the source.  They are modelled by exact
    rationals [Q]; the transcendental and library operations ([Math.cos],
    [Math.sin], [Math.hypot], [Vector3.normalize], [Curve.getPointAt],
    [Vector3.project]) and the window size are fields of a [Runtime] the
    definitions are parametrised by.  Rounding is not modelled; the
    properties are chosen among those that do not depend on it:
    inequalities, ranges, exact copies and facts of the state machine. *)

From Stdlib Require Import ZArith QArith Qabs Qminmax Qround Bool List String Lia Lqa.
Import ListNotations.
Local Open Scope string_scope.
Local Open Scope Q_scope.

Set Implicit Arguments.

(* ================================================================== *)
(** ** JavaScript values *)
(* ================================================================== *)

(** [null | string]: a React state cell holding an id. *)
Definition Id := option string.

(** JavaScript truthiness of a [null | string] value: [null] and the empty
    string are falsy. *)
Definition truthy (v : Id) : bool :=
  match v with
  | None => false
  | Some s => negb (String.eqb s "")
  end.

(** [v === s] for a [null | string] value and a string. *)
Definition idIs (v : Id) (s : string) : bool :=
  match v with
  | None => false
  | Some t => String.eqb t s
  end.

(** [a === b] on two [null | string] values ([Object.is] agrees on them). *)
Definition idEqb (a b : Id) : bool :=
  match a, b with
  | None, None => true
  | Some s, Some t => String.eqb s t
  | _, _ => false
  end.

(** [a > b] and [a >= b] on numbers. *)
Definition Qgtb (a b : Q) : bool := negb (Qle_bool a b).
Definition Qgeb (a b : Q) : bool := Qle_bool b a.
Definition Qltb (a b : Q) : bool := negb (Qle_bool b a).

(** [x % 1]: the remainder of JavaScript has the sign of the dividend. *)
Definition jsRem1 (x : Q) : Q := Z.rem (Qnum x) (Zpos (Qden x)) # Qden x.

(** The error monad of the handlers: [None] is an uncaught [TypeError]
    (a property read on [undefined]). *)
Definition bind {A B : Type} (m : option A) (k : A -> option B) : option B :=
  match m with
  | Some a => k a
  | None => None
  end.

Notation "x <- m ;; k" := (bind m (fun x => k))
  (at level 61, m at next level, right associativity).

(** [xs.findIndex(p)], as an integer: [-1] when nothing matches. *)
Fixpoint findIndexFrom {A : Type} (p : A -> bool) (xs : list A) (i : Z) : Z :=
  match xs with
  | [] => (-1)%Z
  | x :: rest => if p x then i else findIndexFrom p rest (i + 1)%Z
  end.

(** [xs.findIndex(p)]. *)
Definition findIndex {A : Type} (p : A -> bool) (xs : list A) : Z :=
  findIndexFrom p xs 0%Z.

(** [xs[i]] for an integer index: [undefined] out of range. *)
Definition at_ {A : Type} (xs : list A) (i : Z) : option A :=
  if (i <? 0)%Z then None else nth_error xs (Z.to_nat i).

(* ================================================================== *)
(** ** Section data *)
(* ================================================================== *)

(** A link of a section. *)
Record Link := mkLink {
  link_id : string;
  title : string;
  subtitle : string;
  description : string }.

(** A section, with its orbit parameters and its links. *)
Record SectionData := mkSection {
  section_id : string;
  label : string;
  color : string;
  orbitOffset : Q;
  orbitSpeed : Q;
  links : list Link }.

(** The [SECTIONS] constant. *)
Definition SECTIONS : list SectionData :=
  [ mkSection "art" "Art" "#2a2a2a" 0 (18 # 10000)
      [ mkLink "gallery" "Gallery" "Paintings, prints & murals"
          "A collection of original works spanning painting, screen printing, and large-scale mural projects. Each piece explores the intersection of geometric form and organic energy.";
        mkLink "instagram" "Instagram" "@mica.oz"
          "Follow the creative journey — studio sessions, work in progress, and finished pieces shared in real time.";
        mkLink "process" "Process" "Studio & behind the scenes"
          "Step inside the studio. From initial sketches through final execution, see how ideas become physical works." ];
    mkSection "dev" "Dev" "#5a5a5a" (2 # 10) (12 # 10000)
      [ mkLink "projects" "Projects" "Web apps & automation"
          "Full-stack applications, automation systems, and creative technology projects. Built with React, TypeScript, Next.js, and AWS.";
        mkLink "github" "GitHub" "Open source work"
          "Contributions and repositories. Code that solves real problems.";
        mkLink "resume" "Resume" "Experience & skills"
          "Principal Engineer experience spanning full-stack development, database architecture, OCR pipelines, and creative technology." ];
    mkSection "yoga" "Yoga" "#7a7a7a" (4 # 10) (22 # 10000)
      [ mkLink "classes" "Classes" "Schedule & booking"
          "Join a class. Vinyasa, restorative, and movement-based practices rooted in tradition and adapted for modern bodies.";
        mkLink "philosophy" "Philosophy" "Practice & writing"
          "Explorations of Eastern philosophy, embodied practice, and the intersection of movement and meaning.";
        mkLink "training" "Training" "Teacher training journey"
          "Documentation of the teacher training path — philosophy, anatomy, sequencing, and the art of holding space." ];
    mkSection "about" "About" "#9a9a9a" (6 # 10) (14 # 10000)
      [ mkLink "story" "Story" "Background & journey"
          "From Parsons to screen printing to code — a nonlinear path through commercial arts, technology, and movement practice.";
        mkLink "values" "Values" "What drives the work"
          "Creativity as practice. Technology as craft. Movement as philosophy. The threads that connect everything.";
        mkLink "press" "Press" "Features & mentions"
          "Selected press coverage, interviews, and features across art, technology, and wellness publications." ];
    mkSection "contact" "Contact" "#b5b5b5" (8 # 10) (2 # 1000)
      [ mkLink "email" "Email" "Get in touch"
          "For commissions, collaborations, speaking engagements, or just to say hello — drop a line.";
        mkLink "booking" "Booking" "Schedule a session"
          "Book a yoga class, consultation, or creative session. Available for private and group work.";
        mkLink "social" "Social" "Connect online"
          "Find and follow across platforms — Instagram, GitHub, LinkedIn, and more." ] ].

(** [SECTIONS.findIndex((s) => s.id === id)] for a [null | string] id. *)
Definition sectionIndexOf (id : Id) : Z :=
  findIndex (fun s => idIs id (section_id s)) SECTIONS.

(** [SECTIONS[sIdx].links.findIndex((l) => l.id === id)], guarded by
    [sIdx >= 0] as in the source. *)
Definition linkIndexOf (sIdx : Z) (id : Id) : Z :=
  if (0 <=? sIdx)%Z
  then match at_ SECTIONS sIdx with
       | Some s => findIndex (fun l => idIs id (link_id l)) (links s)
       | None => (-1)%Z
       end
  else (-1)%Z.

(* ================================================================== *)
(** ** Vectors, camera, animation record *)
(* ================================================================== *)

(** [THREE.Vector3]. *)
Record Vec3 := mkVec3 { vx : Q; vy : Q; vz : Q }.

(** [new THREE.Vector3()]. *)
Definition vzero : Vec3 := mkVec3 0 0 0.

(** [a.add(b)]. *)
Definition vadd (a b : Vec3) : Vec3 :=
  mkVec3 (vx a + vx b) (vy a + vy b) (vz a + vz b).

(** [a.multiplyScalar(k)]. *)
Definition multiplyScalar (a : Vec3) (k : Q) : Vec3 :=
  mkVec3 (vx a * k) (vy a * k) (vz a * k).

(** [lerpVectors(v1, v2, alpha)]: [v1 + (v2 - v1) * alpha], per coordinate.
    Over the rationals the value at [alpha = 1] is [v2]; the source computes
    the same expression in doubles, where it is [v2] up to rounding only. *)
Definition lerpVectors (v1 v2 : Vec3) (alpha : Q) : Vec3 :=
  mkVec3 (vx v1 + (vx v2 - vx v1) * alpha)
         (vy v1 + (vy v2 - vy v1) * alpha)
         (vz v1 + (vz v2 - vz v1) * alpha).

(** [v.lerp(target, alpha)]: [v + (target - v) * alpha]. *)
Definition lerp (v target : Vec3) (alpha : Q) : Vec3 :=
  mkVec3 (vx v + (vx target - vx v) * alpha)
         (vy v + (vy target - vy v) * alpha)
         (vz v + (vz target - vz v) * alpha).

(** The camera phase names passed to [onCameraProgress]. *)
Inductive Phase :=
| idle | home | flyToParent | flyToSub | flyHome | parkedAtParent | parkedAtSub.

(** [a === b] on phase names. *)
Definition Phase_eqb (a b : Phase) : bool :=
  match a, b with
  | idle, idle | home, home | flyToParent, flyToParent | flyToSub, flyToSub
  | flyHome, flyHome | parkedAtParent, parkedAtParent
  | parkedAtSub, parkedAtSub => true
  | _, _ => false
  end.

(** The perspective camera.  [lookTarget] is the argument of the last
    [camera.lookAt] call (three.js keeps the resulting orientation). *)
Record Camera := mkCamera {
  position : Vec3;
  upY : Q;
  lookTarget : Vec3 }.

(** [cameraAnimRef.current]. *)
Record CameraAnim := mkAnim {
  active : bool;
  phase : Phase;
  startPos : Vec3;
  endPos : Vec3;
  startLookAt : Vec3;
  endLookAt : Vec3;
  currentLookAt : option Vec3;
  progress : Q;
  duration : Q;
  targetSectionIndex : Z;
  targetLinkIndex : Z }.

(** A closed Catmull-Rom curve: the data given to
    [new THREE.CatmullRomCurve3(rawPoints, true, "catmullrom", 0.5)]. *)
Record Curve := mkCurve {
  rawPoints : list Vec3;
  closed : bool;
  tension : Q }.

(** The numeric library the program calls. *)
Class Runtime := {
  Math_PI : Q;
  Math_cos : Q -> Q;
  Math_sin : Q -> Q;
  Math_hypot : Q -> Q -> Q;
  normalize : Vec3 -> Vec3;
  getPointAt : Curve -> Q -> Vec3;
  project : Camera -> Vec3 -> Vec3;
  innerWidth : Q;
  innerHeight : Q }.

(* ================================================================== *)
(** ** Orbit curve *)
(* ================================================================== *)

(** The inner [gcd] of [generateTorusPoints]: [while (b) [a, b] = [b, a % b]].
    The loop runs at most [b + 1] times on non-negative integers; [fuel]
    bounds it. *)
Fixpoint gcdLoop (fuel : nat) (a b : Z) : Z :=
  match fuel with
  | O => a
  | S fuel' => if (b =? 0)%Z then a else gcdLoop fuel' b (Z.rem a b)
  end.

(** [gcd(a, b)]. *)
Definition gcd (a b : Z) : Z := gcdLoop (S (Z.to_nat (Z.abs b))) a b.

(** [stepsToClose]: the number of raw points that closes the loop. *)
Definition stepsToClose (sections spans : Z) : Z :=
  ((sections * spans) / gcd sections spans)%Z.

Section WithRuntime.
Context {rt : Runtime}.

(** One raw torus-knot point, [i] of the loop of [generateTorusPoints]. *)
Definition rawPoint (radius minorRadius : Q) (sections spans i : Z) : Vec3 :=
  let u := (inject_Z i / inject_Z sections) * Math_PI * 2 in
  let t := (inject_Z i / inject_Z spans) * Math_PI * 2 in
  mkVec3 ((radius + minorRadius * Math_cos t) * Math_cos u)
         (minorRadius * Math_sin t)
         ((radius + minorRadius * Math_cos t) * Math_sin u).

(** [generateTorusPoints({radius, minorRadius, sections, spans}).curve].
    The source also samples the curve, [curve.getPoints(stepsToClose * 8)],
    which throws on an empty list of points, that is when
    [sections * spans = 0].  The program calls it with 11 and 12 only; that
    case is left out and the definition is total. *)
Definition generateTorusPoints (radius minorRadius : Q) (sections spans : Z)
  : Curve :=
  let n := Z.to_nat (stepsToClose sections spans) in
  mkCurve (map (fun i => rawPoint radius minorRadius sections spans (Z.of_nat i))
               (seq 0 n))
          true (1 # 2).

(** [getTorusPosition(progress)], with the module-level cache [_torusCurve]
    passed in and returned. *)
Definition getTorusPosition (cache : option Curve) (progress : Q)
  : Vec3 * option Curve :=
  let curve :=
    match cache with
    | Some c => c
    | None => generateTorusPoints 1 (7 # 10) 11 12
    end in
  (getPointAt curve (jsRem1 (jsRem1 progress + 1)), Some curve).

End WithRuntime.

(* ================================================================== *)
(** ** Helpers *)
(* ================================================================== *)

(** [easeInOutCubic(t)]. *)
Definition easeInOutCubic (t : Q) : Q :=
  if Qltb t (1 # 2)
  then 4 * t * t * t
  else 1 - ((-2 * t + 2) * (-2 * t + 2) * (-2 * t + 2)) / 2.

(** [subSeed] and [seededVal]: the per-moon pseudo-random values. *)
Definition subSeed (sIdx lIdx : Z) : Z := (sIdx * 7 + lIdx * 13)%Z.

(** [seededVal(seed, mult)].  The product is exact here.  The source
    multiplies doubles: the two agree for integers with
    [|seed * mult| <= 2^53], as with the seeds of the moons, and not beyond,
    where the product of the source rounds or overflows. *)
Definition seededVal (seed mult : Z) : Q :=
  inject_Z (Z.rem (seed * mult) 100) / 100.

(* ================================================================== *)
(** ** State *)
(* ================================================================== *)

(** One entry of the moon screen positions reported to the overlay. *)
Record ScreenPos := mkScreenPos {
  screen_x : Q;
  screen_y : Q;
  screen_z : Q;
  screen_opacity : Q }.

(** The state of the [App] component: its [useState] cells and
    [pendingLinkRef]. *)
Record App := mkApp {
  activeSection : Id;
  activeLink : Id;
  subSpherePositions : list ScreenPos;
  cameraPhase : Phase;
  cameraProgress : Q;
  showConstellation : bool;
  pendingLinkRef : Id }.

(** A point of the client area, or a pair of angles [{x, y}]. *)
Record XY := mkXY { x_ : Q; y_ : Q }.

(** The pointer and drag refs of [Scene3D]. *)
Record Pointer := mkPointer {
  isDraggingRef : bool;
  hasDraggedRef : bool;
  lastMouseRef : XY;
  mouseDownPosRef : XY;
  targetRotationRef : XY;
  targetZoomRef : Q;
  pinchStartRef : option Q }.

(** A planet mesh: what the program reads back from it. *)
Record Sphere := mkSphere {
  sphere_position : Vec3;
  sphere_opacity : Q;
  sphere_ringOpacity : Q }.

(** A moon mesh, with the [_cOrbitR] and [_cScale] cells of its [userData]. *)
Record SubSphere := mkSub {
  sub_position : Vec3;
  sub_opacity : Q;
  sub_ringOpacity : Q;
  sub_cOrbitR : option Q;
  sub_cScale : option Q }.

(** The scene refs of [Scene3D] and the module-level curve cache.
    [cameraRef] is [None] until the init effect has run; the renderer and
    the scene are created with it. *)
Record Scene := mkScene {
  cameraRef : option Camera;
  spheresRef : list Sphere;
  subSpheresRef : list (list SubSphere);
  rotationRef : XY;
  zoomRef : Q;
  autoRotateRef : Q;
  cameraAnimRef : CameraAnim;
  prevSectionRef : Id;
  prevLinkRef : Id;
  mountedRef : bool;
  torusCurve : option Curve }.

(** The dependency values each [useEffect] saw when it last ran. *)
Record Deps := mkDeps {
  flyDeps : Id * Id;
  pendingDeps : Phase * Id }.

(** The whole state: the [App] component, the refs of [Scene3D] and the
    bookkeeping of the effects. *)
Record World := mkWorld {
  appSt : App;
  pointer : Pointer;
  scene : Scene;
  deps : Deps }.

(** Field updates of [World]. *)
Definition withApp (w : World) (a : App) : World :=
  mkWorld a (pointer w) (scene w) (deps w).
Definition withPointer (w : World) (p : Pointer) : World :=
  mkWorld (appSt w) p (scene w) (deps w).
Definition withScene (w : World) (s : Scene) : World :=
  mkWorld (appSt w) (pointer w) s (deps w).
Definition withDeps (w : World) (d : Deps) : World :=
  mkWorld (appSt w) (pointer w) (scene w) d.

(* ================================================================== *)
(** ** The [App] component: navigation state machine *)
(* ================================================================== *)

(** [setActiveSection], [setActiveLink] and the write to
    [pendingLinkRef.current], together. *)
Definition setNav (a : App) (sec lnk pend : Id) : App :=
  mkApp sec lnk (subSpherePositions a) (cameraPhase a) (cameraProgress a)
        (showConstellation a) pend.

(** [handleToggleConstellation]. *)
Definition handleToggleConstellation (a : App) : App :=
  mkApp (activeSection a) (activeLink a) (subSpherePositions a)
        (cameraPhase a) (cameraProgress a) (negb (showConstellation a))
        (pendingLinkRef a).

(** [handleClickSection(id)]: nothing on the active section with no link
    active; else clear the queue and the link and enter the section. *)
Definition handleClickSection (id : string) (a : App) : App :=
  if idIs (activeSection a) id && negb (truthy (activeLink a))
  then a
  else setNav a (Some id) None None.

(** [handleBack]: back to home. *)
Definition handleBack (a : App) : App :=
  mkApp None None [] (cameraPhase a) (cameraProgress a)
        (showConstellation a) None.

(** [handleBackToSection]: back to the section level. *)
Definition handleBackToSection (a : App) : App :=
  setNav a (activeSection a) None None.

(** [handleCameraProgress(phase, progress)], called by [animate]. *)
Definition handleCameraProgress (ph : Phase) (pr : Q) (a : App) : App :=
  mkApp (activeSection a) (activeLink a) (subSpherePositions a) ph pr
        (showConstellation a) (pendingLinkRef a).

(** [setSubSpherePositions(positions)], called by [animate]. *)
Definition setSubSpherePositions (ps : list ScreenPos) (a : App) : App :=
  mkApp (activeSection a) (activeLink a) ps (cameraPhase a)
        (cameraProgress a) (showConstellation a) (pendingLinkRef a).

(** The effect of [App] on [cameraPhase, activeSection]: when the parent
    flight is over and the camera is parked, fire the queued link. *)
Definition pendingLinkEffect (a : App) : App :=
  if truthy (pendingLinkRef a) && truthy (activeSection a)
     && Phase_eqb (cameraPhase a) parkedAtParent
  then setNav a (activeSection a) (pendingLinkRef a) None
  else a.

(** [handleClickSubSphere(sectionId, linkId)]: on another section, queue the
    link and enter the section; during the flight to the parent, queue the
    link; else make it the active link. *)
Definition handleClickSubSphere (sectionId linkId : string) (a : App) : App :=
  if negb (idIs (activeSection a) sectionId)
  then setNav a (Some sectionId) None (Some linkId)
  else if Phase_eqb (cameraPhase a) flyToParent
  then setNav a (activeSection a) (activeLink a) (Some linkId)
  else setNav a (activeSection a) (Some linkId) (pendingLinkRef a).

(* ================================================================== *)
(** ** [Scene3D]: input router *)
(* ================================================================== *)

(** What the raycaster resolves a pointer position to: nothing, a planet
    (with its index in [spheresRef.current], [-1] when it is not there), or
    a moon with the [sectionIndex] and [linkIndex] of its [userData]. *)
Inductive Hit :=
| NoHit
| HitParent (idx : Z)
| HitSub (sectionIndex linkIndex : Z).

(** The writes of a press: the drag flags and the two positions. *)
Definition setDrag (p : Pointer) (dragging dragged : bool) (lastMouse down : XY)
  : Pointer :=
  mkPointer dragging dragged lastMouse down (targetRotationRef p)
            (targetZoomRef p) (pinchStartRef p).

(** [onMD]: mouse down. *)
Definition onMD (e : XY) (w : World) : World :=
  if active (cameraAnimRef (scene w)) then w
  else withPointer w (setDrag (pointer w) true false e e).

(** [onMM] while no button is pressed only sets the cursor style. *)
Definition onMM (e : XY) (w : World) : World :=
  let p := pointer w in
  if negb (isDraggingRef p) then w
  else
    let dx := x_ e - x_ (lastMouseRef p) in
    let dy := y_ e - y_ (lastMouseRef p) in
    let dragged :=
      if Qgtb (Qabs (x_ e - x_ (mouseDownPosRef p))) 5
         || Qgtb (Qabs (y_ e - y_ (mouseDownPosRef p))) 5
      then true else hasDraggedRef p in
    let rot :=
      if negb (truthy (activeSection (appSt w)))
      then mkXY (x_ (targetRotationRef p) + dy * (5 # 1000))
                (y_ (targetRotationRef p) + dx * (5 # 1000))
      else targetRotationRef p in
    withPointer w
      (mkPointer (isDraggingRef p) dragged e (mouseDownPosRef p) rot
                 (targetZoomRef p) (pinchStartRef p)).

(** The body of [handleClick] after its guard and the raycast: [hit] is the
    nearest ancestor tagged parent or sub of the first intersection. *)
Definition dispatchHit (hit : Hit) (w : World) : option World :=
  match hit with
  | NoHit => Some w
  | HitParent idx =>
      if negb (truthy (activeSection (appSt w)))
      then
        if (0 <=? idx)%Z
        then s <- nth_error SECTIONS (Z.to_nat idx) ;;
             Some (withApp w (handleClickSection (section_id s) (appSt w)))
        else Some w
      else Some w
  | HitSub sIdx lIdx =>
      if truthy (activeSection (appSt w)) && negb (truthy (activeLink (appSt w)))
      then
        subs <- at_ (subSpheresRef (scene w)) sIdx ;;
        sub <- at_ subs lIdx ;;
        if Qgtb (sub_opacity sub) (3 # 10)
        then s <- at_ SECTIONS sIdx ;;
             l <- at_ (links s) lIdx ;;
             Some (withApp w
                     (handleClickSubSphere (section_id s) (link_id l) (appSt w)))
        else Some w
      else Some w
  end.

(** [handleClick(cx, cy)]. *)
Definition handleClick (hit : Hit) (w : World) : option World :=
  if hasDraggedRef (pointer w) || active (cameraAnimRef (scene w))
  then Some w
  else dispatchHit hit w.

(** The end of [onMU]: both drag flags off. *)
Definition releasePointer (w : World) : World :=
  let p := pointer w in
  withPointer w
    (mkPointer false false (lastMouseRef p) (mouseDownPosRef p)
               (targetRotationRef p) (targetZoomRef p) (pinchStartRef p)).

(** [onMU]: mouse up. *)
Definition onMU (hit : Hit) (w : World) : option World :=
  w1 <- (if negb (hasDraggedRef (pointer w)) then handleClick hit w else Some w) ;;
  Some (releasePointer w1).

(** [Math.max(2, Math.min(8, z))]. *)
Definition clampZoom (z : Q) : Q := Qmax 2 (Qmin 8 z).

(** The writes to [targetZoomRef] and [pinchStartRef]. *)
Definition setZoomPinch (p : Pointer) (z : Q) (pinch : option Q) : Pointer :=
  mkPointer (isDraggingRef p) (hasDraggedRef p) (lastMouseRef p)
            (mouseDownPosRef p) (targetRotationRef p) z pinch.

(** [onWH]: wheel. *)
Definition onWH (deltaY : Q) (w : World) : World :=
  if active (cameraAnimRef (scene w)) || truthy (activeSection (appSt w))
  then w
  else
    let p := pointer w in
    withPointer w
      (setZoomPinch p (clampZoom (targetZoomRef p + deltaY * (3 # 1000)))
                    (pinchStartRef p)).

Section Touch.
Context {rt : Runtime}.

(** The distance of two touch points, [Math.hypot] of the differences. *)
Definition touchDistance (a b : XY) : Q :=
  Math_hypot (x_ a - x_ b) (y_ a - y_ b).

(** [onTS]: touch start. *)
Definition onTS (touches : list XY) (w : World) : World :=
  if active (cameraAnimRef (scene w)) then w
  else
    match touches with
    | [t] => withPointer w (setDrag (pointer w) true false t t)
    | [t0; t1] =>
        withPointer w
          (setZoomPinch (pointer w) (targetZoomRef (pointer w))
                        (Some (touchDistance t0 t1)))
    | _ => w
    end.

(** [onTM]: touch move. *)
Definition onTM (touches : list XY) (w : World) : World :=
  let p := pointer w in
  match touches with
  | [t] =>
      if isDraggingRef p
      then
        let dragged :=
          if Qgtb (Qabs (x_ t - x_ (mouseDownPosRef p))) 8
             || Qgtb (Qabs (y_ t - y_ (mouseDownPosRef p))) 8
          then true else hasDraggedRef p in
        let rot :=
          if negb (truthy (activeSection (appSt w)))
          then
            let dx := x_ t - x_ (lastMouseRef p) in
            let dy := y_ t - y_ (lastMouseRef p) in
            mkXY (x_ (targetRotationRef p) + dy * (5 # 1000))
                 (y_ (targetRotationRef p) + dx * (5 # 1000))
          else targetRotationRef p in
        withPointer w
          (mkPointer (isDraggingRef p) dragged t (mouseDownPosRef p) rot
                     (targetZoomRef p) (pinchStartRef p))
      else w
  | [t0; t1] =>
      match pinchStartRef p with
      | Some start =>
          if negb (truthy (activeSection (appSt w)))
          then
            let dist := touchDistance t0 t1 in
            withPointer w
              (setZoomPinch p
                 (clampZoom (targetZoomRef p + (start - dist) * (1 # 100)))
                 (Some dist))
          else w
      | None => w
      end
  | _ => w
  end.

End Touch.

(** The end of [onTE]: both drag flags off, no pinch baseline. *)
Definition releaseTouch (w : World) : World :=
  let p := pointer w in
  withPointer w
    (mkPointer false false (lastMouseRef p) (mouseDownPosRef p)
               (targetRotationRef p) (targetZoomRef p) None).

(** [onTE]: touch end. *)
Definition onTE (changedTouches : list XY) (hit : Hit) (w : World)
  : option World :=
  w1 <- (if negb (hasDraggedRef (pointer w))
            && negb (Nat.eqb (List.length changedTouches) 0)
         then handleClick hit w else Some w) ;;
  Some (releaseTouch w1).

(* ================================================================== *)
(** ** [Scene3D]: scene construction and camera flight triggers *)
(* ================================================================== *)

(** The initial value of [cameraAnimRef]. *)
Definition initialAnim : CameraAnim :=
  mkAnim false idle vzero vzero vzero vzero (Some vzero) 0 (25 # 10) (-1) (-1).

Section Flights.
Context {rt : Runtime}.

(** The init effect: camera, curve, one planet per section and one moon per
    link.  Mesh positions start at the origin. *)
Definition initEffect (s : Scene) : Scene :=
  mkScene (Some (mkCamera (mkVec3 0 2 (45 # 10)) 1 vzero))
          (map (fun _ => mkSphere vzero 1 (25 # 100)) SECTIONS)
          (map (fun sec => map (fun _ => mkSub vzero (8 # 10) (2 # 10) None None)
                               (links sec)) SECTIONS)
          (rotationRef s) (zoomRef s) (autoRotateRef s) (cameraAnimRef s)
          (prevSectionRef s) (prevLinkRef s) (mountedRef s)
          (Some (generateTorusPoints 1 (7 # 10) 11 12)).

(** The writes of the effect: the animation record, [mountedRef],
    [prevSectionRef] and [prevLinkRef]. *)
Definition setFlight (s : Scene) (anim : CameraAnim) (mounted : bool)
  (prevSection prevLink : Id) : Scene :=
  mkScene (cameraRef s) (spheresRef s) (subSpheresRef s) (rotationRef s)
          (zoomRef s) (autoRotateRef s) anim prevSection prevLink mounted
          (torusCurve s).

(** The new animation record of the fly trigger effect, once mounted. *)
Definition flyTrigger (camera : Camera) (a : App) (s : Scene)
  : option CameraAnim :=
  let anim := cameraAnimRef s in
  if truthy (activeLink a) && truthy (activeSection a)
  then
    (* Level 2: fly to sub-sphere *)
    let sIdx := sectionIndexOf (activeSection a) in
    let lIdx := linkIndexOf sIdx (activeLink a) in
    if (0 <=? sIdx)%Z && (0 <=? lIdx)%Z
    then
      look <- match currentLookAt anim with
              | Some v => Some v
              | None => sp <- at_ (spheresRef s) sIdx ;; Some (sphere_position sp)
              end ;;
      Some (mkAnim true flyToSub (position camera) (endPos anim) look
                   (endLookAt anim) (currentLookAt anim) 0 (18 # 10) sIdx lIdx)
    else Some anim
  else if truthy (activeSection a) && negb (truthy (activeLink a))
  then
    (* Level 1: fly to parent (or returning from sub) *)
    let idx := sectionIndexOf (activeSection a) in
    Some (mkAnim true flyToParent (position camera) (endPos anim)
                 (match currentLookAt anim with Some v => v | None => vzero end)
                 (endLookAt anim) (currentLookAt anim) 0
                 (if truthy (prevLinkRef s) then 15 # 10 else 25 # 10)
                 idx (-1))
  else if negb (truthy (activeSection a)) && negb (truthy (activeLink a))
          && truthy (prevSectionRef s)
  then
    (* Level 0: fly home (only if we were in a section before) *)
    let phi := x_ (rotationRef s) in
    let theta := y_ (rotationRef s) in
    let r := zoomRef s in
    let homePos := mkVec3 (r * Math_cos phi * Math_sin theta)
                          (r * Math_sin phi)
                          (r * Math_cos phi * Math_cos theta) in
    Some (mkAnim true flyHome (position camera) homePos
                 (match currentLookAt anim with Some v => v | None => vzero end)
                 vzero (currentLookAt anim) 0 2 (-1) (-1))
  else Some anim.

(** The effect of [Scene3D] on [activeSection, activeLink]. *)
Definition flyEffect (w : World) : option World :=
  let s := scene w in
  let a := appSt w in
  match cameraRef s with
  | None => Some w
  | Some camera =>
      if negb (mountedRef s)
      then Some (withScene w
                   (setFlight s (cameraAnimRef s) true (activeSection a)
                              (activeLink a)))
      else
        anim <- flyTrigger camera a s ;;
        Some (withScene w
                (setFlight s anim (mountedRef s) (activeSection a)
                           (activeLink a)))
  end.

End Flights.

(* ================================================================== *)
(** ** [Scene3D]: the per-frame callback *)
(* ================================================================== *)

Section Frames.
Context {rt : Runtime}.

(** The camera step of [animate]: the new camera, the new animation record
    and the phase and progress passed to [onCameraProgress]. *)
Definition animateCamera (time delta : Q) (a : App) (s : Scene)
  (camera : Camera) (rotation : XY) (zoom : Q)
  : option (Camera * CameraAnim * option (Phase * Q)) :=
  let anim := cameraAnimRef s in
  if active anim
  then
    let progress1 := progress anim + delta / duration anim in
    let done := Qgeb progress1 1 in
    let progress2 := if done then 1 else progress1 in
    let active2 := if done then false else active anim in
    let t := easeInOutCubic progress2 in
    let fly (endP lookEnd : Vec3) :=
      let lookAt := lerpVectors (startLookAt anim) lookEnd t in
      (mkCamera (lerpVectors (startPos anim) endP t) (upY camera) lookAt,
       mkAnim active2 (phase anim) (startPos anim) (endPos anim)
              (startLookAt anim) (endLookAt anim) (Some lookAt) progress2
              (duration anim) (targetSectionIndex anim) (targetLinkIndex anim),
       Some (phase anim, progress2)) in
    if Phase_eqb (phase anim) flyToParent && (0 <=? targetSectionIndex anim)%Z
    then
      sphere <- at_ (spheresRef s) (targetSectionIndex anim) ;;
      let pos := sphere_position sphere in
      let dir := normalize pos in
      let endP := vadd (vadd pos (multiplyScalar dir (6 # 10)))
                       (mkVec3 0 (15 # 100) 0) in
      Some (fly endP pos)
    else if Phase_eqb (phase anim) flyToSub
            && (0 <=? targetSectionIndex anim)%Z
            && (0 <=? targetLinkIndex anim)%Z
    then
      subs <- at_ (subSpheresRef s) (targetSectionIndex anim) ;;
      sub <- at_ subs (targetLinkIndex anim) ;;
      let subPos := sub_position sub in
      let dir := normalize subPos in
      let endP := vadd (vadd subPos (multiplyScalar dir (15 # 100)))
                       (mkVec3 0 (4 # 100) 0) in
      Some (fly endP subPos)
    else Some (fly (endPos anim) (endLookAt anim))
  else if negb (truthy (activeSection a))
  then
    (* Home orbit: full spherical *)
    let phi := x_ rotation in
    let theta := y_ rotation in
    let r := zoom in
    let up := if Qgeb (Math_cos phi) 0 then 1 else -1 in
    Some (mkCamera (mkVec3 (r * Math_cos phi * Math_sin theta)
                           (r * Math_sin phi)
                           (r * Math_cos phi * Math_cos theta))
                   up vzero,
          anim, Some (home, 0))
  else if truthy (activeSection a) && negb (truthy (activeLink a))
  then
    (* Parked at parent *)
    let idx := sectionIndexOf (activeSection a) in
    camera1 <-
      (if (0 <=? idx)%Z
       then
         sphere <- at_ (spheresRef s) idx ;;
         let pos := sphere_position sphere in
         let dir := normalize pos in
         let breathe := Math_sin (time * (4 # 10)) * (1 # 100) in
         let target := vadd (vadd pos (multiplyScalar dir (6 # 10)))
                            (mkVec3 0 ((15 # 100) + breathe) 0) in
         Some (mkCamera (lerp (position camera) target (3 # 100))
                        (upY camera) pos)
       else Some camera) ;;
    Some (camera1, anim, Some (parkedAtParent, 0))
  else if truthy (activeLink a)
  then
    (* Parked at sub-sphere *)
    let sIdx := sectionIndexOf (activeSection a) in
    let lIdx := linkIndexOf sIdx (activeLink a) in
    camera1 <-
      (if (0 <=? sIdx)%Z && (0 <=? lIdx)%Z
       then
         subs <- at_ (subSpheresRef s) sIdx ;;
         sub <- at_ subs lIdx ;;
         let subPos := sub_position sub in
         let dir := normalize subPos in
         let breathe := Math_sin (time * (3 # 10)) * (5 # 1000) in
         let target := vadd (vadd subPos (multiplyScalar dir (15 # 100)))
                            (mkVec3 0 ((4 # 100) + breathe) 0) in
         Some (mkCamera (lerp (position camera) target (3 # 100))
                        (upY camera) subPos)
       else Some camera) ;;
    Some (camera1, anim, Some (parkedAtSub, 0))
  else Some (camera, anim, None).

(** The planet update of [animate], for the planet of index [index]. *)
Definition updateSphere (time : Q) (a : App) (cache : option Curve)
  (index : nat) (sphere : Sphere) : Sphere :=
  match nth_error SECTIONS index with
  | None => sphere
  | Some section =>
      let progress :=
        jsRem1 (jsRem1 (time * orbitSpeed section + orbitOffset section) + 1) in
      let pos := fst (getTorusPosition cache progress) in
      let mat := sphere_opacity sphere in
      let ringMat := sphere_ringOpacity sphere in
      if truthy (activeSection a)
      then
        let isActive := idIs (activeSection a) (section_id section) in
        mkSphere pos
          (mat + ((if isActive
                   then (if truthy (activeLink a) then 12 # 100 else 25 # 100)
                   else 6 # 100) - mat) * (5 # 100))
          (ringMat + ((if isActive
                       then (if truthy (activeLink a) then 2 # 10 else 5 # 10)
                       else 3 # 100) - ringMat) * (5 # 100))
      else
        mkSphere pos (mat + (1 - mat) * (5 # 100))
                 (ringMat + ((25 # 100) - ringMat) * (5 # 100))
  end.

(** [xs.forEach((x, index) => ...)] with the index starting at [i]. *)
Fixpoint mapi {A B : Type} (f : nat -> A -> B) (i : nat) (xs : list A) : list B :=
  match xs with
  | [] => []
  | x :: rest => f i x :: mapi f (S i) rest
  end.

(** [!v] for a number cell that may be [undefined]: unset and zero are
    falsy. *)
Definition orInit (cell : option Q) (init : Q) : Q :=
  match cell with
  | Some v => if Qeq_bool v 0 then init else v
  | None => init
  end.

(** The moon update of [animate], for moon [lIdx] of section [sIdx]. *)
Definition updateSub (time : Q) (a : App) (parent : Sphere)
  (section : SectionData) (sIdx lIdx : nat) (sub : SubSphere)
  : option SubSphere :=
  let isActiveSection := idIs (activeSection a) (section_id section) in
  let baseScale := if isActiveSection then 1 else 45 # 100 in
  let baseOrbitR := if isActiveSection then 3 # 10 else 18 # 100 in
  isActiveLink <-
    (if isActiveSection
     then link <- nth_error (links section) lIdx ;;
          Some (idIs (activeLink a) (link_id link))
     else Some false) ;;
  let targetOp :=
    if truthy (activeLink a) && isActiveSection
    then (if isActiveLink then 1 else 15 # 100)
    else if isActiveSection then 95 # 100 else 8 # 10 in
  let opacity := sub_opacity sub + (targetOp - sub_opacity sub) * (6 # 100) in
  let ring :=
    sub_ringOpacity sub
    + ((if isActiveLink then 5 # 10
        else if isActiveSection then 35 # 100 else 2 # 10)
       - sub_ringOpacity sub) * (6 # 100) in
  let seed := subSeed (Z.of_nat sIdx) (Z.of_nat lIdx) in
  let orbitSpeed := (18 # 100) + seededVal seed 17 * (22 # 100) in
  let tiltAngle := (4 # 10) + seededVal seed 31 * (12 # 10) in
  let tiltAxis := seededVal seed 43 * Math_PI * 2 in
  let orbitDir := if (Z.rem (seed * 53) 2 =? 0)%Z then 1 else -1 in
  let radiusVar := (85 # 100) + seededVal seed 61 * (3 # 10) in
  let startAngle := seededVal seed 71 * Math_PI * 2 in
  let targetScale := if isActiveLink then 25 # 10 else baseScale in
  let targetOrbitR := if isActiveLink then 1 # 10 else baseOrbitR * radiusVar in
  let cOrbitR0 := orInit (sub_cOrbitR sub) targetOrbitR in
  let cOrbitR := cOrbitR0 + (targetOrbitR - cOrbitR0) * (4 # 100) in
  let cScale0 := orInit (sub_cScale sub) targetScale in
  let cScale := cScale0 + (targetScale - cScale0) * (5 # 100) in
  let parentPos := sphere_position parent in
  let angle := startAngle + time * orbitSpeed * orbitDir in
  let oR := cOrbitR in
  let lx := Math_cos angle * oR in
  let lz := Math_sin angle * oR in
  let cosT := Math_cos tiltAngle in
  let sinT := Math_sin tiltAngle in
  let cosA := Math_cos tiltAxis in
  let sinA := Math_sin tiltAxis in
  let x := lx * cosA - lz * sinA in
  let flat := lx * sinA + lz * cosA in
  Some (mkSub (mkVec3 (vx parentPos + x) (vy parentPos + flat * sinT)
                      (vz parentPos + flat * cosT))
              opacity ring (Some cOrbitR) (Some cScale)).

(** [xs.map(f)] for an [f] that may throw. *)
Fixpoint mapiM {A B : Type} (f : nat -> A -> option B) (i : nat) (xs : list A)
  : option (list B) :=
  match xs with
  | [] => Some []
  | x :: rest =>
      y <- f i x ;;
      ys <- mapiM f (S i) rest ;;
      Some (y :: ys)
  end.

(** The moon update for section [sIdx]; skipped when the planet or the
    section is missing. *)
Definition updateSubs (time : Q) (a : App) (spheres : list Sphere)
  (sIdx : nat) (subs : list SubSphere) : option (list SubSphere) :=
  match nth_error spheres sIdx, nth_error SECTIONS sIdx with
  | Some parent, Some section =>
      mapiM (updateSub time a parent section sIdx) 0 subs
  | _, _ => Some subs
  end.

(** The moon screen positions [animate] reports: [None] when it makes no
    report. *)
Definition screenPositions (a : App) (camera : Camera)
  (subSpheres : list (list SubSphere)) : option (option (list ScreenPos)) :=
  if truthy (activeSection a) && negb (truthy (activeLink a))
  then
    let idx := sectionIndexOf (activeSection a) in
    if (0 <=? idx)%Z
    then
      subs <- at_ subSpheres idx ;;
      Some (Some (map (fun sub =>
                         let sp := project camera (sub_position sub) in
                         mkScreenPos (((vx sp + 1) / 2) * innerWidth)
                                     (((- vy sp + 1) / 2) * innerHeight)
                                     (vz sp) (sub_opacity sub))
                      subs))
    else Some None
  else Some (Some []).

(** [animate(time, delta)].  The scales, the ring orientations, the torus
    line, the constellation lines and the render call write to the drawing
    only and are left out. *)
Definition animate (time delta : Q) (w : World) : option World :=
  let a := appSt w in
  let s := scene w in
  let p := pointer w in
  match cameraRef s with
  | None => Some w
  | Some camera =>
      if Nat.eqb (List.length (spheresRef s)) 0
         || Nat.eqb (List.length (subSpheresRef s)) 0
      then Some w
      else
        let anim := cameraAnimRef s in
        (* Auto-rotate *)
        let autoOn := negb (isDraggingRef p) && negb (active anim)
                      && negb (truthy (activeSection a)) in
        let autoRotate :=
          if autoOn then autoRotateRef s + delta * (15 # 100)
          else if isDraggingRef p then y_ (targetRotationRef p)
          else autoRotateRef s in
        let targetRotation :=
          if autoOn then mkXY (x_ (targetRotationRef p)) autoRotate
          else targetRotationRef p in
        let rotation :=
          mkXY (x_ (rotationRef s)
                + (x_ targetRotation - x_ (rotationRef s)) * (5 # 100))
               (y_ (rotationRef s)
                + (y_ targetRotation - y_ (rotationRef s)) * (5 # 100)) in
        let zoom := zoomRef s + (targetZoomRef p - zoomRef s) * (5 # 100) in
        (* Camera animation *)
        r <- animateCamera time delta a s camera rotation zoom ;;
        let '(camera1, anim1, report) := r in
        (* Update parent spheres, then sub-spheres *)
        let spheres := mapi (updateSphere time a (torusCurve s)) 0 (spheresRef s) in
        subSpheres <- mapiM (updateSubs time a spheres) 0 (subSpheresRef s) ;;
        positions <- screenPositions a camera1 subSpheres ;;
        let a1 := match report with
                  | Some (ph, pr) => handleCameraProgress ph pr a
                  | None => a
                  end in
        let a2 := match positions with
                  | Some ps => setSubSpherePositions ps a1
                  | None => a1
                  end in
        Some (mkWorld a2
                (mkPointer (isDraggingRef p) (hasDraggedRef p) (lastMouseRef p)
                           (mouseDownPosRef p) targetRotation (targetZoomRef p)
                           (pinchStartRef p))
                (mkScene (Some camera1) spheres subSpheres rotation zoom
                         autoRotate anim1 (prevSectionRef s) (prevLinkRef s)
                         (mountedRef s)
                         (match torusCurve s with
                          | Some c => Some c
                          | None => Some (generateTorusPoints 1 (7 # 10) 11 12)
                          end))
                (deps w))
  end.

End Frames.

(* ================================================================== *)
(** ** React: mounting, committing effects, dispatching events *)
(* ================================================================== *)

(** The initial values of the state cells and refs. *)
Definition initialApp : App := mkApp None None [] idle 0 false None.

Definition initialPointer : Pointer :=
  mkPointer false false (mkXY 0 0) (mkXY 0 0) (mkXY (3 # 10) 0) (45 # 10) None.

Definition initialScene : Scene :=
  mkScene None [] [] (mkXY (3 # 10) 0) (45 # 10) 0 initialAnim None None false
          None.

(** The first render: every [useRef] and [useState] at its initial value. *)
Definition initialWorld : World :=
  mkWorld initialApp initialPointer initialScene
          (mkDeps (None, None) (idle, None)).

(** What the user and the presentation layer can do, and the animation
    frame.  [MouseUp] and [TouchEnd] carry what the raycaster finds at the
    release position. *)
Inductive Event :=
| MouseDown (e : XY)
| MouseMove (e : XY)
| MouseUp (hit : Hit)
| Wheel (deltaY : Q)
| TouchStart (touches : list XY)
| TouchMove (touches : list XY)
| TouchEnd (changedTouches : list XY) (hit : Hit)
| Frame (time delta : Q)
| ClickSection (id : string)
| ClickSubSphere (sectionId linkId : string)
| Back
| BackToSection
| ToggleConstellation
| NavLogo
| NavSection (id : string).

(** The click handler of the logo in [NavBar]. *)
Definition navLogoClick (a : App) : App :=
  if truthy (activeLink a) then handleBackToSection a
  else if truthy (activeSection a) then handleBack a
  else a.

(** The click handler of a section name in [NavBar]. *)
Definition navSectionClick (id : string) (a : App) : App :=
  if truthy (activeLink a) && idIs (activeSection a) id
  then handleBackToSection a
  else if idIs (activeSection a) id then handleBack a
  else handleClickSection id a.

Section React.
Context {rt : Runtime}.

(** One commit: each effect whose dependencies changed since it last ran
    runs, the effect of [Scene3D] (the child) before that of [App]. *)
Definition commit (w : World) : option World :=
  let a := appSt w in
  w1 <- (if idEqb (fst (flyDeps (deps w))) (activeSection a)
            && idEqb (snd (flyDeps (deps w))) (activeLink a)
         then Some w
         else
           w' <- flyEffect w ;;
           Some (withDeps w' (mkDeps (activeSection a, activeLink a)
                                     (pendingDeps (deps w'))))) ;;
  if Phase_eqb (fst (pendingDeps (deps w1))) (cameraPhase a)
     && idEqb (snd (pendingDeps (deps w1))) (activeSection a)
  then Some w1
  else Some (withDeps (withApp w1 (pendingLinkEffect (appSt w1)))
                      (mkDeps (flyDeps (deps w1))
                              (cameraPhase a, activeSection a))).

(** Rendering until no effect is left to run: the effect of [App] can set
    [activeLink], which the next commit shows to the effect of [Scene3D]. *)
Definition settle (w : World) : option World :=
  w1 <- commit w ;;
  commit w1.

(** Mounting: every effect runs once, in order. *)
Definition mount (w : World) : option World :=
  let w1 := withScene w (initEffect (scene w)) in
  w2 <- flyEffect w1 ;;
  let a := pendingLinkEffect (appSt w2) in
  settle (mkWorld a (pointer w2) (scene w2)
                  (mkDeps (activeSection (appSt w1), activeLink (appSt w1))
                          (cameraPhase (appSt w1), activeSection (appSt w1)))).

(** The handler of each event. *)
Definition handle (e : Event) (w : World) : option World :=
  match e with
  | MouseDown p => Some (onMD p w)
  | MouseMove p => Some (onMM p w)
  | MouseUp hit => onMU hit w
  | Wheel deltaY => Some (onWH deltaY w)
  | TouchStart ts => Some (onTS ts w)
  | TouchMove ts => Some (onTM ts w)
  | TouchEnd ts hit => onTE ts hit w
  | Frame time delta => animate time delta w
  | ClickSection id => Some (withApp w (handleClickSection id (appSt w)))
  | ClickSubSphere sectionId linkId =>
      Some (withApp w (handleClickSubSphere sectionId linkId (appSt w)))
  | Back => Some (withApp w (handleBack (appSt w)))
  | BackToSection => Some (withApp w (handleBackToSection (appSt w)))
  | ToggleConstellation =>
      Some (withApp w (handleToggleConstellation (appSt w)))
  | NavLogo => Some (withApp w (navLogoClick (appSt w)))
  | NavSection id => Some (withApp w (navSectionClick id (appSt w)))
  end.

(** One event: its handler, then the renders it causes. *)
Definition step (e : Event) (w : World) : option World :=
  w1 <- handle e w ;;
  settle w1.

(** A sequence of events. *)
Fixpoint run (es : list Event) (w : World) : option World :=
  match es with
  | [] => Some w
  | e :: rest => w1 <- step e w ;; run rest w1
  end.

End React.

(* ================================================================== *)
(** ** [useAnimationFrame] *)
(* ================================================================== *)

(** The function [useAnimationFrame] gives to [requestAnimationFrame], at
    the timestamp [time] in milliseconds: the arguments with which it calls
    the frame callback, if it calls it, and the new value of
    [previousTimeRef]. *)
Definition requestedFrame (time : Q) (previousTimeRef : option Q)
  : option (Q * Q) * option Q :=
  (match previousTimeRef with
   | Some previous => Some (time / 1000, (time - previous) / 1000)
   | None => None
   end,
   Some time).

(** [useAnimationFrame(animate)] over the timestamps of the browser: the
    frames it raises, from a value of [previousTimeRef]. *)
Fixpoint useAnimationFrame (times : list Q) (previousTimeRef : option Q)
  : list Event :=
  match times with
  | [] => []
  | time :: rest =>
      match fst (requestedFrame time previousTimeRef) with
      | Some (t, delta) =>
          Frame t delta
          :: useAnimationFrame rest (snd (requestedFrame time previousTimeRef))
      | None =>
          useAnimationFrame rest (snd (requestedFrame time previousTimeRef))
      end
  end.

(* ================================================================== *)
(** ** [animate]: the lines of the drawing *)
(* ================================================================== *)

(** A constellation line: its two end points, the opacity of its material
    and its [visible] flag. *)
Record ConstellationLine := mkLine {
  line_from : Vec3;
  line_to : Vec3;
  line_opacity : Q;
  line_visible : bool }.

(** The lines [animate] fades: the opacity of the material of the torus
    line, and [constellationLinesRef]. *)
Record Lines := mkLines {
  lineMat_opacity : Q;
  constellationLinesRef : list ConstellationLine }.

(** The lines the init effect builds: the torus line opaque, one
    constellation line per section, transparent. *)
Definition initialLines : Lines :=
  mkLines 1 (map (fun _ => mkLine vzero vzero 0 true) SECTIONS).

(** The update of constellation line [i] in [animate]: skipped when one of
    its two planets is missing. *)
Definition updateConstellationLine (a : App) (spheres : list Sphere) (i : nat)
  (line : ConstellationLine) : ConstellationLine :=
  let nextI := ((i + 1) mod List.length SECTIONS)%nat in
  match nth_error spheres i, nth_error spheres nextI with
  | Some p1, Some p2 =>
      let targetOpacity :=
        if showConstellation a && negb (truthy (activeSection a))
        then 35 # 100 else 0 in
      let opacity :=
        line_opacity line + (targetOpacity - line_opacity line) * (8 # 100) in
      mkLine (sphere_position p1) (sphere_position p2) opacity
             (Qgtb opacity (1 # 100))
  | _, _ => line
  end.

(** The part of [animate] that fades the lines, on the planets the same
    call has just moved. *)
Definition animateLines (a : App) (spheres : list Sphere) (ls : Lines) : Lines :=
  let target :=
    if truthy (activeLink a) then 4 # 100
    else if truthy (activeSection a) then 1 # 10 else 1 in
  mkLines (lineMat_opacity ls + (target - lineMat_opacity ls) * (4 # 100))
          (mapi (updateConstellationLine a spheres) 0
                (constellationLinesRef ls)).

(* ================================================================== *)
(** ** The overlays: [SubSphereLabels], [LinkPanel] and [NavBar] *)
(* ================================================================== *)

(** One label of [SubSphereLabels]: the link it names, its [left] and [top]
    in pixels, its opacity, whether its [pointerEvents] are ["auto"], and
    the event its click handler raises. *)
Record Label := mkLabel {
  label_link : Link;
  label_left : Q;
  label_top : Q;
  label_opacity : Q;
  label_pointerEvents : bool;
  label_onClick : Event }.

(** What [SubSphereLabels] renders: the name of the section with its
    opacity, and one entry per reported position, [None] where the
    component renders nothing for it. *)
Record LabelsView := mkLabelsView {
  labels_title : string;
  labels_titleOpacity : Q;
  labels_items : list (option Label) }.

(** [SubSphereLabels]: [None] is [return null].  The positions are those of
    the [App] state; an entry of them is never [null], and [pos.opacity || 0]
    is [pos.opacity]. *)
Definition SubSphereLabels (a : App) : option LabelsView :=
  let positions := subSpherePositions a in
  if negb (truthy (activeSection a)) || truthy (activeLink a)
     || Nat.eqb (List.length positions) 0
  then None
  else
    match find (fun s => idIs (activeSection a) (section_id s)) SECTIONS with
    | None => None
    | Some sectionData =>
        let op :=
          if Phase_eqb (cameraPhase a) flyToParent
          then Qmax 0 ((cameraProgress a - (8 # 10)) / (2 # 10))
          else if Phase_eqb (cameraPhase a) flyHome
          then Qmax 0 (1 - cameraProgress a * 4)
          else 1 in
        if Qle_bool op 0 then None
        else
          Some (mkLabelsView (label sectionData) (op * (7 # 10))
                  (mapi (fun i pos =>
                           if Qgtb (screen_z pos) 1
                              || (List.length (links sectionData) <=? i)%nat
                           then None
                           else
                             link <- nth_error (links sectionData) i ;;
                             let o := Qmin op (screen_opacity pos) in
                             if Qltb o (1 # 10) then None
                             else Some (mkLabel link (screen_x pos)
                                          (screen_y pos + 18) (o * (85 # 100))
                                          (Qgtb o (3 # 10))
                                          (ClickSubSphere
                                             (section_id sectionData)
                                             (link_id link))))
                        0 positions))
    end.

(** What [LinkPanel] renders: the section and the link it shows, its
    opacity, and whether its [pointerEvents] are ["auto"].  Its button
    raises [BackToSection]. *)
Record Panel := mkPanel {
  panel_section : SectionData;
  panel_link : Link;
  panel_opacity : Q;
  panel_pointerEvents : bool }.

(** [LinkPanel]: [None] is [return null]. *)
Definition LinkPanel (a : App) : option Panel :=
  if negb (truthy (activeSection a)) || negb (truthy (activeLink a))
  then None
  else
    match find (fun s => idIs (activeSection a) (section_id s)) SECTIONS with
    | None => None
    | Some sectionData =>
        match find (fun l => idIs (activeLink a) (link_id l))
                   (links sectionData) with
        | None => None
        | Some linkData =>
            let op :=
              if Phase_eqb (cameraPhase a) flyToSub
              then Qmax 0 ((cameraProgress a - (6 # 10)) / (4 # 10))
              else if Phase_eqb (cameraPhase a) flyToParent
                      || Phase_eqb (cameraPhase a) flyHome
              then Qmax 0 (1 - cameraProgress a * 3)
              else 1 in
            if Qle_bool op 0 then None
            else Some (mkPanel sectionData linkData op (Qgtb op (5 # 10)))
        end
    end.

(** The click handlers [NavBar] renders, as the events they raise: the
    logo; at home the constellation toggle; for each section its name and,
    under the active section while no link is active, its links. *)
Definition NavBar (a : App) : list Event :=
  NavLogo
  :: (if negb (truthy (activeSection a)) then [ToggleConstellation] else [])
  ++ flat_map
       (fun section =>
          NavSection (section_id section)
          :: (if idIs (activeSection a) (section_id section)
                 && negb (truthy (activeLink a))
              then map (fun link =>
                          ClickSubSphere (section_id section) (link_id link))
                       (links section)
              else []))
       SECTIONS.

(* ================================================================== *)
(** ** A runtime over the rationals *)
(* ================================================================== *)

(** The theorems below hold for every [Runtime].  To run the model on
    concrete inputs the library calls are given rational stand-ins: the
    square root is exact on rational squares (so [Math.hypot] is exact on
    Pythagorean triples), cosine and sine are truncated power series, and a
    curve lookup returns the raw point at or before the requested
    progress. *)
Definition sqrtQ (q : Q) : Q :=
  Qred (inject_Z (Z.sqrt (Qnum q * Zpos (Qden q))) / inject_Z (Zpos (Qden q))).

(** The runtime over the rationals. *)
Definition rationalRuntime : Runtime :=
  {| Math_PI := 355 # 113;
     Math_cos := fun x => Qred (1 - x * x / 2 + x * x * x * x / 24);
     Math_sin := fun x => Qred (x - x * x * x / 6);
     Math_hypot := fun a b => sqrtQ (a * a + b * b);
     normalize := fun v =>
       let len := sqrtQ (vx v * vx v + vy v * vy v + vz v * vz v) in
       let k := if Qeq_bool len 0 then 1 else Qred (/ len) in
       mkVec3 (Qred (vx v * k)) (Qred (vy v * k)) (Qred (vz v * k));
     getPointAt := fun c u =>
       nth (Z.to_nat (Qfloor (u * inject_Z (Z.of_nat (List.length (rawPoints c))))))
           (rawPoints c) vzero;
     project := fun camera v =>
       mkVec3 (vx v - vx (position camera)) (vy v - vy (position camera))
              (vz v - vz (position camera));
     innerWidth := 1280;
     innerHeight := 720 |}.

(* ================================================================== *)
(** ** Vocabulary of the properties *)
(* ================================================================== *)


(** [e] is an animation frame. *)
Definition isFrame (e : Event) : Prop :=
  match e with
  | Frame _ _ => True
  | _ => False
  end.

(** The navigation part of the [App] state. *)
Definition navOf (a : App) : Id * Id * Id :=
  (activeSection a, activeLink a, pendingLinkRef a).

(** The operations that leave the context of a queued link: back to home,
    back to section, a section name of the navigation bar, and a click on a
    section other than the active one. *)
Inductive NavigatesAway (a : App) : Event -> Prop :=
| away_back : NavigatesAway a Back
| away_backToSection : NavigatesAway a BackToSection
| away_navSection (id : string) : NavigatesAway a (NavSection id)
| away_clickSection (id : string) :
    activeSection a <> Some id -> NavigatesAway a (ClickSection id).

(** No effect is left to run: each effect has seen the current values of
    its dependencies. *)
Definition flyDepsCurrent (w : World) : bool :=
  idEqb (fst (flyDeps (deps w))) (activeSection (appSt w))
  && idEqb (snd (flyDeps (deps w))) (activeLink (appSt w)).

(** The same for the effect of [App]. *)
Definition pendingDepsCurrent (w : World) : bool :=
  Phase_eqb (fst (pendingDeps (deps w))) (cameraPhase (appSt w))
  && idEqb (snd (pendingDeps (deps w))) (activeSection (appSt w)).

(** A world between two events. *)
Definition settled (w : World) : Prop :=
  flyDepsCurrent w = true /\ pendingDepsCurrent w = true.

(** The queue behind [pendingLinkRef], as a list. *)
Definition pendingQueue (a : App) : list string :=
  match pendingLinkRef a with
  | Some l => [l]
  | None => []
  end.

(** Link [l] belongs to section [s] of [SECTIONS]. *)
Definition ownsb (s l : string) : bool :=
  existsb (fun sec => String.eqb (section_id sec) s
                      && existsb (fun lk => String.eqb (link_id lk) l) (links sec))
          SECTIONS.

(** Moon clicks name a link of the section they name, as every call site of
    [onClickSubSphere] does. *)
Definition wfEvent (e : Event) : Prop :=
  match e with
  | ClickSubSphere s l => ownsb s l = true
  | _ => True
  end.

(** The owner of a queued link is the active section. *)
Definition ownerActive (a : App) : Prop :=
  forall l, pendingLinkRef a = Some l ->
            exists s, activeSection a = Some s /\ ownsb s l = true.

(** The flight the fly trigger installs: the camera position and the
    current look-at of the record become the start pose, the progress is
    zero, and the duration is that of the kind of flight. *)
Inductive NewFlight (camera : Camera) (prevLink : Id) (old : CameraAnim)
  : CameraAnim -> Prop :=
| new_flyToParent endP look endLook idx :
    (currentLookAt old = Some look
     \/ (currentLookAt old = None /\ look = vzero)) ->
    NewFlight camera prevLink old
      (mkAnim true flyToParent (position camera) endP look endLook
              (currentLookAt old) 0
              (if truthy prevLink then 15 # 10 else 25 # 10) idx (-1))
| new_flyToSub endP look endLook sIdx lIdx :
    (0 <= sIdx)%Z -> (0 <= lIdx)%Z ->
    (currentLookAt old = None \/ currentLookAt old = Some look) ->
    NewFlight camera prevLink old
      (mkAnim true flyToSub (position camera) endP look endLook
              (currentLookAt old) 0 (18 # 10) sIdx lIdx)
| new_flyHome endP look :
    (currentLookAt old = Some look
     \/ (currentLookAt old = None /\ look = vzero)) ->
    NewFlight camera prevLink old
      (mkAnim true flyHome (position camera) endP look vzero
              (currentLookAt old) 0 2 (-1) (-1)).

(** The scene has been built: [animate] runs its body. *)
Definition sceneReady (s : Scene) : bool :=
  match cameraRef s with
  | Some _ =>
      negb (Nat.eqb (List.length (spheresRef s)) 0)
      && negb (Nat.eqb (List.length (subSpheresRef s)) 0)
  | None => false
  end.

(** [anim] is a flight that starts at position [pos], looking at [look]. *)
Definition startsFrom (pos look : Vec3) (anim : CameraAnim) : Prop :=
  active anim = true /\ progress anim = 0
  /\ startPos anim = pos
  /\ startLookAt anim = look.

(** What a handler may do to the queue, from state [a] to state [a1]: a
    link in the queue was there before, or the active section has changed,
    or the last reported phase is the flight to the parent. *)
Definition queuedBy (a a1 : App) : Prop :=
  forall l, pendingLinkRef a1 = Some l ->
    pendingLinkRef a = Some l
    \/ idEqb (activeSection a) (activeSection a1) = false
    \/ cameraPhase a1 = flyToParent.

(** No link is left in the queue beside a report of parkedAtParent. *)
Definition noneWaiting (a : App) : Prop :=
  forall l, pendingLinkRef a = Some l -> cameraPhase a <> parkedAtParent.

(** A mouse gesture: press at [origin], then the moves. *)
Definition mouseGesture (origin : XY) (moves : list XY) (w : World) : World :=
  fold_left (fun w' m => onMM m w') moves (onMD origin w).

(** A one-finger touch gesture. *)
Definition touchGesture {rt : Runtime} (origin : XY) (moves : list XY)
  (w : World) : World :=
  fold_left (fun w' m => onTM [m] w') moves (onTS [origin] w).

(** [m] is at most [limit] away from [origin] along each axis. *)
Definition withinAxes (limit : Q) (origin m : XY) : Prop :=
  Qabs (x_ m - x_ origin) <= limit /\ Qabs (y_ m - y_ origin) <= limit.

(** [m] is at most [limit] away from [origin] in a straight line. *)
Definition withinDistance (limit : Q) (origin m : XY) : Prop :=
  (x_ m - x_ origin) * (x_ m - x_ origin)
  + (y_ m - y_ origin) * (y_ m - y_ origin) <= limit * limit.

(** The test of [onMM] and [onTM]: more than [limit] away along an axis. *)
Definition beyond (limit : Q) (origin m : XY) : bool :=
  Qgtb (Qabs (x_ m - x_ origin)) limit || Qgtb (Qabs (y_ m - y_ origin)) limit.

(** The zoom target is within [2, 8]. *)
Definition zoomInRange (p : Pointer) : Prop :=
  2 <= targetZoomRef p /\ targetZoomRef p <= 8.

(** The animation record targets nothing, or a planet or moon that exists. *)
Definition targetsOK (anim : CameraAnim) : Prop :=
  (targetSectionIndex anim < Z.of_nat (List.length SECTIONS))%Z
  /\ ((0 <= targetSectionIndex anim)%Z -> (0 <= targetLinkIndex anim)%Z ->
      exists sec lk,
        at_ SECTIONS (targetSectionIndex anim) = Some sec
        /\ at_ (links sec) (targetLinkIndex anim) = Some lk).

(** The scene the init effect builds: a camera, one planet per section, one
    moon per link. *)
Definition sceneOK (s : Scene) : Prop :=
  (exists camera, cameraRef s = Some camera)
  /\ List.length (spheresRef s) = List.length SECTIONS
  /\ Forall2 (fun subs sec => List.length subs = List.length (links sec))
             (subSpheresRef s) SECTIONS
  /\ (exists look, currentLookAt (cameraAnimRef s) = Some look)
  /\ targetsOK (cameraAnimRef s).

(** The raycaster returns meshes of the scene. *)
Definition hitInRange (hit : Hit) : Prop :=
  match hit with
  | NoHit => True
  | HitParent idx => (idx < Z.of_nat (List.length SECTIONS))%Z
  | HitSub sIdx lIdx =>
      exists sec lk,
        at_ SECTIONS sIdx = Some sec /\ at_ (links sec) lIdx = Some lk
  end.

(** The hit of a release event is a mesh of the scene. *)
Definition hitOK (e : Event) : Prop :=
  match e with
  | MouseUp hit => hitInRange hit
  | TouchEnd _ hit => hitInRange hit
  | _ => True
  end.

(** The active link is a link of the active section. *)
Definition linkOwned (a : App) : Prop :=
  forall l, activeLink a = Some l ->
            exists s, activeSection a = Some s /\ ownsb s l = true.

(** [e] is an input on the canvas: mouse, wheel or touch. *)
Definition isCanvas (e : Event) : Prop :=
  match e with
  | MouseDown _ | MouseMove _ | MouseUp _ | Wheel _
  | TouchStart _ | TouchMove _ | TouchEnd _ _ => True
  | _ => False
  end.

(** The frame deltas are not negative, as the differences of the timestamps
    [requestAnimationFrame] passes are. *)
Definition frameOK (e : Event) : Prop :=
  match e with
  | Frame _ delta => 0 <= delta
  | _ => True
  end.

(** The smoothed zoom radius is within [2, 8]. *)
Definition zoomSmoothedInRange (s : Scene) : Prop :=
  2 <= zoomRef s /\ zoomRef s <= 8.

(** The opacities of the planets are within [0.06, 1] and those of the
    moons within [0.15, 1]. *)
Definition opacitiesInRange (s : Scene) : Prop :=
  Forall (fun sp => 6 # 100 <= sphere_opacity sp /\ sphere_opacity sp <= 1)
         (spheresRef s)
  /\ Forall (Forall (fun sub => 15 # 100 <= sub_opacity sub
                                /\ sub_opacity sub <= 1))
            (subSpheresRef s).

(** The progress of the animation record is within [0, 1], below 1 while
    the flight is active, and the duration is positive. *)
Definition flightOK (anim : CameraAnim) : Prop :=
  0 <= progress anim /\ progress anim <= 1 /\ 0 < duration anim
  /\ (active anim = true -> progress anim < 1).

(** The moon clicks the overlays offer in state [a]: the labels that take
    pointer events and the links of the navigation bar. *)
Definition overlayClicks (a : App) : list Event :=
  match SubSphereLabels a with
  | Some v =>
      flat_map (fun item =>
                  match item with
                  | Some lab =>
                      if label_pointerEvents lab then [label_onClick lab]
                      else []
                  | None => []
                  end)
               (labels_items v)
  | None => []
  end
  ++ NavBar a.

(** The timestamps do not go backwards, from [previous] on. *)
Fixpoint nondecreasing (previous : Q) (times : list Q) : Prop :=
  match times with
  | [] => True
  | time :: rest => previous <= time /\ nondecreasing time rest
  end.

(** The lines after a sequence of calls of [animate], each with the state
    of [App] it sees and the planets it has moved. *)
Definition linesAfter (calls : list (App * list Sphere)) (ls : Lines) : Lines :=
  fold_left (fun ls' call => animateLines (fst call) (snd call) ls') calls ls.

(** The constellation is off for the call: hidden by the toggle, or a
    section is active; and the call has moved one planet per section. *)
Definition constellationOff (call : App * list Sphere) : Prop :=
  showConstellation (fst call) && negb (truthy (activeSection (fst call)))
  = false
  /\ List.length (snd call) = List.length SECTIONS.

(** The opacity of a constellation line is within [0, 0.35]. *)
Definition lineInRange (line : ConstellationLine) : Prop :=
  0 <= line_opacity line /\ line_opacity line <= 35 # 100.

(** The eased orbit radius of a moon is unset or within [0.1, 0.345], and
    its eased scale is unset or within [0.45, 2.5]. *)
Definition moonOrbitInRange (sub : SubSphere) : Prop :=
  match sub_cOrbitR sub with
  | Some r => 1 # 10 <= r /\ r <= 345 # 1000
  | None => True
  end
  /\ match sub_cScale sub with
     | Some k => 45 # 100 <= k /\ k <= 25 # 10
     | None => True
     end.

(* ================================================================== *)
(** ** Concrete worlds, on the rational runtime *)
(* ================================================================== *)

(** The world after mounting, on the rational runtime. *)
Definition mountedWorld : World :=
  Eval vm_compute in
  match @mount rationalRuntime initialWorld with
  | Some w => w
  | None => initialWorld
  end.

(** What [run] returns, [w] when it fails. *)
Definition runFrom (es : list Event) (w : World) : World :=
  match @run rationalRuntime es w with
  | Some w' => w'
  | None => w
  end.

(** Into section art, one frame of the flight, then a click on its moon
    gallery. *)
Definition queuedTrace : list Event :=
  [NavSection "art"; Frame 1 1; ClickSubSphere "art" "gallery"].

(** The world after [queuedTrace]: at section art, mid-flight, with the link
    gallery queued. *)
Definition queuedWorld : World :=
  Eval vm_compute in runFrom queuedTrace mountedWorld.

(** Back to home from [queuedWorld], and two frames. *)
Definition homeAgainWorld : World :=
  Eval vm_compute in runFrom [Back; Frame 2 3; Frame 3 1] queuedWorld.

(** [mountedWorld] after "enter section(dev)". *)
Definition devWorld : World :=
  Eval vm_compute in runFrom [ClickSection "dev"] mountedWorld.

(** [queuedWorld] one long frame later: the parent flight is over, the last
    reported phase is still flyToParent. *)
Definition flightOverWorld : World :=
  Eval vm_compute in runFrom [Frame 2 3] queuedWorld.

(** [flightOverWorld] after the next call of [animate], before the render. *)
Definition reportedWorld : World :=
  Eval vm_compute in
  match @animate rationalRuntime 3 1 flightOverWorld with
  | Some w => w
  | None => flightOverWorld
  end.

(** At section art, the flight over and the camera parked. *)
Definition parkedArtWorld : World :=
  Eval vm_compute in
  runFrom [NavSection "art"; Frame 1 3; Frame 2 1] mountedWorld.

(** [parkedArtWorld] after a click on the moon github of section dev. *)
Definition atGithubWorld : World :=
  Eval vm_compute in runFrom [ClickSubSphere "dev" "github"] parkedArtWorld.

(** At section art, after the long frame that ends the flight to the
    parent: [parkedArtWorld] before its last frame. *)
Definition arrivedArtWorld : World :=
  Eval vm_compute in runFrom [NavSection "art"; Frame 1 3] mountedWorld.

(** [parkedArtWorld] after the handler of a click on the moon github of dev
    and the first render: the flight to the parent dev has started. *)
Definition towardsDevWorld : World :=
  Eval vm_compute in
  match @commit rationalRuntime
          (withApp parkedArtWorld
             (handleClickSubSphere "dev" "github" (appSt parkedArtWorld))) with
  | Some w => w
  | None => parkedArtWorld
  end.

(** [parkedArtWorld] after a press and release on the moon github of dev. *)
Definition aimedAtGithubWorld : World :=
  Eval vm_compute in
  runFrom [MouseDown (mkXY 0 0); MouseUp (HitSub 1 1)] parkedArtWorld.

(** [parkedArtWorld] after back to home: the flight home has started. *)
Definition homeFromParkedWorld : World :=
  Eval vm_compute in runFrom [Back] parkedArtWorld.

(** [parkedArtWorld] after back to home and, before the next frame, the
    name of section dev in the navigation bar. *)
Definition backThenDevWorld : World :=
  Eval vm_compute in runFrom [Back; NavSection "dev"] parkedArtWorld.

(** [mountedWorld] after the handler of "enter section(dev)", before the
    render. *)
Definition enteringDevWorld : World :=
  withApp mountedWorld (handleClickSection "dev" (appSt mountedWorld)).

(** [enteringDevWorld] after the fly trigger effect. *)
Definition flyingToDevWorld : World :=
  Eval vm_compute in
  match @flyEffect rationalRuntime enteringDevWorld with
  | Some w => w
  | None => enteringDevWorld
  end.

(** At section art, the flight to the parent just started. *)
Definition enteredArtWorld : World :=
  Eval vm_compute in runFrom [NavSection "art"] mountedWorld.

(** [enteredArtWorld] after one call of [animate]. *)
Definition midFlightWorld : World :=
  Eval vm_compute in
  match @animate rationalRuntime 1 1 enteredArtWorld with
  | Some w => w
  | None => enteredArtWorld
  end.

(** Back to home during the flight to art. *)
Definition interruptedWorld : World :=
  Eval vm_compute in runFrom [Frame 1 1; Back] enteredArtWorld.

(** Home again, the flight home in progress. *)
Definition flyingHomeWorld : World :=
  Eval vm_compute in runFrom [NavSection "art"; Back] mountedWorld.

(** A wheel turn far beyond the range. *)
Definition zoomedOutWorld : World :=
  Eval vm_compute in runFrom [Wheel 2000] mountedWorld.

(** Two fingers down at home, then into section art and back: the flight
    home is in progress and the pinch baseline is still there. *)
Definition pinchingHomeWorld : World :=
  Eval vm_compute in
  runFrom [TouchStart [mkXY 0 0; mkXY 60 80]; NavSection "art"; Back]
          mountedWorld.


(** At home after a first frame: the last reported phase is home. *)
Definition homeWorld : World :=
  Eval vm_compute in runFrom [Frame 1 (1 # 60)] mountedWorld.

(** From home, a click on the moon classes of yoga; then the flight to the
    parent runs out; then the next frame. *)
Definition yogaQueuedWorld : World :=
  Eval vm_compute in runFrom [ClickSubSphere "yoga" "classes"] homeWorld.

(** [yogaQueuedWorld] one long frame later. *)
Definition yogaFlownWorld : World :=
  Eval vm_compute in runFrom [Frame 2 3] yogaQueuedWorld.

(** [yogaFlownWorld] after the next frame. *)
Definition yogaLinkWorld : World :=
  Eval vm_compute in runFrom [Frame 3 1] yogaFlownWorld.

(** Parked at art, a click on its moon gallery; then back to home. *)
Definition atGalleryWorld : World :=
  Eval vm_compute in runFrom [ClickSubSphere "art" "gallery"] parkedArtWorld.

(** [atGalleryWorld] after back to home. *)
Definition homeFromLinkWorld : World :=
  Eval vm_compute in runFrom [Back] atGalleryWorld.

(* ================================================================== *)
(** * Properties *)
(* ================================================================== *)


(** ** Ids and small arithmetic facts *)

Lemma idIs_true (v : Id) (s : string) : idIs v s = true <-> v = Some s.
Proof.
  destruct v as [t|]; simpl.
  - rewrite String.eqb_eq. split; [intros ->; reflexivity | congruence].
  - split; discriminate.
Qed.

Lemma idIs_refl (s : string) : idIs (Some s) s = true.
Proof. apply idIs_true. reflexivity. Qed.

Lemma idEqb_true (a b : Id) : idEqb a b = true <-> a = b.
Proof.
  destruct a as [s|], b as [t|]; simpl; try (split; congruence).
  rewrite String.eqb_eq. split; congruence.
Qed.

Lemma idEqb_refl (a : Id) : idEqb a a = true.
Proof. apply idEqb_true. reflexivity. Qed.

Lemma Phase_eqb_true (a b : Phase) : Phase_eqb a b = true <-> a = b.
Proof. destruct a, b; simpl; split; congruence. Qed.

Lemma Phase_eqb_refl (a : Phase) : Phase_eqb a a = true.
Proof. destruct a; reflexivity. Qed.

Lemma truthy_Some (v : Id) : truthy v = true -> exists s, v = Some s /\ s <> "".
Proof.
  destruct v as [s|]; simpl; [|discriminate].
  intros H. exists s. split; [reflexivity|].
  intros ->. discriminate.
Qed.

(** The torus knot of the program closes after 132 raw points, and the
    pacing curve runs from 0 through 1/2 to 1. *)
Example stepsToClose_11_12 : stepsToClose 11 12 = 132%Z.
Proof. reflexivity. Qed.

Example easeInOutCubic_ends :
  easeInOutCubic 0 == 0 /\ easeInOutCubic (1 # 2) == 1 # 2
  /\ easeInOutCubic 1 == 1.
Proof. repeat split. Qed.

(** ** The orbit curve lookup wraps its argument *)


Lemma jsRem1_range (p : Q) : -1 < jsRem1 p /\ jsRem1 p < 1.
Proof.
  destruct p as [n d]. unfold jsRem1, Qlt. simpl.
  pose proof (Z.rem_bound_abs n (Zpos d) ltac:(discriminate)) as H.
  assert (Hd : (Z.abs (Zpos d) = Zpos d)%Z) by reflexivity.
  rewrite Hd in H. lia.
Qed.







(** ** What each effect and each frame can change *)

Lemma pendingLinkEffect_none (a : App) :
  pendingLinkRef a = None -> pendingLinkEffect a = a.
Proof. unfold pendingLinkEffect. intros ->. reflexivity. Qed.

Lemma pendingLinkEffect_section (a : App) :
  activeSection (pendingLinkEffect a) = activeSection a
  /\ cameraPhase (pendingLinkEffect a) = cameraPhase a.
Proof.
  unfold pendingLinkEffect.
  destruct (_ && _); split; reflexivity.
Qed.

Lemma pendingLinkEffect_idem (a : App) :
  pendingLinkEffect (pendingLinkEffect a) = pendingLinkEffect a.
Proof.
  destruct (truthy (pendingLinkRef a) && truthy (activeSection a)
            && Phase_eqb (cameraPhase a) parkedAtParent) eqn:E.
  - apply pendingLinkEffect_none. unfold pendingLinkEffect. rewrite E.
    reflexivity.
  - unfold pendingLinkEffect. rewrite E. unfold pendingLinkEffect.
    rewrite E. reflexivity.
Qed.

Section Framing.
Context {rt : Runtime}.

Lemma flyEffect_frame (w w' : World) :
  flyEffect w = Some w' ->
  appSt w' = appSt w /\ pointer w' = pointer w /\ deps w' = deps w.
Proof.
  unfold flyEffect. destruct (cameraRef (scene w)) as [camera|].
  - destruct (negb (mountedRef (scene w))).
    + intros [= <-]. repeat split.
    + destruct (flyTrigger camera (appSt w) (scene w)); simpl; [|discriminate].
      intros [= <-]. repeat split.
  - intros [= <-]. repeat split.
Qed.

(** A commit changes the [App] state through [pendingLinkEffect] only. *)
Lemma commit_app (w w' : World) :
  commit w = Some w' ->
  pointer w' = pointer w
  /\ (appSt w' = appSt w \/ appSt w' = pendingLinkEffect (appSt w)).
Proof.
  unfold commit.
  destruct (idEqb _ _ && idEqb _ _); simpl.
  - destruct (Phase_eqb _ _ && idEqb _ _); intros [= <-]; simpl; auto.
  - destruct (flyEffect w) as [w1|] eqn:E; simpl; [|discriminate].
    apply flyEffect_frame in E. destruct E as (Ea & Ep & Ed).
    destruct (Phase_eqb _ _ && idEqb _ _); intros [= <-]; simpl;
      rewrite ?Ea; auto.
Qed.

Lemma commit_nav_none (w w' : World) :
  pendingLinkRef (appSt w) = None -> commit w = Some w' -> appSt w' = appSt w.
Proof.
  intros Hp Hc. apply commit_app in Hc. destruct Hc as [_ [H|H]]; [exact H|].
  rewrite H. apply pendingLinkEffect_none. exact Hp.
Qed.

Lemma settle_nav_none (w w' : World) :
  pendingLinkRef (appSt w) = None -> settle w = Some w' -> appSt w' = appSt w.
Proof.
  unfold settle. intros Hp.
  destruct (commit w) as [w1|] eqn:E1; simpl; [|discriminate].
  intros E2.
  pose proof (commit_nav_none _ Hp E1) as H1.
  rewrite <- H1. apply commit_nav_none; [rewrite H1; exact Hp | exact E2].
Qed.

(** A frame leaves the navigation state alone: it reports the camera phase
    and the moon screen positions. *)
Lemma animate_nav (time delta : Q) (w w' : World) :
  animate time delta w = Some w' -> navOf (appSt w') = navOf (appSt w).
Proof.
  unfold animate.
  destruct (cameraRef (scene w)) as [camera|]; [|intros [= <-]; reflexivity].
  destruct (_ || _); [intros [= <-]; reflexivity|].
  destruct (animateCamera _ _ _ _ _ _ _) as [[[c1 a1] report]|]; simpl;
    [|discriminate].
  destruct (mapiM _ _ _) as [subs|]; simpl; [|discriminate].
  destruct (screenPositions _ _ _) as [positions|]; simpl; [|discriminate].
  intros [= <-]. simpl.
  destruct report as [[ph pr]|], positions as [ps|]; reflexivity.
Qed.

Lemma frames_nav_none (es : list Event) :
  Forall isFrame es ->
  forall w w',
    pendingLinkRef (appSt w) = None ->
    run es w = Some w' ->
    navOf (appSt w') = navOf (appSt w).
Proof.
  induction 1 as [|e es He _ IH]; intros w w' Hp; simpl.
  - intros [= <-]. reflexivity.
  - destruct e; try contradiction.
    unfold step. simpl.
    destruct (animate time delta w) as [w1|] eqn:Ea; simpl; [|discriminate].
    destruct (settle w1) as [w2|] eqn:Es; simpl; [|discriminate].
    intros Hr.
    pose proof (animate_nav _ _ _ Ea) as Hn.
    assert (Hp1 : pendingLinkRef (appSt w1) = None).
    { unfold navOf in Hn. congruence. }
    pose proof (settle_nav_none _ Hp1 Es) as H2.
    rewrite (IH _ _ ltac:(rewrite H2; exact Hp1) Hr), H2. exact Hn.
Qed.

End Framing.

(** ** Navigating away clears the pending link *)

Lemma handleBack_clears (a : App) :
  pendingLinkRef (handleBack a) = None /\ activeLink (handleBack a) = None.
Proof. split; reflexivity. Qed.

Lemma handleBackToSection_clears (a : App) :
  pendingLinkRef (handleBackToSection a) = None
  /\ activeLink (handleBackToSection a) = None.
Proof. split; reflexivity. Qed.

Lemma handleClickSection_cases (id : string) (a : App) :
  (handleClickSection id a = a /\ activeSection a = Some id
   /\ truthy (activeLink a) = false)
  \/ (handleClickSection id a = setNav a (Some id) None None).
Proof.
  unfold handleClickSection.
  destruct (idIs (activeSection a) id) eqn:E; simpl.
  - destruct (truthy (activeLink a)) eqn:T; simpl; [right; reflexivity|].
    left. apply idIs_true in E. auto.
  - right. reflexivity.
Qed.

Lemma handleClickSection_clears (id : string) (a : App) :
  activeSection a <> Some id ->
  pendingLinkRef (handleClickSection id a) = None
  /\ activeLink (handleClickSection id a) = None.
Proof.
  intros Hne. destruct (handleClickSection_cases id a) as [(_ & H & _)|H].
  - contradiction.
  - rewrite H. split; reflexivity.
Qed.

Lemma navSectionClick_clears (id : string) (a : App) :
  pendingLinkRef (navSectionClick id a) = None
  /\ activeLink (navSectionClick id a) = None.
Proof.
  unfold navSectionClick.
  destruct (truthy (activeLink a) && idIs (activeSection a) id);
    [apply handleBackToSection_clears|].
  destruct (idIs (activeSection a) id) eqn:E; [apply handleBack_clears|].
  apply handleClickSection_clears. intros H. rewrite H, idIs_refl in E.
  discriminate.
Qed.

(** A planet click on the canvas either does nothing or clears the queue. *)
Lemma handleClick_parent_clears (idx : Z) (w w' : World) :
  handleClick (HitParent idx) w = Some w' ->
  w' = w \/ (pendingLinkRef (appSt w') = None /\ activeLink (appSt w') = None).
Proof.
  unfold handleClick, dispatchHit.
  destruct (_ || _); [intros [= <-]; auto|].
  destruct (negb (truthy (activeSection (appSt w)))); [|intros [= <-]; auto].
  destruct (0 <=? idx)%Z; [|intros [= <-]; auto].
  destruct (nth_error SECTIONS (Z.to_nat idx)) as [s|]; simpl; [|discriminate].
  intros [= <-]. simpl.
  destruct (handleClickSection_cases (section_id s) (appSt w)) as [(H & _)|H];
    rewrite H.
  - left. destruct w; reflexivity.
  - right. split; reflexivity.
Qed.

Lemma navigatesAway_clears {rt : Runtime} (w : World) (e : Event) :
  NavigatesAway (appSt w) e ->
  exists a, handle e w = Some (withApp w a)
            /\ pendingLinkRef a = None /\ activeLink a = None.
Proof.
  intros [ | |id|id Hne]; simpl; eexists; (split; [reflexivity|]).
  - apply handleBack_clears.
  - apply handleBackToSection_clears.
  - apply navSectionClick_clears.
  - apply handleClickSection_clears. exact Hne.
Qed.

(** C10: back to home, back to section and every section click that
    navigates elsewhere empty the pending-link queue, and no frame after
    them promotes a link: whatever the camera reports afterwards, the queue
    stays empty and no link becomes active. *)
Theorem C10_navigating_away_clears_pending :
  forall (rt : Runtime) (w w' : World) (e : Event) (frames : list Event),
    NavigatesAway (appSt w) e ->
    Forall isFrame frames ->
    run (e :: frames) w = Some w' ->
    pendingLinkRef (appSt w') = None /\ activeLink (appSt w') = None.
Proof.
  intros rt w w' e frames Haway Hframes. simpl. unfold step.
  destruct (@navigatesAway_clears rt w e Haway) as (a & Hh & Hp & Hl).
  rewrite Hh. simpl.
  destruct (settle (withApp w a)) as [w1|] eqn:Es; simpl; [|discriminate].
  intros Hr.
  pose proof (@settle_nav_none rt (withApp w a) w1 Hp Es) as H1. simpl in H1.
  pose proof (@frames_nav_none rt frames Hframes w1 w' ltac:(rewrite H1; exact Hp) Hr) as H2.
  unfold navOf in H2. rewrite H1 in H2.
  split; congruence.
Qed.

Lemma C10_witness :
  pendingLinkRef (appSt queuedWorld) = Some "gallery"
  /\ pendingLinkRef (appSt homeAgainWorld) = None
  /\ activeLink (appSt homeAgainWorld) = None.
Proof.
  split; [reflexivity|].
  apply (@C10_navigating_away_clears_pending rationalRuntime queuedWorld
           homeAgainWorld Back [Frame 2 3; Frame 3 1]).
  - constructor.
  - repeat constructor.
  - vm_compute. reflexivity.
Defined.

(** ** Worlds between events *)

Section Settling.
Context {rt : Runtime}.

Lemma commit_settled (w : World) : settled w -> commit w = Some w.
Proof.
  intros [Hf Hp]. unfold commit.
  unfold flyDepsCurrent in Hf. unfold pendingDepsCurrent in Hp.
  rewrite Hf. simpl. rewrite Hp. reflexivity.
Qed.

Lemma settle_settled (w : World) : settled w -> settle w = Some w.
Proof.
  intros H. unfold settle. rewrite (commit_settled H). simpl.
  apply commit_settled. exact H.
Qed.

(** After one commit the effect of [App] has seen the current values. *)
Lemma commit_pending_current (w w1 : World) :
  commit w = Some w1 -> pendingDepsCurrent w1 = true.
Proof.
  unfold commit.
  assert (Hnew : forall w0 : World,
             appSt w0 = appSt w ->
             (if Phase_eqb (fst (pendingDeps (deps w0))) (cameraPhase (appSt w))
                 && idEqb (snd (pendingDeps (deps w0))) (activeSection (appSt w))
              then Some w0
              else Some (withDeps (withApp w0 (pendingLinkEffect (appSt w0)))
                           (mkDeps (flyDeps (deps w0))
                                   (cameraPhase (appSt w),
                                    activeSection (appSt w))))) = Some w1 ->
             pendingDepsCurrent w1 = true).
  { intros w0 Ha.
    destruct (Phase_eqb _ _ && idEqb _ _) eqn:E; intros [= <-].
    - unfold pendingDepsCurrent. rewrite Ha. exact E.
    - unfold pendingDepsCurrent. simpl.
      destruct (pendingLinkEffect_section (appSt w0)) as [Hs Hc].
      rewrite Hs, Hc, Ha, Phase_eqb_refl, idEqb_refl. reflexivity. }
  destruct (idEqb _ _ && idEqb _ _); cbn [bind].
  - apply Hnew. reflexivity.
  - destruct (flyEffect w) as [w0|] eqn:E; cbn [bind]; [|discriminate].
    apply flyEffect_frame in E. destruct E as (Ea & _ & _).
    apply (Hnew (withDeps w0 _)). exact Ea.
Qed.

(** A commit that finds the effect of [App] up to date leaves the [App]
    state alone and ends with nothing left to run. *)
Lemma commit_second (w1 w2 : World) :
  pendingDepsCurrent w1 = true ->
  commit w1 = Some w2 ->
  appSt w2 = appSt w1 /\ settled w2.
Proof.
  intros Hp. unfold commit.
  unfold pendingDepsCurrent in Hp.
  destruct (idEqb _ _ && idEqb _ _) eqn:Ef; simpl.
  - rewrite Hp. intros [= <-]. split; [reflexivity|].
    split; [exact Ef | exact Hp].
  - destruct (flyEffect w1) as [w0|] eqn:E; simpl; [|discriminate].
    apply flyEffect_frame in E. destruct E as (Ea & _ & Ed).
    rewrite Ed, Hp. intros [= <-]. simpl. split; [exact Ea|].
    split.
    + unfold flyDepsCurrent. simpl. rewrite Ea, !idEqb_refl. reflexivity.
    + unfold pendingDepsCurrent. simpl. rewrite Ea. exact Hp.
Qed.

Lemma settle_result (w w' : World) :
  settle w = Some w' ->
  settled w'
  /\ (appSt w' = appSt w \/ appSt w' = pendingLinkEffect (appSt w)).
Proof.
  unfold settle.
  destruct (commit w) as [w1|] eqn:E1; simpl; [|discriminate].
  intros E2.
  pose proof (commit_pending_current _ E1) as Hp.
  destruct (commit_second _ Hp E2) as [Ha Hs].
  split; [exact Hs|].
  rewrite Ha. apply commit_app in E1. tauto.
Qed.

Lemma step_settled (e : Event) (w w' : World) :
  step e w = Some w' -> settled w'.
Proof.
  unfold step. destruct (handle e w) as [w1|]; simpl; [|discriminate].
  intros H. apply settle_result in H. tauto.
Qed.

End Settling.

Lemma withApp_same (w : World) : withApp w (appSt w) = w.
Proof. destruct w; reflexivity. Qed.

(** ** Entering a section twice *)

(** C5: entering the same section twice in a row is idempotent.  After the
    first "enter section(id)" the state is at section [id] with no active
    link; the second one returns the world unchanged, so no effect runs and
    the animation record, hence the flight, is the one of the first call. *)
Theorem C5_enter_section_idempotent :
  forall (rt : Runtime) (w w1 : World) (id : string),
    settled w ->
    step (ClickSection id) w = Some w1 ->
    activeSection (appSt w1) = Some id
    /\ truthy (activeLink (appSt w1)) = false
    /\ step (ClickSection id) w1 = Some w1.
Proof.
  intros rt w w1 id Hs H1.
  pose proof (@step_settled rt _ _ _ H1) as Hs1.
  assert (Hnav : activeSection (appSt w1) = Some id
                 /\ truthy (activeLink (appSt w1)) = false).
  { revert H1. unfold step. simpl.
    destruct (handleClickSection_cases id (appSt w)) as [(H & Hsec & Hl)|H];
      rewrite H.
    - rewrite withApp_same, (settle_settled Hs). simpl. intros [= <-]. auto.
    - intros Hst.
      pose proof (@settle_nav_none rt _ _
                    (eq_refl : pendingLinkRef
                                 (appSt (withApp w (setNav (appSt w) (Some id)
                                                           None None))) = None)
                    Hst) as Ha.
      rewrite Ha. simpl. auto. }
  destruct Hnav as [Hsec Hl]. repeat split; try assumption.
  unfold step. simpl. unfold handleClickSection.
  rewrite Hsec, idIs_refl, Hl. simpl.
  rewrite withApp_same. apply settle_settled. exact Hs1.
Qed.

Lemma C5_witness :
  activeSection (appSt devWorld) = Some "dev"
  /\ truthy (activeLink (appSt devWorld)) = false
  /\ @step rationalRuntime (ClickSection "dev") devWorld = Some devWorld.
Proof.
  apply (@C5_enter_section_idempotent rationalRuntime mountedWorld devWorld
           "dev").
  - split; vm_compute; reflexivity.
  - vm_compute. reflexivity.
Defined.

(** ** The pending-link queue *)

Lemma at_In {A : Type} (xs : list A) (i : Z) (x : A) :
  at_ xs i = Some x -> In x xs.
Proof.
  unfold at_. destruct (i <? 0)%Z; [discriminate|]. apply nth_error_In.
Qed.

Lemma ownsb_at (sIdx lIdx : Z) (s : SectionData) (l : Link) :
  at_ SECTIONS sIdx = Some s -> at_ (links s) lIdx = Some l ->
  ownsb (section_id s) (link_id l) = true.
Proof.
  intros Hs Hl. unfold ownsb. apply existsb_exists. exists s.
  split; [exact (@at_In _ _ _ _ Hs)|].
  rewrite String.eqb_refl. simpl. apply existsb_exists. exists l.
  split; [exact (@at_In _ _ _ _ Hl)|]. apply String.eqb_refl.
Qed.

Lemma ownerActive_none (a : App) : pendingLinkRef a = None -> ownerActive a.
Proof. intros H l Hl. congruence. Qed.

Lemma ownerActive_nav (a b : App) :
  navOf b = navOf a -> ownerActive a -> ownerActive b.
Proof.
  unfold navOf, ownerActive. intros [= Hs Hl Hp] H l. rewrite Hp, Hs. apply H.
Qed.

Lemma handleClickSection_owner (id : string) (a : App) :
  ownerActive a -> ownerActive (handleClickSection id a).
Proof.
  intros H. destruct (handleClickSection_cases id a) as [(E & _)|E]; rewrite E.
  - exact H.
  - apply ownerActive_none. reflexivity.
Qed.

Lemma handleClickSubSphere_owner (s l : string) (a : App) :
  ownsb s l = true -> ownerActive a -> ownerActive (handleClickSubSphere s l a).
Proof.
  intros Ho H. unfold handleClickSubSphere.
  destruct (idIs (activeSection a) s) eqn:E; simpl.
  - apply idIs_true in E.
    destruct (Phase_eqb (cameraPhase a) flyToParent).
    + intros l' [= <-]. simpl. exists s. auto.
    + intros l' Hl. simpl in Hl. simpl. apply H. exact Hl.
  - intros l' [= <-]. simpl. exists s. auto.
Qed.

Lemma pendingLinkEffect_owner (a : App) :
  ownerActive a -> ownerActive (pendingLinkEffect a).
Proof.
  intros H. unfold pendingLinkEffect. destruct (_ && _); [|exact H].
  apply ownerActive_none. reflexivity.
Qed.

Lemma handleClick_owner (hit : Hit) (w w' : World) :
  ownerActive (appSt w) -> handleClick hit w = Some w' ->
  ownerActive (appSt w') /\ pointer w' = pointer w.
Proof.
  intros H. unfold handleClick, dispatchHit.
  destruct (_ || _); [intros [= <-]; auto|].
  destruct hit as [|idx|sIdx lIdx].
  - intros [= <-]; auto.
  - destruct (negb _); [|intros [= <-]; auto].
    destruct (0 <=? idx)%Z; [|intros [= <-]; auto].
    destruct (nth_error SECTIONS _) as [s|]; simpl; [|discriminate].
    intros [= <-]. simpl. split; [|reflexivity].
    apply handleClickSection_owner. exact H.
  - destruct (_ && _); [|intros [= <-]; auto].
    destruct (at_ (subSpheresRef (scene w)) sIdx) as [subs|]; simpl;
      [|discriminate].
    destruct (at_ subs lIdx) as [sub|]; simpl; [|discriminate].
    destruct (Qgtb _ _); [|intros [= <-]; auto].
    destruct (at_ SECTIONS sIdx) as [s|] eqn:Es; simpl; [|discriminate].
    destruct (at_ (links s) lIdx) as [l|] eqn:El; simpl; [|discriminate].
    intros [= <-]. simpl. split; [|reflexivity].
    apply handleClickSubSphere_owner; [|exact H].
    exact (@ownsb_at sIdx lIdx s l Es El).
Qed.

Section Owner.
Context {rt : Runtime}.

Lemma handle_owner (e : Event) (w w' : World) :
  wfEvent e -> ownerActive (appSt w) -> handle e w = Some w' ->
  ownerActive (appSt w').
Proof.
  intros Hwf H. destruct e; simpl.
  - intros [= <-]. unfold onMD. destruct (active _); exact H.
  - intros [= <-]. unfold onMM. destruct (negb _); exact H.
  - unfold onMU. destruct (negb _).
    + destruct (handleClick hit w) as [w1|] eqn:E; simpl; [|discriminate].
      intros [= <-]. destruct (@handleClick_owner hit w w1 H E) as [Ho _]. exact Ho.
    + simpl. intros [= <-]. exact H.
  - intros [= <-]. unfold onWH. destruct (_ || _); exact H.
  - intros [= <-]. unfold onTS. destruct (active _); [exact H|].
    destruct touches as [|t0 [|t1 [|]]]; exact H.
  - intros [= <-]. unfold onTM.
    destruct touches as [|t0 [|t1 [|]]]; try exact H.
    + destruct (isDraggingRef _); exact H.
    + destruct (pinchStartRef _); [|exact H]. destruct (negb _); exact H.
  - unfold onTE. destruct (_ && _).
    + destruct (handleClick hit w) as [w1|] eqn:E; simpl; [|discriminate].
      intros [= <-]. destruct (@handleClick_owner hit w w1 H E) as [Ho _]. exact Ho.
    + simpl. intros [= <-]. exact H.
  - intros Ha. apply animate_nav in Ha. exact (@ownerActive_nav _ _ Ha H).
  - intros [= <-]. apply handleClickSection_owner. exact H.
  - intros [= <-]. apply handleClickSubSphere_owner; assumption.
  - intros [= <-]. apply ownerActive_none. reflexivity.
  - intros [= <-]. apply ownerActive_none. reflexivity.
  - intros [= <-]. exact H.
  - intros [= <-]. simpl. unfold navLogoClick.
    destruct (truthy (activeLink _)); [apply ownerActive_none; reflexivity|].
    destruct (truthy (activeSection _)); [apply ownerActive_none; reflexivity|].
    exact H.
  - intros [= <-]. apply ownerActive_none. apply navSectionClick_clears.
Qed.

Lemma settle_owner (w w' : World) :
  ownerActive (appSt w) -> settle w = Some w' -> ownerActive (appSt w').
Proof.
  intros H Hs. apply settle_result in Hs. destruct Hs as [_ [E|E]]; rewrite E.
  - exact H.
  - apply pendingLinkEffect_owner. exact H.
Qed.

Lemma step_owner (e : Event) (w w' : World) :
  wfEvent e -> ownerActive (appSt w) -> step e w = Some w' ->
  ownerActive (appSt w').
Proof.
  intros Hwf H. unfold step.
  destruct (handle e w) as [w1|] eqn:E; simpl; [|discriminate].
  apply settle_owner. exact (@handle_owner e w w1 Hwf H E).
Qed.

Lemma run_owner (es : list Event) :
  Forall wfEvent es ->
  forall w w', ownerActive (appSt w) -> run es w = Some w' ->
               ownerActive (appSt w').
Proof.
  induction 1 as [|e es He _ IH]; intros w w' H; simpl.
  - intros [= <-]. exact H.
  - destruct (step e w) as [w1|] eqn:E; simpl; [|discriminate].
    apply IH. exact (@step_owner e w w1 He H E).
Qed.

Lemma mount_owner (w0 : World) :
  mount initialWorld = Some w0 -> ownerActive (appSt w0).
Proof.
  unfold mount.
  destruct (flyEffect _) as [w2|] eqn:E; simpl; [|discriminate].
  apply flyEffect_frame in E. destruct E as (Ea & _ & _).
  apply settle_owner. simpl. rewrite Ea. simpl.
  apply ownerActive_none. reflexivity.
Qed.

End Owner.

Lemma pendingLinkEffect_cases (a : App) :
  pendingLinkEffect a = a
  \/ exists l,
       pendingLinkRef a = Some l
       /\ truthy (activeSection a) = true
       /\ cameraPhase a = parkedAtParent
       /\ pendingLinkEffect a = setNav a (activeSection a) (Some l) None.
Proof.
  unfold pendingLinkEffect.
  destruct (truthy (pendingLinkRef a)) eqn:Ep; simpl; [|left; reflexivity].
  destruct (truthy (activeSection a)) eqn:Es; simpl; [|left; reflexivity].
  destruct (Phase_eqb (cameraPhase a) parkedAtParent) eqn:Ec;
    [|left; reflexivity].
  right. apply truthy_Some in Ep. destruct Ep as (l & Hl & _).
  exists l. rewrite Hl. apply Phase_eqb_true in Ec. auto.
Qed.

(** ** A moon click on another section *)

Lemma truthy_nonempty (s : string) : s <> "" -> truthy (Some s) = true.
Proof.
  intros H. simpl. destruct (String.eqb s "") eqn:E; [|reflexivity].
  apply String.eqb_eq in E. contradiction.
Qed.

Section Stale.
Context {rt : Runtime}.

(** A commit whose [App] effect is out of date runs it. *)
Lemma commit_runs_pending (w w1 : World) :
  pendingDepsCurrent w = false ->
  commit w = Some w1 ->
  appSt w1 = pendingLinkEffect (appSt w).
Proof.
  intros Hp. unfold commit. unfold pendingDepsCurrent in Hp.
  destruct (idEqb _ _ && idEqb _ _); cbn [bind].
  - rewrite Hp. intros [= <-]. reflexivity.
  - destruct (flyEffect w) as [w0|] eqn:E; cbn [bind]; [|discriminate].
    apply flyEffect_frame in E. destruct E as (Ea & _ & Ed).
    cbn [deps withDeps pendingDeps]. rewrite Ed, Hp.
    intros [= <-]. simpl. rewrite Ea. reflexivity.
Qed.

End Stale.

(** C2: a moon click on another section while the camera is parked.  The
    last reported phase is still parkedAtParent, of the section being left;
    the effect of [App] sees it in the render that follows the click and
    fires the queued link at once.  The state is at the link of the new
    section before any frame has run, so before the camera has flown to, or
    parked at, the new parent. *)
Theorem C2_parked_report_of_old_section_fires_link :
  forall (rt : Runtime) (w w' : World) (sectionId linkId : string),
    settled w ->
    cameraPhase (appSt w) = parkedAtParent ->
    activeSection (appSt w) <> Some sectionId ->
    sectionId <> "" ->
    linkId <> "" ->
    step (ClickSubSphere sectionId linkId) w = Some w' ->
    activeSection (appSt w') = Some sectionId
    /\ activeLink (appSt w') = Some linkId
    /\ pendingLinkRef (appSt w') = None
    /\ cameraPhase (appSt w') = parkedAtParent
    /\ cameraProgress (appSt w') = cameraProgress (appSt w).
Proof.
  intros rt w w' s l [_ Hp] Hph Hne Hs Hl. unfold step. simpl.
  assert (Hid : idIs (activeSection (appSt w)) s = false).
  { destruct (idIs (activeSection (appSt w)) s) eqn:E; [|reflexivity].
    apply idIs_true in E. contradiction. }
  unfold handleClickSubSphere. rewrite Hid. simpl.
  set (w1 := withApp w (setNav (appSt w) (Some s) None (Some l))).
  assert (Hstale : pendingDepsCurrent w1 = false).
  { unfold pendingDepsCurrent in *. simpl.
    apply andb_true_iff in Hp. destruct Hp as [_ Hp].
    apply idEqb_true in Hp. rewrite Hp.
    destruct (idEqb (activeSection (appSt w)) (Some s)) eqn:E.
    - apply idEqb_true in E. contradiction.
    - apply andb_false_r. }
  unfold settle.
  destruct (commit w1) as [w2|] eqn:E1; cbn [bind]; [|discriminate].
  intros E2.
  pose proof (commit_runs_pending w1 Hstale E1) as Ha.
  pose proof (commit_pending_current _ E1) as Hc.
  destruct (commit_second _ Hc E2) as [Ha2 _].
  rewrite Ha2, Ha. unfold w1, pendingLinkEffect.
  cbn [appSt withApp pendingLinkRef activeSection cameraPhase setNav].
  rewrite Hph, (truthy_nonempty Hs), (truthy_nonempty Hl). simpl. auto.
Qed.

Lemma C2_witness :
  activeSection (appSt atGithubWorld) = Some "dev"
  /\ activeLink (appSt atGithubWorld) = Some "github"
  /\ pendingLinkRef (appSt atGithubWorld) = None
  /\ cameraPhase (appSt atGithubWorld) = parkedAtParent
  /\ cameraProgress (appSt atGithubWorld) = cameraProgress (appSt parkedArtWorld).
Proof.
  apply (@C2_parked_report_of_old_section_fires_link rationalRuntime
           parkedArtWorld atGithubWorld "dev" "github").
  - split; vm_compute; reflexivity.
  - reflexivity.
  - discriminate.
  - discriminate.
  - discriminate.
  - vm_compute. reflexivity.
Defined.

(** The same through the canvas: a press and release on the moon github of
    dev while parked at art.  The flight to the parent dev is replaced by
    the flight to the moon before it has advanced. *)
Example canvas_click_on_moon_of_other_section :
  let w := runFrom [MouseDown (mkXY 0 0); MouseUp (HitSub 1 1)] parkedArtWorld in
  navOf (appSt parkedArtWorld) = (Some "art", None, None)
  /\ navOf (appSt w) = (Some "dev", Some "github", None)
  /\ phase (cameraAnimRef (scene w)) = flyToSub
  /\ progress (cameraAnimRef (scene w)) = 0
  /\ cameraPhase (appSt w) = parkedAtParent.
Proof. vm_compute. repeat split. Qed.

(** ** Camera flights *)

Section FlightFacts.
Context {rt : Runtime}.

Lemma look_cases (old : CameraAnim) :
  currentLookAt old
  = Some (match currentLookAt old with Some v => v | None => vzero end)
  \/ (currentLookAt old = None
      /\ match currentLookAt old with Some v => v | None => vzero end = vzero).
Proof. destruct (currentLookAt old); auto. Qed.

Lemma flyTrigger_cases (camera : Camera) (a : App) (s : Scene)
  (anim' : CameraAnim) :
  flyTrigger camera a s = Some anim' ->
  anim' = cameraAnimRef s
  \/ NewFlight camera (prevLinkRef s) (cameraAnimRef s) anim'.
Proof.
  unfold flyTrigger.
  destruct (truthy (activeLink a) && truthy (activeSection a)).
  - destruct (0 <=? sectionIndexOf (activeSection a))%Z eqn:Es;
      [|intros [= <-]; auto].
    destruct (0 <=? linkIndexOf _ _)%Z eqn:El; [|intros [= <-]; auto].
    cbn [andb].
    apply Z.leb_le in Es, El.
    destruct (currentLookAt (cameraAnimRef s)) as [v|] eqn:Ec; cbn [bind].
    + intros [= <-]. right. rewrite <- Ec. constructor; auto.
    + destruct (at_ (spheresRef s) _) as [sp|]; cbn [bind]; [|discriminate].
      intros [= <-]. right. rewrite <- Ec. constructor; auto.
  - destruct (truthy (activeSection a) && negb (truthy (activeLink a))).
    + intros [= <-]. right. constructor. apply look_cases.
    + destruct (_ && _); intros [= <-]; [|auto].
      right. constructor. apply look_cases.
Qed.

(** Mounted, with a camera, the effect writes the record of [flyTrigger] and
    remembers the navigation state it saw. *)
Lemma flyEffect_mounted (w w' : World) (camera : Camera) :
  cameraRef (scene w) = Some camera ->
  mountedRef (scene w) = true ->
  flyEffect w = Some w' ->
  flyTrigger camera (appSt w) (scene w) = Some (cameraAnimRef (scene w'))
  /\ cameraRef (scene w') = Some camera
  /\ prevSectionRef (scene w') = activeSection (appSt w)
  /\ prevLinkRef (scene w') = activeLink (appSt w).
Proof.
  intros Hc Hm. unfold flyEffect. rewrite Hc, Hm. cbn [negb].
  destruct (flyTrigger camera (appSt w) (scene w)) as [anim|]; cbn [bind];
    [|discriminate].
  intros [= <-]. simpl. auto.
Qed.

End FlightFacts.

(** C9: every flight is created with the duration of its kind.  Whatever
    the fly trigger effect does, the animation record is either untouched or
    a new flight: to the parent in 1.5 s when the previous navigation state
    had an active link and in 2.5 s otherwise, to a moon in 1.8 s, home in
    2.0 s.  The effect then remembers the navigation state it saw as the
    previous one. *)
Theorem C9_flight_durations :
  forall (rt : Runtime) (w w' : World) (camera : Camera),
    cameraRef (scene w) = Some camera ->
    mountedRef (scene w) = true ->
    flyEffect w = Some w' ->
    let old := cameraAnimRef (scene w) in
    let anim := cameraAnimRef (scene w') in
    (anim = old
     \/ (active anim = true /\ progress anim = 0
         /\ ((phase anim = flyToParent
              /\ duration anim
                 = if truthy (prevLinkRef (scene w)) then 15 # 10 else 25 # 10)
             \/ (phase anim = flyToSub /\ duration anim = 18 # 10)
             \/ (phase anim = flyHome /\ duration anim = 2))))
    /\ (truthy (activeSection (appSt w)) = true ->
        truthy (activeLink (appSt w)) = false ->
        active anim = true /\ phase anim = flyToParent
        /\ duration anim
           = if truthy (prevLinkRef (scene w)) then 15 # 10 else 25 # 10)
    /\ (truthy (activeSection (appSt w)) = true ->
        truthy (activeLink (appSt w)) = true ->
        anim <> old ->
        active anim = true /\ phase anim = flyToSub
        /\ duration anim = 18 # 10)
    /\ (truthy (activeSection (appSt w)) = false ->
        truthy (activeLink (appSt w)) = false ->
        truthy (prevSectionRef (scene w)) = true ->
        active anim = true /\ phase anim = flyHome /\ duration anim = 2)
    /\ prevLinkRef (scene w') = activeLink (appSt w)
    /\ prevSectionRef (scene w') = activeSection (appSt w).
Proof.
  intros rt w w' camera Hc Hm He old anim.
  destruct (flyEffect_mounted w Hc Hm He) as (Ht & _ & Hps & Hpl).
  fold anim in Ht. fold old.
  split.
  { destruct (flyTrigger_cases _ _ _ Ht) as [E|N]; [left; exact E|].
    right. destruct N; simpl; auto 10. }
  split.
  { intros Hs Hl. revert Ht. unfold flyTrigger. rewrite Hs, Hl.
    cbn [andb negb]. intros [= <-]. auto. }
  split.
  { intros Hs Hl Hne. revert Ht. unfold flyTrigger. rewrite Hs, Hl.
    cbn [andb].
    destruct (_ && _); [|intros [= E]; symmetry in E; contradiction].
    destruct (match currentLookAt _ with Some v => Some v | None => _ end);
      cbn [bind]; [|discriminate].
    intros [= <-]. auto. }
  split.
  { intros Hs Hl Hp. revert Ht. unfold flyTrigger. rewrite Hs, Hl, Hp.
    cbn [andb negb]. intros [= <-]. auto. }
  auto.
Qed.

Lemma C9_witness :
  active (cameraAnimRef (scene flyingToDevWorld)) = true
  /\ phase (cameraAnimRef (scene flyingToDevWorld)) = flyToParent
  /\ duration (cameraAnimRef (scene flyingToDevWorld)) = 25 # 10.
Proof.
  destruct (@C9_flight_durations rationalRuntime enteringDevWorld
              flyingToDevWorld (mkCamera (mkVec3 0 2 (45 # 10)) 1 vzero))
    as (_ & H & _).
  - reflexivity.
  - reflexivity.
  - vm_compute. reflexivity.
  - apply H; reflexivity.
Defined.

Section Continuity.
Context {rt : Runtime}.

(** A frame of a flight in progress points the camera at the look-at it
    records. *)
Lemma animate_flight_lookAt (time delta : Q) (w w1 : World) :
  sceneReady (scene w) = true ->
  active (cameraAnimRef (scene w)) = true ->
  animate time delta w = Some w1 ->
  exists camera,
    cameraRef (scene w1) = Some camera
    /\ currentLookAt (cameraAnimRef (scene w1)) = Some (lookTarget camera).
Proof.
  unfold sceneReady, animate. intros Hr Ha.
  destruct (cameraRef (scene w)) as [camera|]; [|discriminate].
  apply andb_true_iff in Hr. destruct Hr as [H1 H2].
  apply negb_true_iff in H1, H2. rewrite H1, H2. cbn [orb].
  destruct (animateCamera _ _ _ _ _ _ _) as [[[c1 a1] report]|] eqn:Ec;
    cbn [bind]; [|discriminate].
  destruct (mapiM _ _ _) as [subs|]; cbn [bind]; [|discriminate].
  destruct (screenPositions _ _ _) as [positions|]; cbn [bind];
    [|discriminate].
  intros [= <-]. cbn [scene cameraRef cameraAnimRef]. exists c1.
  split; [reflexivity|].
  revert Ec. unfold animateCamera. rewrite Ha.
  destruct (Phase_eqb _ _ && _).
  - destruct (at_ _ _) as [sphere|]; cbn [bind]; [|discriminate].
    intros [= <- <- _]. reflexivity.
  - destruct (_ && _ && _).
    + destruct (at_ _ _) as [subs0|]; cbn [bind]; [|discriminate].
      destruct (at_ _ _) as [sub|]; cbn [bind]; [|discriminate].
      intros [= <- <- _]. reflexivity.
    + intros [= <- <- _]. reflexivity.
Qed.

(** A frame outside a flight turns the camera and leaves the animation
    record, its [currentLookAt] included, as it was; parked at a section,
    the camera looks at the planet. *)
Lemma animate_parked_lookAt (time delta : Q) (w w1 : World) :
  sceneReady (scene w) = true ->
  active (cameraAnimRef (scene w)) = false ->
  animate time delta w = Some w1 ->
  exists camera,
    cameraRef (scene w1) = Some camera
    /\ cameraAnimRef (scene w1) = cameraAnimRef (scene w)
    /\ forall sphere,
         truthy (activeSection (appSt w)) = true ->
         truthy (activeLink (appSt w)) = false ->
         (0 <= sectionIndexOf (activeSection (appSt w)))%Z ->
         at_ (spheresRef (scene w)) (sectionIndexOf (activeSection (appSt w)))
         = Some sphere ->
         lookTarget camera = sphere_position sphere.
Proof.
  unfold sceneReady, animate. intros Hr Ha.
  destruct (cameraRef (scene w)) as [camera|]; [|discriminate].
  apply andb_true_iff in Hr. destruct Hr as [H1 H2].
  apply negb_true_iff in H1, H2. rewrite H1, H2. cbn [orb].
  destruct (animateCamera _ _ _ _ _ _ _) as [[[c1 a1] report]|] eqn:Ec;
    cbn [bind]; [|discriminate].
  destruct (mapiM _ _ _) as [subs|]; cbn [bind]; [|discriminate].
  destruct (screenPositions _ _ _) as [positions|]; cbn [bind];
    [|discriminate].
  intros [= <-]. cbn [scene cameraRef cameraAnimRef]. exists c1.
  split; [reflexivity|].
  revert Ec. unfold animateCamera. rewrite Ha.
  destruct (truthy (activeSection (appSt w))) eqn:Ts; cbn [negb andb].
  - destruct (truthy (activeLink (appSt w))) eqn:Tl; cbn [negb].
    + destruct (_ && _).
      * destruct (at_ _ _) as [subs0|]; cbn [bind]; [|discriminate].
        destruct (at_ _ _) as [sub|]; cbn [bind]; [|discriminate].
        intros [= <- <- _]. split; [reflexivity|]. intros; discriminate.
      * cbn [bind]. intros [= <- <- _]. split; [reflexivity|].
        intros; discriminate.
    + destruct (0 <=? _)%Z eqn:Ei.
      * destruct (at_ _ _) as [sphere0|] eqn:Es; cbn [bind]; [|discriminate].
        intros [= <- <- _]. split; [reflexivity|].
        intros sphere _ _ _ [= <-]. reflexivity.
      * cbn [bind]. intros [= <- <- _]. split; [reflexivity|].
        intros sphere _ _ Hi. apply Z.leb_le in Hi. congruence.
  - intros [= <- <- _]. split; [reflexivity|]. intros; discriminate.
Qed.

(** The fly trigger leaves the camera and the recorded look-at alone; what
    it installs starts at the position of the camera and at the recorded
    look-at. *)
Lemma flyEffect_pose (w w' : World) (camera : Camera) (look : Vec3) :
  cameraRef (scene w) = Some camera ->
  currentLookAt (cameraAnimRef (scene w)) = Some look ->
  flyEffect w = Some w' ->
  cameraRef (scene w') = Some camera
  /\ currentLookAt (cameraAnimRef (scene w')) = Some look
  /\ (cameraAnimRef (scene w') = cameraAnimRef (scene w)
      \/ startsFrom (position camera) look (cameraAnimRef (scene w'))).
Proof.
  intros Hc Hl.
  destruct (mountedRef (scene w)) eqn:Hm.
  - intros He. destruct (flyEffect_mounted w Hc Hm He) as (Ht & Hc' & _).
    split; [exact Hc'|].
    destruct (flyTrigger_cases _ _ _ Ht) as [E|N].
    + rewrite E. auto.
    + destruct N as [endP look' endLook idx Hlook
                    |endP look' endLook sIdx lIdx _ _ Hlook
                    |endP look' Hlook]; cbn [currentLookAt];
        (split; [exact Hl|]); right; unfold startsFrom; simpl;
        rewrite Hl in Hlook;
        destruct Hlook as [Hlook|Hlook];
        try (destruct Hlook; discriminate); try discriminate;
        injection Hlook as <-; auto.
  - unfold flyEffect. rewrite Hc, Hm. cbn [negb]. intros [= <-]. simpl. auto.
Qed.

Lemma commit_pose (w w' : World) (camera : Camera) (look : Vec3) :
  cameraRef (scene w) = Some camera ->
  currentLookAt (cameraAnimRef (scene w)) = Some look ->
  commit w = Some w' ->
  cameraRef (scene w') = Some camera
  /\ currentLookAt (cameraAnimRef (scene w')) = Some look
  /\ (cameraAnimRef (scene w') = cameraAnimRef (scene w)
      \/ startsFrom (position camera) look (cameraAnimRef (scene w'))).
Proof.
  intros Hc Hl. unfold commit.
  destruct (idEqb _ _ && idEqb _ _); cbn [bind].
  - destruct (Phase_eqb _ _ && idEqb _ _); intros [= <-]; simpl; auto.
  - destruct (flyEffect w) as [w0|] eqn:E; cbn [bind]; [|discriminate].
    pose proof (@flyEffect_pose w w0 camera look Hc Hl E) as H.
    destruct (Phase_eqb _ _ && idEqb _ _); intros [= <-]; simpl; exact H.
Qed.

Lemma settle_pose (w w' : World) (camera : Camera) (look : Vec3) :
  cameraRef (scene w) = Some camera ->
  currentLookAt (cameraAnimRef (scene w)) = Some look ->
  settle w = Some w' ->
  cameraRef (scene w') = Some camera
  /\ currentLookAt (cameraAnimRef (scene w')) = Some look
  /\ (cameraAnimRef (scene w') = cameraAnimRef (scene w)
      \/ startsFrom (position camera) look (cameraAnimRef (scene w'))).
Proof.
  intros Hc Hl. unfold settle.
  destruct (commit w) as [w1|] eqn:E1; cbn [bind]; [|discriminate].
  intros E2.
  destruct (@commit_pose w w1 camera look Hc Hl E1) as (Hc1 & Hl1 & H1).
  destruct (@commit_pose w1 w' camera look Hc1 Hl1 E2) as (Hc2 & Hl2 & H2).
  split; [exact Hc2|]. split; [exact Hl2|].
  destruct H2 as [H2|H2]; [|right; exact H2].
  rewrite H2. exact H1.
Qed.

(** Input and navigation handlers do not touch the scene refs. *)
Lemma handleClick_scene (hit : Hit) (w w' : World) :
  handleClick hit w = Some w' -> scene w' = scene w.
Proof.
  unfold handleClick, dispatchHit.
  destruct (_ || _); [intros [= <-]; reflexivity|].
  destruct hit as [|idx|sIdx lIdx].
  - intros [= <-]; reflexivity.
  - destruct (negb _); [|intros [= <-]; reflexivity].
    destruct (0 <=? idx)%Z; [|intros [= <-]; reflexivity].
    destruct (nth_error SECTIONS _); cbn [bind]; [|discriminate].
    intros [= <-]; reflexivity.
  - destruct (_ && _); [|intros [= <-]; reflexivity].
    destruct (at_ (subSpheresRef (scene w)) sIdx) as [subs|]; cbn [bind];
      [|discriminate].
    destruct (at_ subs lIdx) as [sub|]; cbn [bind]; [|discriminate].
    destruct (Qgtb _ _); [|intros [= <-]; reflexivity].
    destruct (at_ SECTIONS sIdx) as [s|]; cbn [bind]; [|discriminate].
    destruct (at_ (links s) lIdx); cbn [bind]; [|discriminate].
    intros [= <-]; reflexivity.
Qed.

Lemma handle_scene (e : Event) (w w' : World) :
  ~ isFrame e -> handle e w = Some w' -> scene w' = scene w.
Proof.
  intros Hnf. destruct e; simpl; try (intros [= <-]; reflexivity).
  - intros [= <-]. unfold onMD. destruct (active _); reflexivity.
  - intros [= <-]. unfold onMM. destruct (negb _); reflexivity.
  - unfold onMU. destruct (negb _).
    + destruct (handleClick hit w) as [w1|] eqn:E; cbn [bind]; [|discriminate].
      intros [= <-]. simpl. exact (handleClick_scene _ _ E).
    + cbn [bind]. intros [= <-]. reflexivity.
  - intros [= <-]. unfold onWH. destruct (_ || _); reflexivity.
  - intros [= <-]. unfold onTS. destruct (active _); [reflexivity|].
    destruct touches as [|t0 [|t1 [|]]]; reflexivity.
  - intros [= <-]. unfold onTM.
    destruct touches as [|t0 [|t1 [|]]]; try reflexivity.
    + destruct (isDraggingRef _); reflexivity.
    + destruct (pinchStartRef _); [|reflexivity]. destruct (negb _); reflexivity.
  - unfold onTE. destruct (_ && _).
    + destruct (handleClick hit w) as [w1|] eqn:E; cbn [bind]; [|discriminate].
      intros [= <-]. simpl. exact (handleClick_scene _ _ E).
    + cbn [bind]. intros [= <-]. reflexivity.
  - simpl in Hnf. contradiction.
Qed.

Lemma run_pose (es : list Event) :
  Forall (fun e => ~ isFrame e) es ->
  forall (w w' : World) (camera : Camera) (look : Vec3),
    cameraRef (scene w) = Some camera ->
    currentLookAt (cameraAnimRef (scene w)) = Some look ->
    run es w = Some w' ->
    cameraRef (scene w') = Some camera
    /\ (cameraAnimRef (scene w') = cameraAnimRef (scene w)
        \/ startsFrom (position camera) look (cameraAnimRef (scene w'))).
Proof.
  induction 1 as [|e es He _ IH]; intros w w' camera look Hc Hl; simpl.
  - intros [= <-]. auto.
  - unfold step.
    destruct (handle e w) as [w1|] eqn:Eh; cbn [bind]; [|discriminate].
    destruct (settle w1) as [w2|] eqn:Es; cbn [bind]; [|discriminate].
    intros Hr.
    pose proof (handle_scene _ _ He Eh) as Hsc.
    rewrite <- Hsc in Hc, Hl.
    destruct (@settle_pose w1 w2 camera look Hc Hl Es) as (Hc2 & Hl2 & H2).
    destruct (IH w2 w' camera look Hc2 Hl2 Hr) as (Hc3 & H3).
    split; [exact Hc3|].
    destruct H3 as [H3|H3]; [|right; exact H3].
    rewrite H3, <- Hsc. exact H2.
Qed.

(** A frame step, render included, leaves the camera and the recorded
    look-at as the call of [animate] left them. *)
Lemma frame_step_pose (time delta : Q) (w0 w : World) (camera : Camera)
  (look : Vec3) :
  sceneReady (scene w0) = true ->
  step (Frame time delta) w0 = Some w ->
  cameraRef (scene w) = Some camera ->
  currentLookAt (cameraAnimRef (scene w)) = Some look ->
  if active (cameraAnimRef (scene w0))
  then look = lookTarget camera
  else
    currentLookAt (cameraAnimRef (scene w0)) = Some look
    /\ forall sphere,
         truthy (activeSection (appSt w0)) = true ->
         truthy (activeLink (appSt w0)) = false ->
         (0 <= sectionIndexOf (activeSection (appSt w0)))%Z ->
         at_ (spheresRef (scene w0)) (sectionIndexOf (activeSection (appSt w0)))
         = Some sphere ->
         lookTarget camera = sphere_position sphere.
Proof.
  intros Hr. unfold step. cbn [handle].
  destruct (animate time delta w0) as [w1|] eqn:Hanim; cbn [bind];
    [|discriminate].
  intros Hs Hc Hl.
  destruct (active (cameraAnimRef (scene w0))) eqn:Ha.
  - destruct (@animate_flight_lookAt time delta w0 w1 Hr Ha Hanim)
      as (camera1 & Hc1 & Hl1).
    destruct (@settle_pose w1 w camera1 (lookTarget camera1) Hc1 Hl1 Hs)
      as (Hc2 & Hl2 & _).
    congruence.
  - destruct (@animate_parked_lookAt time delta w0 w1 Hr Ha Hanim)
      as (camera1 & Hc1 & Hrec & Hp).
    destruct (currentLookAt (cameraAnimRef (scene w1))) as [look1|] eqn:Hl1.
    + destruct (@settle_pose w1 w camera1 look1 Hc1 Hl1 Hs)
        as (Hc2 & Hl2 & _).
      assert (camera1 = camera) by congruence. subst camera1.
      assert (look1 = look) by congruence. subst look1.
      rewrite <- Hrec, Hl1. auto.
    + exfalso. revert Hs. unfold settle.
      destruct (commit w1) as [w2|] eqn:E1; cbn [bind]; [|discriminate].
      intros E2.
      assert (Hkeep : forall u u' : World,
                 currentLookAt (cameraAnimRef (scene u)) = None ->
                 commit u = Some u' ->
                 currentLookAt (cameraAnimRef (scene u')) = None).
      { intros u u' Hn. unfold commit.
        assert (Hfly : forall u0, flyEffect u = Some u0 ->
                   currentLookAt (cameraAnimRef (scene u0)) = None).
        { unfold flyEffect. intros u0.
          destruct (cameraRef (scene u)) as [c|]; [|intros [= <-]; exact Hn].
          destruct (negb (mountedRef (scene u))); [intros [= <-]; exact Hn|].
          destruct (flyTrigger c (appSt u) (scene u)) as [anim|] eqn:Et;
            cbn [bind]; [|discriminate].
          intros [= <-]. cbn [scene withScene cameraAnimRef setFlight].
          destruct (flyTrigger_cases _ _ _ Et) as [->|N]; [exact Hn|].
          destruct N; cbn [currentLookAt]; exact Hn. }
        destruct (idEqb _ _ && idEqb _ _); cbn [bind].
        - destruct (Phase_eqb _ _ && idEqb _ _); intros [= <-]; exact Hn.
        - destruct (flyEffect u) as [u0|] eqn:E; cbn [bind]; [|discriminate].
          specialize (Hfly u0 eq_refl).
          destruct (Phase_eqb _ _ && idEqb _ _); intros [= <-]; exact Hfly. }
      pose proof (Hkeep w1 w2 Hl1 E1) as H2.
      pose proof (Hkeep w2 w H2 E2) as H3.
      congruence.
Qed.

End Continuity.

(** C3: the pose a new flight starts from.  Take any world with a camera,
    and the renders, input and navigation events that follow before the
    next frame.  Every flight started in between (several may replace one
    another) records the position of the camera as its start position and
    the [currentLookAt] of the animation record as its start look-at, both
    copied exactly.  When the world is the one a frame has left: after a
    frame of a flight in progress the record holds the point the camera
    looks at; after a frame outside a flight it holds what it held before
    the frame, the last look-at of the last flight, while the camera has
    been turned, parked at a section to the planet.  A flight that replaces
    one started after such a frame therefore starts at the position of the
    camera, but not at the point it looks at. *)
Theorem C3_new_flight_starts_at_recorded_look_at :
  forall (rt : Runtime) (w w' : World) (camera : Camera) (look : Vec3)
         (es : list Event),
    cameraRef (scene w) = Some camera ->
    currentLookAt (cameraAnimRef (scene w)) = Some look ->
    Forall (fun e => ~ isFrame e) es ->
    run es w = Some w' ->
    cameraRef (scene w') = Some camera
    /\ (cameraAnimRef (scene w') = cameraAnimRef (scene w)
        \/ startsFrom (position camera) look (cameraAnimRef (scene w')))
    /\ (forall (w0 : World) (time delta : Q),
          sceneReady (scene w0) = true ->
          step (Frame time delta) w0 = Some w ->
          if active (cameraAnimRef (scene w0))
          then look = lookTarget camera
          else
            currentLookAt (cameraAnimRef (scene w0)) = Some look
            /\ forall sphere,
                 truthy (activeSection (appSt w0)) = true ->
                 truthy (activeLink (appSt w0)) = false ->
                 (0 <= sectionIndexOf (activeSection (appSt w0)))%Z ->
                 at_ (spheresRef (scene w0))
                     (sectionIndexOf (activeSection (appSt w0))) = Some sphere ->
                 lookTarget camera = sphere_position sphere).
Proof.
  intros rt w w' camera look es Hc Hl Hes Hrun.
  destruct (@run_pose rt es Hes w w' camera look Hc Hl Hrun) as (Hc' & H).
  split; [exact Hc'|]. split; [exact H|].
  intros w0 time delta Hr Hstep.
  exact (@frame_step_pose rt time delta w0 w camera look Hr Hstep Hc Hl).
Qed.

Lemma C3_witness :
  active (cameraAnimRef (scene arrivedArtWorld)) = false
  /\ phase (cameraAnimRef (scene towardsDevWorld)) = flyToParent
  /\ active (cameraAnimRef (scene towardsDevWorld)) = true
  /\ phase (cameraAnimRef (scene aimedAtGithubWorld)) = flyToSub
  /\ exists (camera : Camera) (look : Vec3),
       cameraRef (scene aimedAtGithubWorld) = Some camera
       /\ startsFrom (position camera) look
            (cameraAnimRef (scene aimedAtGithubWorld))
       /\ vx look == 0
       /\ vx (lookTarget camera) == 17 # 10.
Proof.
  split; [reflexivity|]. split; [reflexivity|]. split; [reflexivity|].
  split; [reflexivity|].
  eassert (Hc : cameraRef (scene parkedArtWorld) = Some _) by reflexivity.
  eassert (Hl : currentLookAt (cameraAnimRef (scene parkedArtWorld)) = Some _)
    by reflexivity.
  destruct (@C3_new_flight_starts_at_recorded_look_at rationalRuntime
              parkedArtWorld aimedAtGithubWorld _ _
              [MouseDown (mkXY 0 0); MouseUp (HitSub 1 1)] Hc Hl)
    as (Hc' & Hflight & Hframe).
  - repeat constructor; intros H; exact H.
  - vm_compute. reflexivity.
  - eexists. eexists. split; [exact Hc'|].
    split.
    + destruct Hflight as [E|H]; [|exact H].
      exfalso. revert E. vm_compute. discriminate.
    + split; [reflexivity|].
      specialize (Hframe arrivedArtWorld 2 1 eq_refl).
      change (active (cameraAnimRef (scene arrivedArtWorld))) with false
        in Hframe.
      destruct Hframe as [_ Hp]; [vm_compute; reflexivity|].
      eassert (Hs : at_ (spheresRef (scene arrivedArtWorld))
                        (sectionIndexOf (activeSection (appSt arrivedArtWorld)))
                    = Some _) by reflexivity.
      rewrite (Hp _ eq_refl eq_refl ltac:(vm_compute; discriminate) Hs).
      reflexivity.
Defined.

(** A flight home that interrupts the flight to art after one of its frames
    starts at the pose of that frame. *)
Example interruption_after_a_frame_of_the_flight :
  phase (cameraAnimRef (scene midFlightWorld)) = flyToParent
  /\ active (cameraAnimRef (scene midFlightWorld)) = true
  /\ phase (cameraAnimRef (scene interruptedWorld)) = flyHome
  /\ exists camera,
       cameraRef (scene midFlightWorld) = Some camera
       /\ cameraRef (scene interruptedWorld) = Some camera
       /\ startsFrom (position camera) (lookTarget camera)
            (cameraAnimRef (scene interruptedWorld)).
Proof. repeat split. eexists. repeat split. Qed.

(** Parked at art, back to home and at once the name of dev in the
    navigation bar: the flight to dev replaces the flight home, which has
    not run a frame, and starts at a look-at the camera has left. *)
Example interruption_before_the_next_frame :
  active (cameraAnimRef (scene homeFromParkedWorld)) = true
  /\ phase (cameraAnimRef (scene homeFromParkedWorld)) = flyHome
  /\ phase (cameraAnimRef (scene backThenDevWorld)) = flyToParent
  /\ exists camera,
       cameraRef (scene backThenDevWorld) = Some camera
       /\ startPos (cameraAnimRef (scene backThenDevWorld)) = position camera
       /\ vx (startLookAt (cameraAnimRef (scene backThenDevWorld))) == 0
       /\ vx (lookTarget camera) == 17 # 10.
Proof. repeat split. eexists. repeat split. Qed.

(** ** Drag or click *)

Lemma Qgtb_false (a b : Q) : Qgtb a b = false <-> a <= b.
Proof.
  unfold Qgtb. rewrite negb_false_iff. apply Qle_bool_iff.
Qed.

Lemma beyond_false (limit : Q) (origin m : XY) :
  beyond limit origin m = false <-> withinAxes limit origin m.
Proof.
  unfold beyond, withinAxes. rewrite orb_false_iff, !Qgtb_false. tauto.
Qed.

Lemma existsb_beyond_false (limit : Q) (origin : XY) (moves : list XY) :
  existsb (beyond limit origin) moves = false
  <-> Forall (withinAxes limit origin) moves.
Proof.
  induction moves as [|m moves IH]; simpl.
  - split; [constructor | reflexivity].
  - rewrite orb_false_iff, beyond_false, IH. split.
    + intros [H1 H2]. constructor; assumption.
    + intros H. inversion H; subst. auto.
Qed.

Lemma existsb_beyond_true (limit : Q) (origin : XY) (moves : list XY) :
  existsb (beyond limit origin) moves = true
  <-> Exists (fun m => ~ withinAxes limit origin m) moves.
Proof.
  induction moves as [|m moves IH]; simpl.
  - split; [discriminate | intros H; inversion H].
  - rewrite orb_true_iff, IH. split.
    + intros [H|H].
      * left. rewrite <- beyond_false, H. discriminate.
      * right. exact H.
    + intros H. inversion H as [? ? Hm|? ? Hm]; subst.
      * left. rewrite <- beyond_false in Hm.
        destruct (beyond limit origin m); [reflexivity | congruence].
      * right. exact Hm.
Qed.

Lemma Qabs_le_of_square (d limit : Q) :
  0 <= limit -> d * d <= limit * limit -> Qabs d <= limit.
Proof.
  intros Hl Hd. apply Qabs_case; intros Hs.
  - destruct (Qlt_le_dec limit d) as [Hgt|Hle]; [|exact Hle].
    assert (H : 0 < (d - limit) * (d + limit))
      by (apply Qmult_lt_0_compat; lra).
    assert (E : (d - limit) * (d + limit) == d * d - limit * limit) by ring.
    rewrite E in H. lra.
  - destruct (Qlt_le_dec limit (- d)) as [Hgt|Hle]; [|exact Hle].
    assert (H : 0 < (- d - limit) * (- d + limit))
      by (apply Qmult_lt_0_compat; lra).
    assert (E : (- d - limit) * (- d + limit) == d * d - limit * limit)
      by ring.
    rewrite E in H. lra.
Qed.

Lemma Qsquare_nonneg (d : Q) : 0 <= d * d.
Proof.
  destruct (Qlt_le_dec d 0) as [Hn|Hp].
  - assert (E : d * d == (- d) * (- d)) by ring. rewrite E.
    apply Qmult_le_0_compat; lra.
  - apply Qmult_le_0_compat; assumption.
Qed.

Lemma withinDistance_axes (limit : Q) (origin m : XY) :
  0 <= limit -> withinDistance limit origin m -> withinAxes limit origin m.
Proof.
  unfold withinDistance, withinAxes. intros Hl Hd.
  split; apply Qabs_le_of_square; try assumption.
  - pose proof (Qsquare_nonneg (y_ m - y_ origin)). lra.
  - pose proof (Qsquare_nonneg (x_ m - x_ origin)). lra.
Qed.

(** While the button is down, the moves only write the pointer refs: the
    drag flag becomes sticky once a move is beyond the threshold. *)
Lemma mouse_moves (origin : XY) (moves : list XY) :
  forall w : World,
    isDraggingRef (pointer w) = true ->
    mouseDownPosRef (pointer w) = origin ->
    let w' := fold_left (fun w' m => onMM m w') moves w in
    hasDraggedRef (pointer w')
    = hasDraggedRef (pointer w) || existsb (beyond 5 origin) moves
    /\ appSt w' = appSt w /\ scene w' = scene w /\ deps w' = deps w.
Proof.
  induction moves as [|m moves IH]; intros w Hd Ho; cbn [fold_left existsb].
  - rewrite orb_false_r. auto.
  - set (w1 := onMM m w).
    assert (H1 : isDraggingRef (pointer w1) = true
                 /\ mouseDownPosRef (pointer w1) = origin
                 /\ hasDraggedRef (pointer w1)
                    = hasDraggedRef (pointer w) || beyond 5 origin m
                 /\ appSt w1 = appSt w /\ scene w1 = scene w
                 /\ deps w1 = deps w).
    { unfold w1, onMM. rewrite Hd. cbn [negb]. simpl. rewrite Ho.
      repeat split; try assumption.
      unfold beyond. destruct (_ || _); [|rewrite orb_false_r; reflexivity].
      rewrite orb_true_r. reflexivity. }
    destruct H1 as (Hd1 & Ho1 & Hh1 & Ha1 & Hs1 & He1).
    destruct (IH w1 Hd1 Ho1) as (Hh & Ha & Hs & He).
    rewrite Hh, Hh1, Ha, Hs, He, orb_assoc. auto.
Qed.

Lemma touch_moves {rt : Runtime} (origin : XY) (moves : list XY) :
  forall w : World,
    isDraggingRef (pointer w) = true ->
    mouseDownPosRef (pointer w) = origin ->
    let w' := fold_left (fun w' m => onTM [m] w') moves w in
    hasDraggedRef (pointer w')
    = hasDraggedRef (pointer w) || existsb (beyond 8 origin) moves
    /\ appSt w' = appSt w /\ scene w' = scene w /\ deps w' = deps w.
Proof.
  induction moves as [|m moves IH]; intros w Hd Ho; cbn [fold_left existsb].
  - rewrite orb_false_r. auto.
  - set (w1 := onTM [m] w).
    assert (H1 : isDraggingRef (pointer w1) = true
                 /\ mouseDownPosRef (pointer w1) = origin
                 /\ hasDraggedRef (pointer w1)
                    = hasDraggedRef (pointer w) || beyond 8 origin m
                 /\ appSt w1 = appSt w /\ scene w1 = scene w
                 /\ deps w1 = deps w).
    { unfold w1, onTM. rewrite Hd. simpl. rewrite Ho.
      repeat split; try assumption.
      unfold beyond. destruct (_ || _); [|rewrite orb_false_r; reflexivity].
      rewrite orb_true_r. reflexivity. }
    destruct H1 as (Hd1 & Ho1 & Hh1 & Ha1 & Hs1 & He1).
    destruct (IH w1 Hd1 Ho1) as (Hh & Ha & Hs & He).
    rewrite Hh, Hh1, Ha, Hs, He, orb_assoc. auto.
Qed.

(** C7, amended: the thresholds are per axis, and the gesture must start
    while no camera animation is active.  For such a mouse gesture the
    release dispatches the hit under the pointer when every move stays
    within 5 px of the press along both axes (in particular when it stays
    within 5 px in a straight line), and dispatches nothing once some move
    is more than 5 px away along one axis; the same holds for a one-finger
    touch with 8 px. *)
Theorem C7_drag_or_click_per_axis :
  forall (rt : Runtime) (w : World) (origin release : XY) (moves : list XY)
         (hit : Hit),
    active (cameraAnimRef (scene w)) = false ->
    let wm := mouseGesture origin moves w in
    let wt := touchGesture origin moves w in
    (Forall (withinAxes 5 origin) moves ->
     onMU hit wm = (w' <- dispatchHit hit wm ;; Some (releasePointer w')))
    /\ (Forall (withinDistance 5 origin) moves ->
        onMU hit wm = (w' <- dispatchHit hit wm ;; Some (releasePointer w')))
    /\ (Exists (fun m => ~ withinAxes 5 origin m) moves ->
        onMU hit wm = Some (releasePointer wm)
        /\ appSt (releasePointer wm) = appSt w)
    /\ (Forall (withinAxes 8 origin) moves ->
        onTE [release] hit wt
        = (w' <- dispatchHit hit wt ;; Some (releaseTouch w')))
    /\ (Forall (withinDistance 8 origin) moves ->
        onTE [release] hit wt
        = (w' <- dispatchHit hit wt ;; Some (releaseTouch w')))
    /\ (Exists (fun m => ~ withinAxes 8 origin m) moves ->
        onTE [release] hit wt = Some (releaseTouch wt)
        /\ appSt (releaseTouch wt) = appSt w).
Proof.
  intros rt w origin release moves hit Ha wm wt.
  assert (Hm : hasDraggedRef (pointer wm) = existsb (beyond 5 origin) moves
               /\ appSt wm = appSt w /\ scene wm = scene w).
  { unfold wm, mouseGesture.
    destruct (@mouse_moves origin moves (onMD origin w)) as (Hh & Hp & Hs & _).
    - unfold onMD. rewrite Ha. reflexivity.
    - unfold onMD. rewrite Ha. reflexivity.
    - rewrite Hh, Hp, Hs. unfold onMD. rewrite Ha. simpl. auto. }
  assert (Ht : hasDraggedRef (pointer wt) = existsb (beyond 8 origin) moves
               /\ appSt wt = appSt w /\ scene wt = scene w).
  { unfold wt, touchGesture.
    destruct (@touch_moves rt origin moves (onTS [origin] w))
      as (Hh & Hp & Hs & _).
    - unfold onTS. rewrite Ha. reflexivity.
    - unfold onTS. rewrite Ha. reflexivity.
    - rewrite Hh, Hp, Hs. unfold onTS. rewrite Ha. simpl. auto. }
  destruct Hm as (Hmh & Hma & Hms). destruct Ht as (Hth & Hta & Hts).
  assert (Hclick_m : existsb (beyond 5 origin) moves = false ->
                     onMU hit wm
                     = (w' <- dispatchHit hit wm ;; Some (releasePointer w'))).
  { intros E. unfold onMU, handleClick. rewrite Hmh, E, Hms, Ha. reflexivity. }
  assert (Hclick_t : existsb (beyond 8 origin) moves = false ->
                     onTE [release] hit wt
                     = (w' <- dispatchHit hit wt ;; Some (releaseTouch w'))).
  { intros E. unfold onTE, handleClick. rewrite Hth, E, Hts, Ha. reflexivity. }
  repeat split.
  - intros H. apply Hclick_m, existsb_beyond_false. exact H.
  - intros H. apply Hclick_m, existsb_beyond_false.
    eapply Forall_impl; [|exact H].
    intros m. apply withinDistance_axes. discriminate.
  - apply existsb_beyond_true in H. unfold onMU. rewrite Hmh, H. reflexivity.
  - exact Hma.
  - intros H. apply Hclick_t, existsb_beyond_false. exact H.
  - intros H. apply Hclick_t, existsb_beyond_false.
    eapply Forall_impl; [|exact H].
    intros m. apply withinDistance_axes. discriminate.
  - apply existsb_beyond_true in H. unfold onTE. rewrite Hth, H. reflexivity.
  - exact Hta.
Qed.

Lemma C7_witness :
  onMU (HitParent 2) (mouseGesture (mkXY 0 0) [mkXY 3 4] mountedWorld)
  = (w' <- dispatchHit (HitParent 2)
             (mouseGesture (mkXY 0 0) [mkXY 3 4] mountedWorld) ;;
     Some (releasePointer w'))
  /\ option_map (fun w' => activeSection (appSt w'))
       (onMU (HitParent 2) (mouseGesture (mkXY 0 0) [mkXY 3 4] mountedWorld))
     = Some (Some "yoga").
Proof.
  split; [|reflexivity].
  apply (proj1 (@C7_drag_or_click_per_axis rationalRuntime mountedWorld
                  (mkXY 0 0) (mkXY 3 4) [mkXY 3 4] (HitParent 2) eq_refl)).
  repeat constructor; vm_compute; discriminate.
Defined.

(** The claim as stated fails twice.  A move to (4, 4) is more than 5 px
    away from the press at (0, 0) in a straight line, yet the release
    enters the section under the pointer.  And a press and release with no
    move at all during the flight home enters nothing. *)
Lemma C7_counterexample :
  (~ withinDistance 5 (mkXY 0 0) (mkXY 4 4)
   /\ option_map (fun w' => activeSection (appSt w'))
        (onMU (HitParent 2) (mouseGesture (mkXY 0 0) [mkXY 4 4] mountedWorld))
      = Some (Some "yoga"))
  /\ (active (cameraAnimRef (scene flyingHomeWorld)) = true
      /\ activeSection (appSt flyingHomeWorld) = None
      /\ option_map (fun w' => activeSection (appSt w'))
           (onMU (HitParent 2) (mouseGesture (mkXY 0 0) [] flyingHomeWorld))
         = Some None).
Proof.
  split; split.
  - vm_compute. intros H. apply H. reflexivity.
  - reflexivity.
  - reflexivity.
  - split; reflexivity.
Qed.

(** ** Zoom *)

Lemma clampZoom_range (z : Q) : 2 <= clampZoom z /\ clampZoom z <= 8.
Proof.
  unfold clampZoom. split.
  - apply Q.le_max_l.
  - apply Q.max_lub; [discriminate | apply Q.le_min_l].
Qed.

Lemma handleClick_pointer (hit : Hit) (w w' : World) :
  handleClick hit w = Some w' -> pointer w' = pointer w.
Proof.
  unfold handleClick, dispatchHit.
  destruct (_ || _); [intros [= <-]; reflexivity|].
  destruct hit as [|idx|sIdx lIdx].
  - intros [= <-]; reflexivity.
  - destruct (negb _); [|intros [= <-]; reflexivity].
    destruct (0 <=? idx)%Z; [|intros [= <-]; reflexivity].
    destruct (nth_error SECTIONS _); cbn [bind]; [|discriminate].
    intros [= <-]; reflexivity.
  - destruct (_ && _); [|intros [= <-]; reflexivity].
    destruct (at_ (subSpheresRef (scene w)) sIdx) as [subs|]; cbn [bind];
      [|discriminate].
    destruct (at_ subs lIdx) as [sub|]; cbn [bind]; [|discriminate].
    destruct (Qgtb _ _); [|intros [= <-]; reflexivity].
    destruct (at_ SECTIONS sIdx) as [s|]; cbn [bind]; [|discriminate].
    destruct (at_ (links s) lIdx); cbn [bind]; [|discriminate].
    intros [= <-]; reflexivity.
Qed.

Section ZoomFacts.
Context {rt : Runtime}.

Lemma animate_zoom (time delta : Q) (w w' : World) :
  animate time delta w = Some w' ->
  targetZoomRef (pointer w') = targetZoomRef (pointer w).
Proof.
  unfold animate.
  destruct (cameraRef (scene w)) as [camera|]; [|intros [= <-]; reflexivity].
  destruct (_ || _); [intros [= <-]; reflexivity|].
  destruct (animateCamera _ _ _ _ _ _ _) as [[[c1 a1] report]|]; cbn [bind];
    [|discriminate].
  destruct (mapiM _ _ _) as [subs|]; cbn [bind]; [|discriminate].
  destruct (screenPositions _ _ _) as [positions|]; cbn [bind];
    [|discriminate].
  intros [= <-]. reflexivity.
Qed.

Lemma handle_zoom (e : Event) (w w' : World) :
  zoomInRange (pointer w) -> handle e w = Some w' -> zoomInRange (pointer w').
Proof.
  intros H. destruct e; simpl; try (intros [= <-]; exact H).
  - intros [= <-]. unfold onMD. destruct (active _); exact H.
  - intros [= <-]. unfold onMM. destruct (negb _); exact H.
  - unfold onMU. destruct (negb _).
    + destruct (handleClick hit w) as [w1|] eqn:E; cbn [bind]; [|discriminate].
      intros [= <-]. unfold zoomInRange. simpl.
      rewrite (handleClick_pointer _ _ E). exact H.
    + cbn [bind]. intros [= <-]. exact H.
  - intros [= <-]. unfold onWH. destruct (_ || _); [exact H|].
    apply clampZoom_range.
  - intros [= <-]. unfold onTS. destruct (active _); [exact H|].
    destruct touches as [|t0 [|t1 [|]]]; exact H.
  - intros [= <-]. unfold onTM.
    destruct touches as [|t0 [|t1 [|]]]; try exact H.
    + destruct (isDraggingRef _); exact H.
    + destruct (pinchStartRef _); [|exact H].
      destruct (negb _); [|exact H]. apply clampZoom_range.
  - unfold onTE. destruct (_ && _).
    + destruct (handleClick hit w) as [w1|] eqn:E; cbn [bind]; [|discriminate].
      intros [= <-]. unfold zoomInRange. simpl.
      rewrite (handleClick_pointer _ _ E). exact H.
    + cbn [bind]. intros [= <-]. exact H.
  - intros Ha. unfold zoomInRange. rewrite (animate_zoom _ _ _ Ha). exact H.
Qed.

Lemma settle_pointer (w w' : World) :
  settle w = Some w' -> pointer w' = pointer w.
Proof.
  unfold settle.
  destruct (commit w) as [w1|] eqn:E1; cbn [bind]; [|discriminate].
  intros E2. apply commit_app in E1, E2.
  destruct E1 as [E1 _], E2 as [E2 _]. congruence.
Qed.

Lemma run_zoom (es : list Event) :
  forall w w' : World,
    zoomInRange (pointer w) -> run es w = Some w' -> zoomInRange (pointer w').
Proof.
  induction es as [|e es IH]; intros w w' H; simpl.
  - intros [= <-]. exact H.
  - unfold step.
    destruct (handle e w) as [w1|] eqn:Eh; cbn [bind]; [|discriminate].
    destruct (settle w1) as [w2|] eqn:Es; cbn [bind]; [|discriminate].
    apply IH. rewrite (settle_pointer _ Es). exact (handle_zoom _ _ H Eh).
Qed.

Lemma mount_pointer (w0 : World) :
  mount initialWorld = Some w0 -> pointer w0 = initialPointer.
Proof.
  unfold mount.
  destruct (flyEffect _) as [w2|] eqn:E; cbn [bind]; [|discriminate].
  apply flyEffect_frame in E. destruct E as (_ & Ep & _).
  intros Hs. rewrite (settle_pointer _ Hs). simpl. rewrite Ep. reflexivity.
Qed.

End ZoomFacts.

(** C8, amended: in every world reached from mounting, whatever the wheel
    and pinch input so far, the zoom target is within [2, 8], and so it is
    after one more wheel or pinch update.  Wheel input is ignored while a
    camera animation is active or a section is active.  Pinch input is
    ignored while a section is active, and no pinch can begin while a camera
    animation is active: the touch start that would record its baseline is
    ignored. *)
Theorem C8_zoom_target_clamped :
  forall (rt : Runtime) (es : list Event) (w0 w : World),
    mount initialWorld = Some w0 ->
    run es w0 = Some w ->
    zoomInRange (pointer w)
    /\ (forall deltaY, zoomInRange (pointer (onWH deltaY w)))
    /\ (forall touches, zoomInRange (pointer (onTM touches w)))
    /\ (forall deltaY,
          active (cameraAnimRef (scene w)) = true
          \/ truthy (activeSection (appSt w)) = true ->
          onWH deltaY w = w)
    /\ (forall touches,
          truthy (activeSection (appSt w)) = true ->
          targetZoomRef (pointer (onTM touches w)) = targetZoomRef (pointer w))
    /\ (forall touches,
          active (cameraAnimRef (scene w)) = true -> onTS touches w = w).
Proof.
  intros rt es w0 w Hm Hr.
  assert (Hz : zoomInRange (pointer w)).
  { apply (@run_zoom rt es w0 w); [|exact Hr].
    rewrite (mount_pointer Hm). split; discriminate. }
  split; [exact Hz|]. split; [|split; [|split; [|split]]].
  - intros d. apply (@handle_zoom rt (Wheel d) w); [exact Hz | reflexivity].
  - intros ts. apply (@handle_zoom rt (TouchMove ts) w); [exact Hz | reflexivity].
  - intros d H. unfold onWH.
    destruct H as [H|H]; rewrite H; [reflexivity|].
    rewrite orb_true_r. reflexivity.
  - intros ts H. unfold onTM. rewrite H. cbn [negb].
    destruct ts as [|t0 [|t1 [|]]]; try reflexivity.
    + destruct (isDraggingRef _); reflexivity.
    + destruct (pinchStartRef _); reflexivity.
  - intros ts H. unfold onTS. rewrite H. reflexivity.
Qed.

Lemma C8_witness :
  targetZoomRef (pointer zoomedOutWorld) == 8
  /\ zoomInRange (pointer zoomedOutWorld).
Proof.
  split; [reflexivity|].
  apply (proj1 (@C8_zoom_target_clamped rationalRuntime [Wheel 2000]
                  mountedWorld zoomedOutWorld
                  ltac:(vm_compute; reflexivity)
                  ltac:(vm_compute; reflexivity))).
Defined.

(** The claim as stated fails: a pinch that began before the flight home
    moves the zoom target while that flight is active. *)
Lemma C8_counterexample :
  active (cameraAnimRef (scene pinchingHomeWorld)) = true
  /\ phase (cameraAnimRef (scene pinchingHomeWorld)) = flyHome
  /\ targetZoomRef (pointer pinchingHomeWorld) == 45 # 10
  /\ targetZoomRef
       (pointer (@onTM rationalRuntime [mkXY 0 0; mkXY 30 40] pinchingHomeWorld))
     == 5.
Proof. repeat split. Qed.

(** ** Nothing throws *)

Lemma at_some {A : Type} (xs : list A) (i : Z) :
  (0 <= i < Z.of_nat (List.length xs))%Z -> exists x, at_ xs i = Some x.
Proof.
  intros H. unfold at_.
  destruct (i <? 0)%Z eqn:E; [apply Z.ltb_lt in E; lia|].
  destruct (nth_error xs (Z.to_nat i)) as [x|] eqn:En; [exists x; reflexivity|].
  apply nth_error_None in En. lia.
Qed.

Lemma at_bound {A : Type} (xs : list A) (i : Z) (x : A) :
  at_ xs i = Some x -> (0 <= i < Z.of_nat (List.length xs))%Z.
Proof.
  unfold at_. destruct (i <? 0)%Z eqn:E; [discriminate|].
  apply Z.ltb_ge in E. intros H.
  assert (Hn : nth_error xs (Z.to_nat i) <> None) by congruence.
  apply nth_error_Some in Hn. lia.
Qed.

Lemma findIndexFrom_bound {A : Type} (p : A -> bool) (xs : list A) :
  forall i : Z,
    findIndexFrom p xs i = (-1)%Z
    \/ (i <= findIndexFrom p xs i < i + Z.of_nat (List.length xs))%Z.
Proof.
  induction xs as [|x xs IH]; intros i; simpl findIndexFrom.
  - left. reflexivity.
  - destruct (p x).
    + right. simpl List.length. lia.
    + destruct (IH (i + 1)%Z) as [H|H]; [left; exact H|].
      right. simpl List.length. lia.
Qed.

Lemma findIndex_bound {A : Type} (p : A -> bool) (xs : list A) :
  (findIndex p xs < Z.of_nat (List.length xs))%Z.
Proof.
  unfold findIndex. destruct (findIndexFrom_bound p xs 0) as [H|H]; lia.
Qed.

Lemma sectionIndexOf_bound (id : Id) :
  (sectionIndexOf id < Z.of_nat (List.length SECTIONS))%Z.
Proof. apply findIndex_bound. Qed.

Lemma linkIndexOf_some (sIdx : Z) (id : Id) :
  (0 <= linkIndexOf sIdx id)%Z ->
  exists sec lk,
    at_ SECTIONS sIdx = Some sec
    /\ at_ (links sec) (linkIndexOf sIdx id) = Some lk.
Proof.
  unfold linkIndexOf. destruct (0 <=? sIdx)%Z; [|lia].
  destruct (at_ SECTIONS sIdx) as [sec|]; [|lia].
  intros H. exists sec.
  destruct (@at_some _ (links sec)
              (findIndex (fun l => idIs id (link_id l)) (links sec)))
    as [lk Hlk].
  - split; [exact H | apply findIndex_bound].
  - exists lk. auto.
Qed.

Lemma mapi_length {A B : Type} (f : nat -> A -> B) (xs : list A) :
  forall i, List.length (mapi f i xs) = List.length xs.
Proof.
  induction xs as [|x xs IH]; intros i; simpl; [reflexivity|].
  rewrite IH. reflexivity.
Qed.

(** [mapiM] succeeds when the function does at every position, and relates
    the elements position by position. *)
Lemma mapiM_total {A B : Type} (f : nat -> A -> option B) (R : A -> B -> Prop)
  (xs : list A) :
  forall i,
    (forall j x, nth_error xs j = Some x ->
                 exists y, f (i + j)%nat x = Some y /\ R x y) ->
    exists ys, mapiM f i xs = Some ys /\ Forall2 R xs ys.
Proof.
  induction xs as [|x xs IH]; intros i H; simpl.
  - exists []. split; [reflexivity | constructor].
  - destruct (H 0%nat x eq_refl) as (y & Hy & Hr).
    rewrite Nat.add_0_r in Hy. rewrite Hy. cbn [bind].
    destruct (IH (S i)) as (ys & Hys & Hf).
    { intros j x' Hj. destruct (H (S j) x' Hj) as (y' & Hy' & Hr').
      exists y'. split; [|exact Hr'].
      rewrite <- Hy'. f_equal. lia. }
    rewrite Hys. cbn [bind]. exists (y :: ys).
    split; [reflexivity | constructor; assumption].
Qed.

Lemma Forall2_length_trans {A B C : Type} (xs : list (list A))
  (ys : list (list B)) (zs : list C) (len : C -> nat) :
  Forall2 (fun x y => List.length y = List.length x) xs ys ->
  Forall2 (fun x z => List.length x = len z) xs zs ->
  Forall2 (fun y z => List.length y = len z) ys zs.
Proof.
  intros H. revert zs. induction H as [|x y xs ys Hxy _ IH]; intros zs Hz.
  - inversion Hz. constructor.
  - inversion Hz as [|? z ? zs' Hxz Hrest]; subst.
    constructor; [congruence | apply IH; exact Hrest].
Qed.

Lemma Forall2_nth {A B : Type} (R : A -> B -> Prop) (xs : list A)
  (ys : list B) :
  Forall2 R xs ys ->
  forall i y, nth_error ys i = Some y ->
              exists x, nth_error xs i = Some x /\ R x y.
Proof.
  induction 1 as [|x y xs ys Hr _ IH]; intros i y' Hi.
  - destruct i; discriminate.
  - destruct i as [|i]; simpl in Hi.
    + injection Hi as <-. exists x. auto.
    + apply IH. exact Hi.
Qed.

Lemma Forall2_nth_l {A B : Type} (R : A -> B -> Prop) (xs : list A)
  (ys : list B) :
  Forall2 R xs ys ->
  forall i x, nth_error xs i = Some x ->
              exists y, nth_error ys i = Some y /\ R x y.
Proof.
  induction 1 as [|x y xs ys Hr _ IH]; intros i x' Hi.
  - destruct i; discriminate.
  - destruct i as [|i]; simpl in Hi.
    + injection Hi as <-. exists y. auto.
    + apply IH. exact Hi.
Qed.

(** The moons of an existing section, and the moon of an existing link. *)
Lemma shape_subs (subSpheres : list (list SubSphere)) (sIdx lIdx : Z)
  (sec : SectionData) (lk : Link) :
  Forall2 (fun subs sec => List.length subs = List.length (links sec))
          subSpheres SECTIONS ->
  at_ SECTIONS sIdx = Some sec ->
  at_ (links sec) lIdx = Some lk ->
  exists subs sub, at_ subSpheres sIdx = Some subs /\ at_ subs lIdx = Some sub.
Proof.
  intros Hshape Hs Hl.
  pose proof (at_bound _ _ Hs) as Hbs. pose proof (at_bound _ _ Hl) as Hbl.
  unfold at_ in Hs. destruct (sIdx <? 0)%Z eqn:E; [discriminate|].
  destruct (Forall2_nth Hshape _ Hs) as (subs & Hsubs & Hlen).
  exists subs.
  destruct (@at_some _ subs lIdx) as [sub Hsub]; [rewrite Hlen; exact Hbl|].
  exists sub. split; [|exact Hsub].
  unfold at_. rewrite E. exact Hsubs.
Qed.

Lemma shape_subs_section (subSpheres : list (list SubSphere)) (sIdx : Z) :
  Forall2 (fun subs sec => List.length subs = List.length (links sec))
          subSpheres SECTIONS ->
  (0 <= sIdx < Z.of_nat (List.length SECTIONS))%Z ->
  exists subs, at_ subSpheres sIdx = Some subs.
Proof.
  intros Hshape H. apply at_some.
  rewrite (Forall2_length Hshape). exact H.
Qed.

Section Totality.
Context {rt : Runtime}.

Lemma flyTrigger_total (camera : Camera) (a : App) (s : Scene) :
  (exists look, currentLookAt (cameraAnimRef s) = Some look) ->
  targetsOK (cameraAnimRef s) ->
  exists anim,
    flyTrigger camera a s = Some anim
    /\ currentLookAt anim = currentLookAt (cameraAnimRef s)
    /\ targetsOK anim.
Proof.
  intros [look Hl] Ht. unfold flyTrigger. rewrite Hl.
  destruct (truthy (activeLink a) && truthy (activeSection a)).
  - destruct (0 <=? sectionIndexOf (activeSection a))%Z eqn:Es;
      [|eexists; cbn [andb]; repeat split; [exact Hl | apply Ht | apply Ht]].
    destruct (0 <=? linkIndexOf _ _)%Z eqn:El;
      [|eexists; cbn [andb]; repeat split; [exact Hl | apply Ht | apply Ht]].
    cbn [andb bind]. eexists. split; [reflexivity|]. split; [reflexivity|].
    split; cbn [targetSectionIndex targetLinkIndex].
    + apply sectionIndexOf_bound.
    + intros _ H. apply linkIndexOf_some. exact H.
  - destruct (truthy (activeSection a) && negb (truthy (activeLink a))).
    + eexists. split; [reflexivity|]. split; [reflexivity|].
      split; cbn [targetSectionIndex targetLinkIndex].
      * apply sectionIndexOf_bound.
      * intros _ H. lia.
    + destruct (_ && _).
      * eexists. split; [reflexivity|]. split; [reflexivity|].
        split; cbn [targetSectionIndex targetLinkIndex]; [simpl; lia|].
        intros H. lia.
      * eexists. repeat split; [exact Hl | apply Ht | apply Ht].
Qed.

Lemma flyEffect_total (w : World) :
  sceneOK (scene w) ->
  exists w', flyEffect w = Some w' /\ sceneOK (scene w').
Proof.
  intros (Hc & Hsp & Hsub & Hl & Ht). unfold flyEffect.
  destruct Hc as [camera Hc]. rewrite Hc.
  destruct (negb (mountedRef (scene w))).
  - eexists. split; [reflexivity|]. simpl.
    repeat split; eauto; apply Ht.
  - destruct (@flyTrigger_total camera (appSt w) (scene w) Hl Ht)
      as (anim & Ha & Hl' & Ht').
    rewrite Ha. cbn [bind]. eexists. split; [reflexivity|]. simpl.
    split; [eauto|]. split; [exact Hsp|]. split; [exact Hsub|].
    split; [|exact Ht'].
    destruct Hl as [look Hl]. exists look.
    change (currentLookAt anim = Some look). congruence.
Qed.

Lemma commit_total (w : World) :
  sceneOK (scene w) ->
  exists w', commit w = Some w' /\ sceneOK (scene w').
Proof.
  intros H. unfold commit.
  destruct (idEqb _ _ && idEqb _ _); cbn [bind].
  - destruct (Phase_eqb _ _ && idEqb _ _); eexists; split;
      try reflexivity; exact H.
  - destruct (@flyEffect_total w H) as (w1 & E & H1). rewrite E. cbn [bind].
    destruct (Phase_eqb _ _ && idEqb _ _); eexists; split;
      try reflexivity; exact H1.
Qed.

Lemma settle_total (w : World) :
  sceneOK (scene w) ->
  exists w', settle w = Some w' /\ sceneOK (scene w').
Proof.
  intros H. unfold settle.
  destruct (@commit_total w H) as (w1 & E1 & H1). rewrite E1. cbn [bind].
  apply commit_total. exact H1.
Qed.

Lemma animateCamera_total (time delta : Q) (a : App) (s : Scene)
  (camera : Camera) (rotation : XY) (zoom : Q) :
  sceneOK s ->
  exists camera1 anim report,
    animateCamera time delta a s camera rotation zoom
    = Some (camera1, anim, report)
    /\ (exists look, currentLookAt anim = Some look)
    /\ targetSectionIndex anim = targetSectionIndex (cameraAnimRef s)
    /\ targetLinkIndex anim = targetLinkIndex (cameraAnimRef s).
Proof.
  intros (_ & Hsp & Hsub & Hl & Ht1 & Ht2). unfold animateCamera.
  destruct (active (cameraAnimRef s)).
  - destruct (Phase_eqb _ _ && (0 <=? targetSectionIndex (cameraAnimRef s))%Z)
      eqn:Ep.
    + apply andb_true_iff in Ep. destruct Ep as [_ Ep]. apply Z.leb_le in Ep.
      destruct (@at_some _ (spheresRef s) (targetSectionIndex (cameraAnimRef s)))
        as [sphere Hs]; [rewrite Hsp; lia|].
      rewrite Hs. cbn [bind]. do 3 eexists. split; [reflexivity|].
      simpl. eauto.
    + destruct (_ && _ && _) eqn:Eq.
      * apply andb_true_iff in Eq. destruct Eq as [Eq El].
        apply andb_true_iff in Eq. destruct Eq as [_ Es].
        apply Z.leb_le in Es, El.
        destruct (Ht2 Es El) as (sec & lk & Hsec & Hlk).
        destruct (shape_subs _ _ Hsub Hsec Hlk) as (subs & sub & H1 & H2).
        rewrite H1. cbn [bind]. rewrite H2. cbn [bind].
        do 3 eexists. split; [reflexivity|]. simpl. eauto.
      * do 3 eexists. split; [reflexivity|]. simpl. eauto.
  - destruct (negb (truthy (activeSection a))).
    + do 3 eexists. split; [reflexivity|]. auto.
    + destruct (truthy (activeSection a) && negb (truthy (activeLink a))).
      * destruct (0 <=? sectionIndexOf (activeSection a))%Z eqn:Ei.
        -- apply Z.leb_le in Ei.
           destruct (@at_some _ (spheresRef s) (sectionIndexOf (activeSection a)))
             as [sphere Hs].
           { rewrite Hsp. split; [exact Ei | apply sectionIndexOf_bound]. }
           rewrite Hs. cbn [bind]. do 3 eexists. split; [reflexivity|]. auto.
        -- cbn [bind]. do 3 eexists. split; [reflexivity|]. auto.
      * destruct (truthy (activeLink a)).
        -- destruct ((0 <=? sectionIndexOf (activeSection a))%Z
                     && (0 <=? linkIndexOf _ _)%Z) eqn:Ei.
           ++ apply andb_true_iff in Ei. destruct Ei as [_ El].
              apply Z.leb_le in El.
              destruct (linkIndexOf_some _ _ El) as (sec & lk & Hsec & Hlk).
              destruct (shape_subs _ _ Hsub Hsec Hlk) as (subs & sub & H1 & H2).
              rewrite H1. cbn [bind]. rewrite H2. cbn [bind].
              do 3 eexists. split; [reflexivity|]. auto.
           ++ cbn [bind]. do 3 eexists. split; [reflexivity|]. auto.
        -- do 3 eexists. split; [reflexivity|]. auto.
Qed.

Lemma updateSubs_total (time : Q) (a : App) (spheres : list Sphere)
  (sIdx : nat) (subs : list SubSphere) (sec : SectionData) :
  nth_error SECTIONS sIdx = Some sec ->
  List.length subs = List.length (links sec) ->
  exists subs',
    updateSubs time a spheres sIdx subs = Some subs'
    /\ List.length subs' = List.length subs.
Proof.
  intros Hsec Hlen. unfold updateSubs. rewrite Hsec.
  destruct (nth_error spheres sIdx) as [parent|]; [|exists subs; auto].
  destruct (@mapiM_total _ _ (updateSub time a parent sec sIdx)
              (fun _ _ => True) subs 0%nat) as (subs' & H & Hf).
  - intros j sub Hj. cbn [Nat.add]. unfold updateSub.
    assert (Hlt : (j < List.length (links sec))%nat).
    { rewrite <- Hlen. apply nth_error_Some. congruence. }
    destruct (nth_error (links sec) j) as [lk|] eqn:El.
    + destruct (idIs (activeSection a) (section_id sec)); cbn [bind];
        eexists; split; try reflexivity; exact I.
    + apply nth_error_None in El. lia.
  - exists subs'. split; [exact H|].
    symmetry. exact (Forall2_length Hf).
Qed.

Lemma animate_total (time delta : Q) (w : World) :
  sceneOK (scene w) ->
  exists w', animate time delta w = Some w' /\ sceneOK (scene w').
Proof.
  intros Hok. pose proof Hok as (Hc & Hsp & Hsub & Hl & Ht).
  unfold animate. destruct Hc as [camera Hc]. rewrite Hc.
  destruct (_ || _); [exists w; auto|].
  set (rotation := mkXY _ _). set (zoom := zoomRef (scene w) + _).
  destruct (@animateCamera_total time delta (appSt w) (scene w) camera
              rotation zoom Hok)
    as (camera1 & anim & report & Ea & Hl1 & Hs1 & Hk1).
  rewrite Ea. cbn [bind].
  set (spheres := mapi _ 0%nat (spheresRef (scene w))).
  destruct (@mapiM_total _ _ (updateSubs time (appSt w) spheres)
              (fun subs subs' => List.length subs' = List.length subs)
              (subSpheresRef (scene w)) 0%nat) as (subSpheres & Em & Hf).
  { intros j subs Hj. cbn [Nat.add].
    destruct (Forall2_nth_l Hsub _ Hj) as (sec & Hsec & Hlen).
    apply updateSubs_total with (sec := sec); assumption. }
  rewrite Em. cbn [bind].
  pose proof (@Forall2_length_trans _ _ _ _ _ _ _ Hf Hsub) as Hsub'.
  assert (Hpos : exists positions,
             screenPositions (appSt w) camera1 subSpheres = Some positions).
  { unfold screenPositions.
    destruct (truthy (activeSection (appSt w))
              && negb (truthy (activeLink (appSt w))));
      [|eexists; reflexivity].
    destruct (0 <=? sectionIndexOf (activeSection (appSt w)))%Z eqn:Ei;
      [|eexists; reflexivity].
    apply Z.leb_le in Ei.
    destruct (@shape_subs_section subSpheres
                (sectionIndexOf (activeSection (appSt w))) Hsub'
                (conj Ei (sectionIndexOf_bound _)))
      as [subs Hsubs].
    rewrite Hsubs. cbn [bind]. eexists. reflexivity. }
  destruct Hpos as [positions Ep]. rewrite Ep. cbn [bind].
  eexists. split; [reflexivity|].
  unfold sceneOK. cbn [scene cameraRef spheresRef subSpheresRef cameraAnimRef].
  split; [eexists; reflexivity|].
  split; [unfold spheres; rewrite mapi_length; exact Hsp|].
  split; [exact Hsub'|]. split; [exact Hl1|].
  unfold targetsOK. rewrite Hs1, Hk1. exact Ht.
Qed.

Lemma dispatchHit_total (hit : Hit) (w : World) :
  hitInRange hit -> sceneOK (scene w) ->
  exists w', dispatchHit hit w = Some w' /\ scene w' = scene w.
Proof.
  intros Hh (_ & _ & Hsub & _). unfold dispatchHit.
  destruct hit as [|idx|sIdx lIdx].
  - eauto.
  - destruct (negb _); [|eauto].
    destruct (0 <=? idx)%Z eqn:E; [|eauto]. apply Z.leb_le in E.
    simpl in Hh.
    destruct (nth_error SECTIONS (Z.to_nat idx)) as [s|] eqn:En.
    + cbn [bind]. eauto.
    + apply nth_error_None in En.
      change (List.length SECTIONS) with 5%nat in En. lia.
  - destruct (_ && _); [|eauto].
    destruct Hh as (sec & lk & Hsec & Hlk).
    destruct (shape_subs _ _ Hsub Hsec Hlk) as (subs & sub & H1 & H2).
    rewrite H1. cbn [bind]. rewrite H2. cbn [bind].
    destruct (Qgtb _ _); [|eauto].
    rewrite Hsec. cbn [bind]. rewrite Hlk. cbn [bind]. eauto.
Qed.

Lemma handleClick_total (hit : Hit) (w : World) :
  hitInRange hit -> sceneOK (scene w) ->
  exists w', handleClick hit w = Some w' /\ scene w' = scene w.
Proof.
  intros Hh Hok. unfold handleClick. destruct (_ || _); [eauto|].
  apply dispatchHit_total; assumption.
Qed.

Lemma handle_total (e : Event) (w : World) :
  hitOK e -> sceneOK (scene w) ->
  exists w', handle e w = Some w' /\ sceneOK (scene w').
Proof.
  intros He Hok.
  destruct e; simpl; try (eexists; split; [reflexivity | exact Hok]).
  - eexists. split; [reflexivity|]. unfold onMD. destruct (active _); exact Hok.
  - eexists. split; [reflexivity|]. unfold onMM. destruct (negb _); exact Hok.
  - unfold onMU. destruct (negb _).
    + destruct (@handleClick_total hit w He Hok) as (w1 & E & Hs).
      rewrite E. cbn [bind]. eexists. split; [reflexivity|].
      simpl. rewrite Hs. exact Hok.
    + cbn [bind]. eexists. split; [reflexivity | exact Hok].
  - eexists. split; [reflexivity|]. unfold onWH. destruct (_ || _); exact Hok.
  - eexists. split; [reflexivity|]. unfold onTS.
    destruct (active _); [exact Hok|].
    destruct touches as [|t0 [|t1 [|]]]; exact Hok.
  - eexists. split; [reflexivity|]. unfold onTM.
    destruct touches as [|t0 [|t1 [|]]]; try exact Hok.
    + destruct (isDraggingRef _); exact Hok.
    + destruct (pinchStartRef _); [|exact Hok]. destruct (negb _); exact Hok.
  - unfold onTE. destruct (_ && _).
    + destruct (@handleClick_total hit w He Hok) as (w1 & E & Hs).
      rewrite E. cbn [bind]. eexists. split; [reflexivity|].
      simpl. rewrite Hs. exact Hok.
    + cbn [bind]. eexists. split; [reflexivity | exact Hok].
  - apply animate_total. exact Hok.
Qed.

Lemma step_total (e : Event) (w : World) :
  hitOK e -> sceneOK (scene w) ->
  exists w', step e w = Some w' /\ sceneOK (scene w').
Proof.
  intros He Hok. unfold step.
  destruct (@handle_total e w He Hok) as (w1 & E & H1). rewrite E. cbn [bind].
  apply settle_total. exact H1.
Qed.

Lemma run_total (es : list Event) :
  Forall hitOK es ->
  forall w, sceneOK (scene w) ->
            exists w', run es w = Some w' /\ sceneOK (scene w').
Proof.
  induction 1 as [|e es He _ IH]; intros w Hok; simpl.
  - eauto.
  - destruct (@step_total e w He Hok) as (w1 & E & H1). rewrite E. cbn [bind].
    apply IH. exact H1.
Qed.

Lemma initEffect_ok (s : Scene) :
  (exists look, currentLookAt (cameraAnimRef s) = Some look) ->
  targetsOK (cameraAnimRef s) ->
  sceneOK (initEffect s).
Proof.
  intros Hl Ht. unfold sceneOK, initEffect. simpl.
  split; [eauto|]. split; [reflexivity|]. split; [|auto].
  repeat constructor.
Qed.

Lemma mount_total :
  exists w0, mount initialWorld = Some w0 /\ sceneOK (scene w0).
Proof.
  unfold mount.
  assert (H0 : sceneOK (scene (withScene initialWorld
                                         (initEffect (scene initialWorld))))).
  { apply initEffect_ok; simpl.
    - eauto.
    - split; simpl; [lia|]. intros H. lia. }
  destruct (@flyEffect_total _ H0) as (w2 & E & H2). rewrite E. cbn [bind].
  apply settle_total. exact H2.
Qed.

End Totality.

(** ** Unknown ids *)

Section UnknownIds.
Context {rt : Runtime}.

Lemma mount_settled (w0 : World) : mount initialWorld = Some w0 -> settled w0.
Proof.
  unfold mount.
  destruct (flyEffect _) as [w2|]; cbn [bind]; [|discriminate].
  intros H. apply settle_result in H. tauto.
Qed.

Lemma run_settled (es : list Event) :
  forall w w', settled w -> run es w = Some w' -> settled w'.
Proof.
  induction es as [|e es IH]; intros w w' Hs; simpl.
  - intros [= <-]. exact Hs.
  - destruct (step e w) as [w1|] eqn:E; cbn [bind]; [|discriminate].
    apply IH. exact (step_settled _ _ E).
Qed.




End UnknownIds.





(** ** The queue is consumed on the last reported phase *)

(** The ids of [SECTIONS] are not empty. *)
Lemma ownsb_truthy (s l : string) :
  ownsb s l = true -> truthy (Some s) = true /\ truthy (Some l) = true.
Proof.
  unfold ownsb. intros H. apply existsb_exists in H.
  destruct H as (sec & Hin & H). apply andb_true_iff in H.
  destruct H as [Hs Hl]. apply String.eqb_eq in Hs.
  apply existsb_exists in Hl. destruct Hl as (lk & Hlk & Hl).
  apply String.eqb_eq in Hl. subst s l.
  cbn [SECTIONS In] in Hin.
  repeat (destruct Hin as [<-|Hin];
          [cbn [links In] in Hlk;
           repeat (destruct Hlk as [<-|Hlk]; [split; reflexivity|]);
           contradiction|]).
  contradiction.
Qed.

(** A moon click queues a link only on its way to another section, or while
    the last reported phase is the flight to the parent. *)
Lemma handleClickSubSphere_queues (s l l' : string) (a : App) :
  pendingLinkRef (handleClickSubSphere s l a) = Some l' ->
  pendingLinkRef a = Some l'
  \/ idEqb (activeSection a) (activeSection (handleClickSubSphere s l a)) = false
  \/ cameraPhase (handleClickSubSphere s l a) = flyToParent.
Proof.
  unfold handleClickSubSphere.
  destruct (idIs (activeSection a) s) eqn:E; simpl.
  - destruct (Phase_eqb (cameraPhase a) flyToParent) eqn:Ep; simpl.
    + intros _. right. right. apply Phase_eqb_true. exact Ep.
    + auto.
  - intros _. right. left.
    destruct (idEqb (activeSection a) (Some s)) eqn:E'; [|reflexivity].
    apply idEqb_true in E'. rewrite E', idIs_refl in E. discriminate.
Qed.

Lemma handleClickSection_queues (id l' : string) (a : App) :
  pendingLinkRef (handleClickSection id a) = Some l' ->
  pendingLinkRef a = Some l'.
Proof.
  destruct (handleClickSection_cases id a) as [(E & _)|E]; rewrite E.
  - auto.
  - discriminate.
Qed.

Lemma queuedBy_refl (a : App) : queuedBy a a.
Proof. intros l H. auto. Qed.

Lemma handleClick_queues (hit : Hit) (w w' : World) :
  handleClick hit w = Some w' ->
  queuedBy (appSt w) (appSt w') /\ deps w' = deps w
  /\ cameraPhase (appSt w') = cameraPhase (appSt w).
Proof.
  unfold handleClick, dispatchHit.
  destruct (_ || _); [intros [= <-]; split; [apply queuedBy_refl|auto]|].
  destruct hit as [|idx|sIdx lIdx].
  - intros [= <-]; split; [apply queuedBy_refl|auto].
  - destruct (negb _); [|intros [= <-]; split; [apply queuedBy_refl|auto]].
    destruct (0 <=? idx)%Z; [|intros [= <-]; split; [apply queuedBy_refl|auto]].
    destruct (nth_error SECTIONS _) as [s|]; simpl; [|discriminate].
    intros [= <-]. simpl. split.
    + intros l Hl. left. exact (@handleClickSection_queues _ _ _ Hl).
    + split; [reflexivity|].
      destruct (handleClickSection_cases (section_id s) (appSt w))
        as [(E & _)|E]; rewrite E; reflexivity.
  - destruct (_ && _); [|intros [= <-]; split; [apply queuedBy_refl|auto]].
    destruct (at_ (subSpheresRef (scene w)) sIdx) as [subs|]; simpl;
      [|discriminate].
    destruct (at_ subs lIdx) as [sub|]; simpl; [|discriminate].
    destruct (Qgtb _ _); [|intros [= <-]; split; [apply queuedBy_refl|auto]].
    destruct (at_ SECTIONS sIdx) as [s|] eqn:Es; simpl; [|discriminate].
    destruct (at_ (links s) lIdx) as [l|] eqn:El; simpl; [|discriminate].
    intros [= <-]. simpl. split.
    + intros l' Hl. exact (@handleClickSubSphere_queues _ _ _ _ Hl).
    + split; [reflexivity|].
      unfold handleClickSubSphere.
      destruct (idIs _ _); simpl; [destruct (Phase_eqb _ _)|]; reflexivity.
Qed.

Section Consumed.
Context {rt : Runtime}.

(** Handlers leave the dependency cells of the effects alone. *)
Lemma handle_deps (e : Event) (w w' : World) :
  handle e w = Some w' -> deps w' = deps w.
Proof.
  destruct e; simpl; try (intros [= <-]; reflexivity).
  - intros [= <-]. unfold onMD. destruct (active _); reflexivity.
  - intros [= <-]. unfold onMM. destruct (negb _); reflexivity.
  - unfold onMU. destruct (negb _).
    + destruct (handleClick hit w) as [w1|] eqn:E; cbn [bind]; [|discriminate].
      intros [= <-]. simpl. apply handleClick_queues in E. tauto.
    + cbn [bind]. intros [= <-]. reflexivity.
  - intros [= <-]. unfold onWH. destruct (_ || _); reflexivity.
  - intros [= <-]. unfold onTS. destruct (active _); [reflexivity|].
    destruct touches as [|t0 [|t1 [|]]]; reflexivity.
  - intros [= <-]. unfold onTM.
    destruct touches as [|t0 [|t1 [|]]]; try reflexivity.
    + destruct (isDraggingRef _); reflexivity.
    + destruct (pinchStartRef _); [|reflexivity]. destruct (negb _); reflexivity.
  - unfold onTE. destruct (_ && _).
    + destruct (handleClick hit w) as [w1|] eqn:E; cbn [bind]; [|discriminate].
      intros [= <-]. simpl. apply handleClick_queues in E. tauto.
    + cbn [bind]. intros [= <-]. reflexivity.
  - unfold animate.
    destruct (cameraRef (scene w)) as [camera|]; [|intros [= <-]; reflexivity].
    destruct (_ || _); [intros [= <-]; reflexivity|].
    destruct (animateCamera _ _ _ _ _ _ _) as [[[c1 a1] report]|]; cbn [bind];
      [|discriminate].
    destruct (mapiM _ _ _) as [subs|]; cbn [bind]; [|discriminate].
    destruct (screenPositions _ _ _) as [positions|]; cbn [bind];
      [|discriminate].
    intros [= <-]. reflexivity.
Qed.

(** Only a frame writes the phase cell. *)
Lemma handle_phase (e : Event) (w w' : World) :
  ~ isFrame e -> handle e w = Some w' ->
  cameraPhase (appSt w') = cameraPhase (appSt w).
Proof.
  intros Hnf. destruct e; simpl; try (intros [= <-]; reflexivity).
  - intros [= <-]. unfold onMD. destruct (active _); reflexivity.
  - intros [= <-]. unfold onMM. destruct (negb _); reflexivity.
  - unfold onMU. destruct (negb _).
    + destruct (handleClick hit w) as [w1|] eqn:E; cbn [bind]; [|discriminate].
      intros [= <-]. simpl. apply handleClick_queues in E. tauto.
    + cbn [bind]. intros [= <-]. reflexivity.
  - intros [= <-]. unfold onWH. destruct (_ || _); reflexivity.
  - intros [= <-]. unfold onTS. destruct (active _); [reflexivity|].
    destruct touches as [|t0 [|t1 [|]]]; reflexivity.
  - intros [= <-]. unfold onTM.
    destruct touches as [|t0 [|t1 [|]]]; try reflexivity.
    + destruct (isDraggingRef _); reflexivity.
    + destruct (pinchStartRef _); [|reflexivity]. destruct (negb _); reflexivity.
  - unfold onTE. destruct (_ && _).
    + destruct (handleClick hit w) as [w1|] eqn:E; cbn [bind]; [|discriminate].
      intros [= <-]. simpl. apply handleClick_queues in E. tauto.
    + cbn [bind]. intros [= <-]. reflexivity.
  - simpl in Hnf. contradiction.
  - intros [= <-]. simpl.
    destruct (handleClickSection_cases id (appSt w)) as [(E & _)|E]; rewrite E;
      reflexivity.
  - intros [= <-]. simpl. unfold handleClickSubSphere.
    destruct (idIs _ _); simpl; [destruct (Phase_eqb _ _)|]; reflexivity.
  - intros [= <-]. simpl. unfold navLogoClick.
    destruct (truthy (activeLink _)); [reflexivity|].
    destruct (truthy (activeSection _)); reflexivity.
  - intros [= <-]. simpl. unfold navSectionClick.
    destruct (_ && _); [reflexivity|].
    destruct (idIs _ _); [reflexivity|].
    destruct (handleClickSection_cases id (appSt w)) as [(E & _)|E]; rewrite E;
      reflexivity.
Qed.

Lemma handle_queues (e : Event) (w w' : World) :
  handle e w = Some w' -> queuedBy (appSt w) (appSt w').
Proof.
  destruct e; simpl.
  - intros [= <-]. unfold onMD. destruct (active _); apply queuedBy_refl.
  - intros [= <-]. unfold onMM. destruct (negb _); apply queuedBy_refl.
  - unfold onMU. destruct (negb _).
    + destruct (handleClick hit w) as [w1|] eqn:E; cbn [bind]; [|discriminate].
      intros [= <-]. simpl. apply handleClick_queues in E. tauto.
    + cbn [bind]. intros [= <-]. apply queuedBy_refl.
  - intros [= <-]. unfold onWH. destruct (_ || _); apply queuedBy_refl.
  - intros [= <-]. unfold onTS. destruct (active _); [apply queuedBy_refl|].
    destruct touches as [|t0 [|t1 [|]]]; apply queuedBy_refl.
  - intros [= <-]. unfold onTM.
    destruct touches as [|t0 [|t1 [|]]]; try apply queuedBy_refl.
    + destruct (isDraggingRef _); apply queuedBy_refl.
    + destruct (pinchStartRef _); [|apply queuedBy_refl].
      destruct (negb _); apply queuedBy_refl.
  - unfold onTE. destruct (_ && _).
    + destruct (handleClick hit w) as [w1|] eqn:E; cbn [bind]; [|discriminate].
      intros [= <-]. simpl. apply handleClick_queues in E. tauto.
    + cbn [bind]. intros [= <-]. apply queuedBy_refl.
  - intros Ha l Hl. apply animate_nav in Ha. unfold navOf in Ha.
    left. congruence.
  - intros [= <-] l Hl. left. exact (@handleClickSection_queues _ _ _ Hl).
  - intros [= <-] l Hl. exact (@handleClickSubSphere_queues _ _ _ _ Hl).
  - intros [= <-] l Hl. discriminate.
  - intros [= <-] l Hl. discriminate.
  - intros [= <-] l Hl. left. exact Hl.
  - intros [= <-] l. simpl. unfold navLogoClick.
    destruct (truthy (activeLink _)); [discriminate|].
    destruct (truthy (activeSection _)); [discriminate|]. auto.
  - intros [= <-] l Hl. simpl in Hl.
    destruct (navSectionClick_clears id (appSt w)) as [H _]. congruence.
Qed.

Lemma settled_deps (w : World) :
  settled w ->
  pendingDeps (deps w) = (cameraPhase (appSt w), activeSection (appSt w)).
Proof.
  intros [_ H]. unfold pendingDepsCurrent in H. apply andb_true_iff in H.
  destruct H as [H1 H2]. apply Phase_eqb_true in H1. apply idEqb_true in H2.
  destruct (pendingDeps (deps w)). simpl in *. congruence.
Qed.

(** A step ends in the state the effect of [App] gives after the handler. *)
Lemma step_consumes (e : Event) (w w1 w' : World) :
  settled w -> ownerActive (appSt w) -> noneWaiting (appSt w) -> wfEvent e ->
  handle e w = Some w1 -> step e w = Some w' ->
  appSt w' = pendingLinkEffect (appSt w1).
Proof.
  intros Hs Ho Hn He Hh. unfold step. rewrite Hh. cbn [bind]. unfold settle.
  destruct (commit w1) as [w2|] eqn:E1; cbn [bind]; [|discriminate].
  intros E2.
  pose proof (commit_pending_current _ E1) as Hc.
  destruct (commit_second _ Hc E2) as [Ha2 _]. rewrite Ha2.
  destruct (pendingDepsCurrent w1) eqn:Hd.
  - destruct (commit_second _ Hd E1) as [Ha1 _]. rewrite Ha1.
    destruct (pendingLinkEffect_cases (appSt w1))
      as [E|(l & Hl & _ & Hph & _)]; [symmetry; exact E|].
    exfalso. unfold pendingDepsCurrent in Hd.
    rewrite (@handle_deps e w w1 Hh), (@settled_deps w Hs) in Hd. simpl in Hd.
    apply andb_true_iff in Hd. destruct Hd as [H1 H2].
    apply Phase_eqb_true in H1.
    destruct (@handle_queues e w w1 Hh l Hl) as [H|[H|H]].
    + apply (Hn l H). congruence.
    + congruence.
    + congruence.
  - exact (@commit_runs_pending rt w1 w2 Hd E1).
Qed.

Lemma pendingLinkEffect_noneWaiting (a : App) :
  ownerActive a -> noneWaiting (pendingLinkEffect a).
Proof.
  intros Ho l. unfold pendingLinkEffect.
  destruct (truthy (pendingLinkRef a) && truthy (activeSection a)
            && Phase_eqb (cameraPhase a) parkedAtParent) eqn:E;
    [discriminate|].
  intros Hl Hph. destruct (Ho l Hl) as (s & Hs & Hown).
  destruct (@ownsb_truthy _ _ Hown) as [Ts Tl].
  rewrite Hl, Hs, Tl, Ts, Hph in E. discriminate.
Qed.

Lemma run_noneWaiting (es : list Event) :
  Forall wfEvent es ->
  forall w w',
    settled w -> ownerActive (appSt w) -> noneWaiting (appSt w) ->
    run es w = Some w' -> noneWaiting (appSt w').
Proof.
  induction 1 as [|e es He _ IH]; intros w w' Hs Ho Hn; simpl.
  - intros [= <-]. exact Hn.
  - destruct (step e w) as [w1|] eqn:E; cbn [bind]; [|discriminate].
    assert (Hh : exists w0, handle e w = Some w0).
    { unfold step in E. destruct (handle e w) as [w0|]; [eauto|discriminate]. }
    destruct Hh as (w0 & Hh).
    apply IH.
    + exact (@step_settled rt e w w1 E).
    + exact (@step_owner rt e w w1 He Ho E).
    + rewrite (@step_consumes e w w0 w1 Hs Ho Hn He Hh E).
      apply pendingLinkEffect_noneWaiting.
      exact (@handle_owner rt e w w0 He Ho Hh).
Qed.

Lemma mount_noneWaiting (w0 : World) :
  mount initialWorld = Some w0 -> noneWaiting (appSt w0).
Proof.
  unfold mount.
  destruct (flyEffect _) as [w2|] eqn:E; cbn [bind]; [|discriminate].
  apply flyEffect_frame in E. destruct E as (Ea & _ & _).
  intros Hs. apply settle_nav_none in Hs.
  - rewrite Hs. cbn [appSt]. rewrite Ea. intros l. discriminate.
  - cbn [appSt]. rewrite Ea. reflexivity.
Qed.

End Consumed.

(** C1: the pending-link queue.  In every world reached from mounting, and
    after the handler of any further event: the queue holds at most one
    link; between events no link is left in the queue beside a phase cell
    that says parkedAtParent; when the handler leaves a link in the queue
    and the phase cell says parkedAtParent, the effect of [App] makes it the
    active link of the active section, which owns it, and empties the
    queue; otherwise the effect changes nothing; a second run of the effect
    changes nothing; and the step ends in the state the effect gives.  The
    phase cell holds the last report of [animate], no other event writes
    it: the promotion can rest on a report made while another section was
    active, as after a moon click on another section from a parked
    camera. *)
Theorem C1_queued_link_promoted_on_last_report :
  forall (rt : Runtime) (es : list Event) (w0 w w1 : World) (e : Event),
    mount initialWorld = Some w0 ->
    Forall wfEvent es ->
    run es w0 = Some w ->
    wfEvent e ->
    handle e w = Some w1 ->
    let a := appSt w1 in
    let a' := pendingLinkEffect a in
    (List.length (pendingQueue a) <= 1)%nat
    /\ (forall l, pendingLinkRef (appSt w) = Some l ->
                  cameraPhase (appSt w) <> parkedAtParent)
    /\ (forall l, pendingLinkRef a = Some l ->
                  cameraPhase a = parkedAtParent ->
                  exists s, activeSection a = Some s /\ ownsb s l = true
                            /\ a' = setNav a (Some s) (Some l) None)
    /\ (pendingLinkRef a = None \/ cameraPhase a <> parkedAtParent -> a' = a)
    /\ pendingLinkEffect a' = a'
    /\ (forall w', step e w = Some w' -> appSt w' = a')
    /\ (~ isFrame e -> cameraPhase a = cameraPhase (appSt w)).
Proof.
  intros rt es w0 w w1 e Hm Hes Hrun He Hh a a'.
  assert (Hs : settled w).
  { apply (@run_settled rt es w0 w); [|exact Hrun].
    exact (@mount_settled rt w0 Hm). }
  assert (Ho0 : ownerActive (appSt w)).
  { apply (@run_owner rt es Hes w0 w); [|exact Hrun].
    apply mount_owner. exact Hm. }
  assert (Hn : noneWaiting (appSt w)).
  { apply (@run_noneWaiting rt es Hes w0 w); try assumption.
    - exact (@mount_settled rt w0 Hm).
    - apply mount_owner. exact Hm.
    - exact (@mount_noneWaiting rt w0 Hm). }
  assert (Ho : ownerActive a).
  { exact (@handle_owner rt e w w1 He Ho0 Hh). }
  split; [unfold pendingQueue; destruct (pendingLinkRef a); simpl; lia|].
  split; [exact Hn|].
  split.
  { intros l Hl Hph. destruct (Ho l Hl) as (s & Hsec & Hown).
    exists s. split; [exact Hsec|]. split; [exact Hown|].
    destruct (@ownsb_truthy _ _ Hown) as [Ts Tl].
    unfold a', pendingLinkEffect.
    rewrite Hl, Hsec, Tl, Ts, Hph. reflexivity. }
  split.
  { intros H. destruct (pendingLinkEffect_cases a)
      as [E|(l & Hl & _ & Hph & _)]; [exact E|].
    destruct H as [H|H]; [congruence|contradiction]. }
  split; [apply pendingLinkEffect_idem|].
  split.
  { intros w' Hst. exact (@step_consumes rt e w w1 w' Hs Ho0 Hn He Hh Hst). }
  intros Hnf. exact (@handle_phase rt e w w1 Hnf Hh).
Qed.

Lemma C1_witness :
  let a0 := appSt parkedArtWorld in
  let a := handleClickSubSphere "dev" "github" a0 in
  navOf a0 = (Some "art", None, None)
  /\ cameraPhase a0 = parkedAtParent
  /\ navOf a = (Some "dev", None, Some "github")
  /\ cameraPhase a = cameraPhase a0
  /\ (exists s, activeSection a = Some s /\ ownsb s "github" = true
                /\ pendingLinkEffect a = setNav a (Some s) (Some "github") None)
  /\ appSt atGithubWorld = pendingLinkEffect a
  /\ navOf (appSt atGithubWorld) = (Some "dev", Some "github", None).
Proof.
  intros a0 a.
  destruct (@C1_queued_link_promoted_on_last_report rationalRuntime
              [NavSection "art"; Frame 1 3; Frame 2 1] mountedWorld
              parkedArtWorld (withApp parkedArtWorld a)
              (ClickSubSphere "dev" "github"))
    as (_ & _ & Hprom & _ & _ & Hstep & Hph).
  - vm_compute. reflexivity.
  - repeat constructor.
  - vm_compute. reflexivity.
  - reflexivity.
  - reflexivity.
  - split; [reflexivity|]. split; [reflexivity|]. split; [reflexivity|].
    split; [apply Hph; intros H; exact H|].
    split; [apply (Hprom "github"); reflexivity|].
    split; [apply Hstep; vm_compute; reflexivity|].
    reflexivity.
Defined.

(** The intended path: the link gallery waits during the flight to art and
    is promoted by the frame that reports parkedAtParent. *)
Example queued_link_promoted_after_the_report :
  navOf (appSt flightOverWorld) = (Some "art", None, Some "gallery")
  /\ cameraPhase (appSt flightOverWorld) = flyToParent
  /\ pendingLinkEffect (appSt flightOverWorld) = appSt flightOverWorld
  /\ cameraPhase (appSt reportedWorld) = parkedAtParent
  /\ navOf (pendingLinkEffect (appSt reportedWorld))
     = (Some "art", Some "gallery", None).
Proof. repeat split. Qed.

(** ** A moon click when the camera is not parked *)

Section NotParked.
Context {rt : Runtime}.

(** When the last reported phase is not parkedAtParent, a moon click on
    another section queues the link and leaves no link active. *)
Lemma moon_click_on_other_section_queues (w w' : World)
  (sectionId linkId : string) :
  cameraPhase (appSt w) <> parkedAtParent ->
  activeSection (appSt w) <> Some sectionId ->
  step (ClickSubSphere sectionId linkId) w = Some w' ->
  navOf (appSt w') = (Some sectionId, None, Some linkId).
Proof.
  intros Hph Hne. unfold step. cbn [handle bind].
  assert (Hid : idIs (activeSection (appSt w)) sectionId = false).
  { destruct (idIs (activeSection (appSt w)) sectionId) eqn:E; [|reflexivity].
    apply idIs_true in E. contradiction. }
  unfold handleClickSubSphere. rewrite Hid. cbn [negb].
  intros Hs. apply settle_result in Hs. destruct Hs as [_ Hs].
  cbn [appSt withApp] in Hs.
  assert (Hno : pendingLinkEffect
                  (setNav (appSt w) (Some sectionId) None (Some linkId))
                = setNav (appSt w) (Some sectionId) None (Some linkId)).
  { destruct (pendingLinkEffect_cases
                (setNav (appSt w) (Some sectionId) None (Some linkId)))
      as [E|(l & _ & _ & Hc & _)]; [exact E|].
    simpl in Hc. contradiction. }
  rewrite Hno in Hs. destruct Hs as [Hs|Hs]; rewrite Hs; reflexivity.
Qed.

(** A frame changes the navigation state only by promoting the queued link,
    and only when it reports parkedAtParent. *)
Lemma frame_promotes_only_when_parked (time delta : Q) (w w' : World) :
  step (Frame time delta) w = Some w' ->
  navOf (appSt w') = navOf (appSt w)
  \/ exists l,
       pendingLinkRef (appSt w) = Some l
       /\ cameraPhase (appSt w') = parkedAtParent
       /\ navOf (appSt w') = (activeSection (appSt w), Some l, None).
Proof.
  unfold step. cbn [handle].
  destruct (animate time delta w) as [w1|] eqn:Ea; cbn [bind]; [|discriminate].
  intros Hs. apply settle_result in Hs. destruct Hs as [_ Hs].
  pose proof (animate_nav _ _ _ Ea) as Hn.
  destruct Hs as [Hs|Hs]; [left; rewrite Hs; exact Hn|].
  destruct (pendingLinkEffect_cases (appSt w1)) as [E|(l & Hl & _ & Hc & E)].
  - left. rewrite Hs, E. exact Hn.
  - right. exists l. unfold navOf in Hn. injection Hn as H1 H2 H3.
    rewrite Hs, E. simpl. rewrite <- H3, <- H1. auto.
Qed.

End NotParked.

(** ** The end-to-end scenarios *)

(** From home, a planet click: at the section, a flight to the parent of
    2.5 s, then parked. *)
Example scenario_planet_click :
  navOf (appSt enteredArtWorld) = (Some "art", None, None)
  /\ active (cameraAnimRef (scene enteredArtWorld)) = true
  /\ phase (cameraAnimRef (scene enteredArtWorld)) = flyToParent
  /\ duration (cameraAnimRef (scene enteredArtWorld)) = 25 # 10
  /\ cameraPhase (appSt parkedArtWorld) = parkedAtParent
  /\ active (cameraAnimRef (scene parkedArtWorld)) = false.
Proof. repeat split. Qed.

(** Parked at a section, a click on one of its moons: at the link, a flight
    to the moon of 1.8 s. *)
Example scenario_moon_click :
  @step rationalRuntime (ClickSubSphere "art" "gallery") parkedArtWorld
  = Some atGalleryWorld
  /\ navOf (appSt atGalleryWorld) = (Some "art", Some "gallery", None)
  /\ active (cameraAnimRef (scene atGalleryWorld)) = true
  /\ phase (cameraAnimRef (scene atGalleryWorld)) = flyToSub
  /\ duration (cameraAnimRef (scene atGalleryWorld)) = 18 # 10.
Proof. split; [vm_compute; reflexivity | repeat split]. Qed.

(** From home, a moon click: the link waits in the queue during the flight
    to the parent and becomes active with the frame that reports
    parkedAtParent; the flight to the moon starts then. *)
Example scenario_moon_click_from_home :
  cameraPhase (appSt homeWorld) = home
  /\ navOf (appSt yogaQueuedWorld) = (Some "yoga", None, Some "classes")
  /\ phase (cameraAnimRef (scene yogaQueuedWorld)) = flyToParent
  /\ navOf (appSt yogaFlownWorld) = (Some "yoga", None, Some "classes")
  /\ cameraPhase (appSt yogaFlownWorld) = flyToParent
  /\ active (cameraAnimRef (scene yogaFlownWorld)) = false
  /\ navOf (appSt yogaLinkWorld) = (Some "yoga", Some "classes", None)
  /\ cameraPhase (appSt yogaLinkWorld) = parkedAtParent
  /\ phase (cameraAnimRef (scene yogaLinkWorld)) = flyToSub
  /\ active (cameraAnimRef (scene yogaLinkWorld)) = true.
Proof. repeat split. Qed.

(** Back to home from a link: one flight home of 2.0 s. *)
Example scenario_back_home_from_link :
  @step rationalRuntime Back atGalleryWorld = Some homeFromLinkWorld
  /\ navOf (appSt homeFromLinkWorld) = (None, None, None)
  /\ active (cameraAnimRef (scene homeFromLinkWorld)) = true
  /\ phase (cameraAnimRef (scene homeFromLinkWorld)) = flyHome
  /\ duration (cameraAnimRef (scene homeFromLinkWorld)) = 2.
Proof. split; [vm_compute; reflexivity | repeat split]. Qed.

(* ================================================================== *)
(** ** The orbit curve closes *)
(* ================================================================== *)

Lemma gcdLoop_abs (fuel : nat) :
  forall a b : Z,
    (Z.to_nat (Z.abs b) < fuel)%nat ->
    Z.abs (gcdLoop fuel a b) = Z.gcd a b.
Proof.
  induction fuel as [|fuel IH]; intros a b Hfuel.
  - lia.
  - cbn [gcdLoop]. destruct (Z.eqb_spec b 0) as [->|Hb].
    + rewrite Z.gcd_0_r. reflexivity.
    + rewrite IH.
      * rewrite Z.gcd_comm, (Z.gcd_rem a b Hb). apply Z.gcd_comm.
      * pose proof (Z.rem_bound_abs a b Hb). lia.
Qed.

Lemma gcdLoop_nonneg (fuel : nat) :
  forall a b : Z, (0 <= a)%Z -> (0 <= b)%Z -> (0 <= gcdLoop fuel a b)%Z.
Proof.
  induction fuel as [|fuel IH]; intros a b Ha Hb; cbn [gcdLoop].
  - exact Ha.
  - destruct (Z.eqb_spec b 0) as [->|Hb0]; [exact Ha|].
    apply IH; [exact Hb|]. apply Z.rem_bound_pos; lia.
Qed.

Lemma gcd_abs (a b : Z) : Z.abs (gcd a b) = Z.gcd a b.
Proof. unfold gcd. apply gcdLoop_abs. lia. Qed.

Lemma gcd_nonneg (a b : Z) :
  (0 <= a)%Z -> (0 <= b)%Z -> gcd a b = Z.gcd a b.
Proof.
  intros Ha Hb. rewrite <- gcd_abs. symmetry. apply Z.abs_eq.
  unfold gcd. apply gcdLoop_nonneg; assumption.
Qed.

(** X1: The loop of [gcd] ends within the steps the model gives it and
    returns the greatest common divisor, up to sign; on non-negative
    arguments it is the greatest common divisor itself, so it divides both
    arguments and every common divisor divides it. *)
Theorem X1_gcd_greatest_common_divisor :
  forall a b : Z,
    Z.abs (gcd a b) = Z.gcd a b
    /\ (gcd a b | a)%Z /\ (gcd a b | b)%Z
    /\ (forall d : Z, (d | a)%Z -> (d | b)%Z -> (d | gcd a b)%Z).
Proof.
  intros a b. pose proof (gcd_abs a b) as H.
  assert (Hd : forall x : Z, (Z.gcd a b | x)%Z -> (gcd a b | x)%Z).
  { intros x Hx. rewrite <- H in Hx. apply Z.divide_abs_l. exact Hx. }
  repeat split.
  - exact H.
  - apply Hd, Z.gcd_divide_l.
  - apply Hd, Z.gcd_divide_r.
  - intros d Ha Hb. apply Z.divide_abs_r. rewrite H.
    apply Z.gcd_greatest; assumption.
Qed.

Lemma stepsToClose_eq (sections spans : Z) :
  (0 < sections)%Z -> (0 < spans)%Z ->
  stepsToClose sections spans = Z.lcm sections spans.
Proof.
  intros Hs Hp. unfold stepsToClose, Z.lcm.
  rewrite gcd_nonneg by lia.
  assert (Hg : (0 < Z.gcd sections spans)%Z).
  { pose proof (Z.gcd_nonneg sections spans).
    assert (Z.gcd sections spans <> 0)%Z
      by (intros E; apply Z.gcd_eq_0_l in E; lia).
    lia. }
  rewrite Z.divide_div_mul_exact
    by (try lia; apply Z.gcd_divide_r).
  symmetry. apply Z.abs_eq.
  apply Z.mul_nonneg_nonneg; [lia|].
  apply Z.div_pos; lia.
Qed.

(** X2: For positive [sections] and [spans] the number of raw points is
    their least common multiple: after that many steps both angles of the
    knot have made a whole number of turns, and no smaller positive number
    of steps does; the curve is built closed on exactly that many points. *)
Theorem X2_stepsToClose_least_common_multiple :
  forall (rt : Runtime) (radius minorRadius : Q) (sections spans : Z),
    (0 < sections)%Z -> (0 < spans)%Z ->
    let n := stepsToClose sections spans in
    (0 < n)%Z
    /\ (sections | n)%Z /\ (spans | n)%Z
    /\ (forall m : Z, (0 < m)%Z -> (sections | m)%Z -> (spans | m)%Z ->
                      (n <= m)%Z)
    /\ List.length (rawPoints (generateTorusPoints radius minorRadius
                                                   sections spans))
       = Z.to_nat n
    /\ closed (generateTorusPoints radius minorRadius sections spans) = true.
Proof.
  intros rt radius minorRadius sections spans Hs Hp n.
  assert (En : n = Z.lcm sections spans) by (apply stepsToClose_eq; assumption).
  assert (Hn : (0 < n)%Z).
  { pose proof (Z.lcm_nonneg sections spans).
    assert (Z.lcm sections spans <> 0)%Z
      by (intros E; apply Z.lcm_eq_0 in E; lia).
    lia. }
  repeat split.
  - exact Hn.
  - rewrite En. apply Z.divide_lcm_l.
  - rewrite En. apply Z.divide_lcm_r.
  - intros m Hm H1 H2. rewrite En.
    apply Z.divide_pos_le; [exact Hm|]. apply Z.lcm_least; assumption.
  - unfold generateTorusPoints. cbn [rawPoints].
    rewrite length_map, length_seq. reflexivity.
Qed.

Lemma X2_witness :
  let n := stepsToClose 11 12 in
  (0 < n)%Z
  /\ (11 | n)%Z /\ (12 | n)%Z
  /\ (forall m : Z, (0 < m)%Z -> (11 | m)%Z -> (12 | m)%Z -> (n <= m)%Z)
  /\ List.length (rawPoints (@generateTorusPoints rationalRuntime 1 (7 # 10)
                                                   11 12))
     = Z.to_nat n
  /\ closed (@generateTorusPoints rationalRuntime 1 (7 # 10) 11 12) = true.
Proof.
  apply (@X2_stepsToClose_least_common_multiple rationalRuntime 1 (7 # 10) 11 12);
    reflexivity.
Defined.

(* ================================================================== *)
(** ** Easing *)
(* ================================================================== *)

Lemma Qltb_true (a b : Q) : Qltb a b = true <-> a < b.
Proof.
  unfold Qltb. rewrite negb_true_iff. split.
  - intros H. apply Qnot_le_lt. intros Hle.
    apply Qle_bool_iff in Hle. congruence.
  - intros H. destruct (Qle_bool b a) eqn:E; [|reflexivity].
    apply Qle_bool_iff in E. exfalso. apply (Qlt_not_le _ _ H E).
Qed.

Lemma Qltb_false (a b : Q) : Qltb a b = false <-> b <= a.
Proof.
  unfold Qltb. rewrite negb_false_iff. apply Qle_bool_iff.
Qed.

(** The cube is monotone on all rationals. *)
Lemma Qcube_le (a b : Q) : a <= b -> a * a * a <= b * b * b.
Proof.
  intros H.
  pose (sq1 := (2 * a + b) * (2 * a + b)).
  pose (sq2 := b * b).
  assert (E : b * b * b - a * a * a == (b - a) * ((sq1 + 3 * sq2) * (1 # 4)))
    by (unfold sq1, sq2; ring).
  assert (Hpos : 0 <= (b - a) * ((sq1 + 3 * sq2) * (1 # 4))).
  { apply Qmult_le_0_compat; [lra|].
    pose proof (Qsquare_nonneg (2 * a + b)) as H1.
    pose proof (Qsquare_nonneg b) as H2.
    fold sq1 in H1. fold sq2 in H2. lra. }
  rewrite <- E in Hpos.
  apply Qle_minus_iff. setoid_replace (b * b * b + - (a * a * a))
    with (b * b * b - a * a * a) by ring. exact Hpos.
Qed.

Lemma easeInOutCubic_low (t : Q) :
  t < 1 # 2 -> easeInOutCubic t == 4 * (t * t * t).
Proof.
  intros H. unfold easeInOutCubic.
  apply Qltb_true in H. rewrite H. ring.
Qed.

Lemma easeInOutCubic_high (t : Q) :
  1 # 2 <= t ->
  easeInOutCubic t == 1 - ((2 - 2 * t) * (2 - 2 * t) * (2 - 2 * t)) * (1 # 2).
Proof.
  intros H. unfold easeInOutCubic.
  apply Qltb_false in H. rewrite H. field.
Qed.

Lemma easeInOutCubic_mono (s t : Q) :
  s <= t -> easeInOutCubic s <= easeInOutCubic t.
Proof.
  intros Hst.
  destruct (Qlt_le_dec s (1 # 2)) as [Hs|Hs];
    destruct (Qlt_le_dec t (1 # 2)) as [Ht|Ht].
  - rewrite (easeInOutCubic_low Hs), (easeInOutCubic_low Ht).
    pose proof (Qcube_le Hst) as H.
    set (cs := s * s * s) in *. set (ct := t * t * t) in *. lra.
  - rewrite (easeInOutCubic_low Hs), (easeInOutCubic_high Ht).
    assert (H1 : s * s * s <= (1 # 2) * (1 # 2) * (1 # 2))
      by (apply Qcube_le; lra).
    assert (H2 : (2 - 2 * t) * (2 - 2 * t) * (2 - 2 * t) <= 1 * 1 * 1)
      by (apply Qcube_le; lra).
    set (cs := s * s * s) in *.
    set (ct := (2 - 2 * t) * (2 - 2 * t) * (2 - 2 * t)) in *.
    lra.
  - lra.
  - rewrite (easeInOutCubic_high Hs), (easeInOutCubic_high Ht).
    assert (H : (2 - 2 * t) * (2 - 2 * t) * (2 - 2 * t)
                <= (2 - 2 * s) * (2 - 2 * s) * (2 - 2 * s))
      by (apply Qcube_le; lra).
    set (cs := (2 - 2 * s) * (2 - 2 * s) * (2 - 2 * s)) in *.
    set (ct := (2 - 2 * t) * (2 - 2 * t) * (2 - 2 * t)) in *.
    lra.
Qed.

Lemma easeInOutCubic_0 : easeInOutCubic 0 == 0.
Proof. reflexivity. Qed.

Lemma easeInOutCubic_1 : easeInOutCubic 1 == 1.
Proof. reflexivity. Qed.

(** X3: The easing never goes backwards: a later progress of a flight gives
    a pose at least as far along the path.  It fixes both ends, so it maps
    the progress range [0, 1] into [0, 1]. *)
Theorem X3_easeInOutCubic_monotone :
  forall s t : Q,
    (s <= t -> easeInOutCubic s <= easeInOutCubic t)
    /\ (0 <= t -> t <= 1 -> 0 <= easeInOutCubic t /\ easeInOutCubic t <= 1).
Proof.
  intros s t. split.
  - apply easeInOutCubic_mono.
  - intros H0 H1. split.
    + rewrite <- easeInOutCubic_0. apply easeInOutCubic_mono. exact H0.
    + rewrite <- easeInOutCubic_1. apply easeInOutCubic_mono. exact H1.
Qed.

(* ================================================================== *)
(** ** The seeded values of the moons *)
(* ================================================================== *)

Lemma seededVal_eq (seed mult : Z) :
  seededVal seed mult == Z.rem (seed * mult) 100 # 100.
Proof.
  unfold seededVal, Qdiv, Qeq, Qmult, Qinv, inject_Z. simpl. lia.
Qed.

Lemma seededVal_bounds (seed mult : Z) :
  -1 < seededVal seed mult /\ seededVal seed mult < 1
  /\ ((0 <= seed * mult)%Z -> 0 <= seededVal seed mult).
Proof.
  pose proof (Z.rem_bound_abs (seed * mult) 100 ltac:(lia)) as Hr.
  rewrite !seededVal_eq. unfold Qlt, Qle. simpl.
  repeat split; try lia.
  intros Hn. pose proof (Z.rem_bound_pos (seed * mult) 100 Hn ltac:(lia)). lia.
Qed.

(** X5: For an integer seed and an integer multiplier whose product the
    doubles of the source hold exactly (absolute values up to 2^53), a
    seeded value is strictly between -1 and 1, and it is not negative when
    neither argument is.  The seeds of the moons come from their two
    indices: for indices below 1000 and a multiplier up to 1000 the product
    is exact and the seeded value is within [0, 1). *)
Theorem X5_seededVal_range_of_exact_products :
  forall seed mult : Z,
    (Z.abs seed <= 2 ^ 53)%Z ->
    (Z.abs mult <= 2 ^ 53)%Z ->
    (Z.abs (seed * mult) <= 2 ^ 53)%Z ->
    -1 < seededVal seed mult /\ seededVal seed mult < 1
    /\ ((0 <= seed)%Z -> (0 <= mult)%Z -> 0 <= seededVal seed mult)
    /\ (forall sIdx lIdx : nat,
          (sIdx < 1000)%nat -> (lIdx < 1000)%nat ->
          (0 <= mult <= 1000)%Z ->
          let v := seededVal (subSeed (Z.of_nat sIdx) (Z.of_nat lIdx)) mult in
          (Z.abs (subSeed (Z.of_nat sIdx) (Z.of_nat lIdx) * mult) <= 2 ^ 53)%Z
          /\ 0 <= v /\ v < 1).
Proof.
  intros seed mult _ _ _.
  destruct (seededVal_bounds seed mult) as (H1 & H2 & H3).
  split; [exact H1|]. split; [exact H2|]. split.
  - intros Hs Hm. apply H3. nia.
  - intros sIdx lIdx Hs Hl Hm v.
    destruct (seededVal_bounds (subSeed (Z.of_nat sIdx) (Z.of_nat lIdx)) mult)
      as (_ & Hlt & H).
    split; [|split; [|exact Hlt]].
    + unfold subSeed.
      assert (0 <= (Z.of_nat sIdx * 7 + Z.of_nat lIdx * 13) * mult <= 20000 * 1000)%Z
        by nia.
      change (2 ^ 53)%Z with 9007199254740992%Z. lia.
    + apply H. unfold subSeed. nia.
Qed.

Lemma X5_witness :
  -1 < seededVal 20 17 /\ seededVal 20 17 < 1
  /\ ((0 <= 20)%Z -> (0 <= 17)%Z -> 0 <= seededVal 20 17)
  /\ (forall sIdx lIdx : nat,
        (sIdx < 1000)%nat -> (lIdx < 1000)%nat ->
        (0 <= 17 <= 1000)%Z ->
        let v := seededVal (subSeed (Z.of_nat sIdx) (Z.of_nat lIdx)) 17 in
        (Z.abs (subSeed (Z.of_nat sIdx) (Z.of_nat lIdx) * 17) <= 2 ^ 53)%Z
        /\ 0 <= v /\ v < 1).
Proof.
  apply (@X5_seededVal_range_of_exact_products 20 17).
  - vm_compute. discriminate.
  - vm_compute. discriminate.
  - vm_compute. discriminate.
Defined.

(* ================================================================== *)
(** ** The active link belongs to the active section *)
(* ================================================================== *)

Lemma linkOwned_none (a : App) : activeLink a = None -> linkOwned a.
Proof. intros H l Hl. congruence. Qed.

Lemma linkOwned_nav (a b : App) :
  navOf b = navOf a -> linkOwned a -> linkOwned b.
Proof.
  unfold navOf, linkOwned. intros [= H1 H2 H3] H l. rewrite H1, H2. apply H.
Qed.

Lemma handleClickSection_linkOwned (id : string) (a : App) :
  linkOwned a -> linkOwned (handleClickSection id a).
Proof.
  intros H. destruct (handleClickSection_cases id a) as [(E & _)|E]; rewrite E.
  - exact H.
  - apply linkOwned_none. reflexivity.
Qed.

Lemma handleClickSubSphere_linkOwned (s l : string) (a : App) :
  ownsb s l = true -> linkOwned a -> linkOwned (handleClickSubSphere s l a).
Proof.
  intros Hown H. unfold handleClickSubSphere.
  destruct (idIs (activeSection a) s) eqn:Es; cbn [negb].
  - apply idIs_true in Es.
    destruct (Phase_eqb (cameraPhase a) flyToParent).
    + intros l' Hl'. simpl in Hl'. simpl. apply H. exact Hl'.
    + intros l' Hl'. simpl in Hl'. injection Hl' as <-.
      exists s. split; [exact Es | exact Hown].
  - apply linkOwned_none. reflexivity.
Qed.

Lemma pendingLinkEffect_linkOwned (a : App) :
  ownerActive a -> linkOwned a -> linkOwned (pendingLinkEffect a).
Proof.
  intros Ho H.
  destruct (pendingLinkEffect_cases a) as [E|(l & Hl & _ & _ & E)]; rewrite E.
  - exact H.
  - intros l' Hl'. simpl in Hl'. injection Hl' as <-. simpl.
    apply Ho. exact Hl.
Qed.

Lemma handleClick_linkOwned (hit : Hit) (w w' : World) :
  linkOwned (appSt w) -> handleClick hit w = Some w' -> linkOwned (appSt w').
Proof.
  intros H. unfold handleClick, dispatchHit.
  destruct (_ || _); [intros [= <-]; exact H|].
  destruct hit as [|idx|sIdx lIdx].
  - intros [= <-]; exact H.
  - destruct (negb _); [|intros [= <-]; exact H].
    destruct (0 <=? idx)%Z; [|intros [= <-]; exact H].
    destruct (nth_error SECTIONS _); cbn [bind]; [|discriminate].
    intros [= <-]. apply handleClickSection_linkOwned. exact H.
  - destruct (_ && _); [|intros [= <-]; exact H].
    destruct (at_ (subSpheresRef (scene w)) sIdx) as [subs|]; cbn [bind];
      [|discriminate].
    destruct (at_ subs lIdx) as [sub|]; cbn [bind]; [|discriminate].
    destruct (Qgtb _ _); [|intros [= <-]; exact H].
    destruct (at_ SECTIONS sIdx) as [s|] eqn:Es; cbn [bind]; [|discriminate].
    destruct (at_ (links s) lIdx) as [l|] eqn:El; cbn [bind]; [|discriminate].
    intros [= <-]. apply handleClickSubSphere_linkOwned; [|exact H].
    exact (@ownsb_at sIdx lIdx s l Es El).
Qed.

Section LinkOwned.
Context {rt : Runtime}.

Lemma handle_linkOwned (e : Event) (w w' : World) :
  wfEvent e -> linkOwned (appSt w) -> handle e w = Some w' ->
  linkOwned (appSt w').
Proof.
  intros Hwf H. destruct e; simpl.
  - intros [= <-]. unfold onMD. destruct (active _); exact H.
  - intros [= <-]. unfold onMM. destruct (negb _); exact H.
  - unfold onMU. destruct (negb _).
    + destruct (handleClick hit w) as [w1|] eqn:E; simpl; [|discriminate].
      intros [= <-]. exact (@handleClick_linkOwned hit w w1 H E).
    + simpl. intros [= <-]. exact H.
  - intros [= <-]. unfold onWH. destruct (_ || _); exact H.
  - intros [= <-]. unfold onTS. destruct (active _); [exact H|].
    destruct touches as [|t0 [|t1 [|]]]; exact H.
  - intros [= <-]. unfold onTM.
    destruct touches as [|t0 [|t1 [|]]]; try exact H.
    + destruct (isDraggingRef _); exact H.
    + destruct (pinchStartRef _); [|exact H]. destruct (negb _); exact H.
  - unfold onTE. destruct (_ && _).
    + destruct (handleClick hit w) as [w1|] eqn:E; simpl; [|discriminate].
      intros [= <-]. exact (@handleClick_linkOwned hit w w1 H E).
    + simpl. intros [= <-]. exact H.
  - intros Ha. apply animate_nav in Ha. exact (@linkOwned_nav _ _ Ha H).
  - intros [= <-]. apply handleClickSection_linkOwned. exact H.
  - intros [= <-]. apply handleClickSubSphere_linkOwned; assumption.
  - intros [= <-]. apply linkOwned_none. reflexivity.
  - intros [= <-]. apply linkOwned_none. reflexivity.
  - intros [= <-]. exact H.
  - intros [= <-]. simpl. unfold navLogoClick.
    destruct (truthy (activeLink _)); [apply linkOwned_none; reflexivity|].
    destruct (truthy (activeSection _)); [apply linkOwned_none; reflexivity|].
    exact H.
  - intros [= <-]. apply linkOwned_none. apply navSectionClick_clears.
Qed.

Lemma step_linkOwned (e : Event) (w w' : World) :
  wfEvent e -> ownerActive (appSt w) -> linkOwned (appSt w) ->
  step e w = Some w' -> linkOwned (appSt w').
Proof.
  intros Hwf Ho H. unfold step.
  destruct (handle e w) as [w1|] eqn:E; cbn [bind]; [|discriminate].
  intros Hs. apply settle_result in Hs. destruct Hs as [_ [Hs|Hs]]; rewrite Hs.
  - exact (@handle_linkOwned e w w1 Hwf H E).
  - apply pendingLinkEffect_linkOwned.
    + exact (@handle_owner rt e w w1 Hwf Ho E).
    + exact (@handle_linkOwned e w w1 Hwf H E).
Qed.

Lemma run_linkOwned (es : list Event) :
  Forall wfEvent es ->
  forall w w', ownerActive (appSt w) -> linkOwned (appSt w) ->
               run es w = Some w' -> linkOwned (appSt w').
Proof.
  induction 1 as [|e es He _ IH]; intros w w' Ho H; simpl.
  - intros [= <-]. exact H.
  - destruct (step e w) as [w1|] eqn:E; cbn [bind]; [|discriminate].
    apply IH.
    + exact (@step_owner rt e w w1 He Ho E).
    + exact (@step_linkOwned e w w1 He Ho H E).
Qed.

Lemma mount_app (w0 : World) :
  mount initialWorld = Some w0 -> appSt w0 = initialApp.
Proof.
  unfold mount.
  destruct (flyEffect _) as [w2|] eqn:E; cbn [bind]; [|discriminate].
  apply flyEffect_frame in E. destruct E as (Ea & _ & _).
  intros Hs. apply settle_nav_none in Hs.
  - rewrite Hs. cbn [appSt]. rewrite Ea. reflexivity.
  - cbn [appSt]. rewrite Ea. reflexivity.
Qed.

End LinkOwned.

Lemma ownsb_known (s l : string) :
  ownsb s l = true ->
  exists sec lk,
    In sec SECTIONS /\ In lk (links sec)
    /\ section_id sec = s /\ link_id lk = l.
Proof.
  unfold ownsb. intros H. apply existsb_exists in H.
  destruct H as (sec & Hin & H). apply andb_true_iff in H.
  destruct H as [Hs Hl]. apply String.eqb_eq in Hs.
  apply existsb_exists in Hl. destruct Hl as (lk & Hlk & Hl).
  apply String.eqb_eq in Hl. exists sec, lk. auto.
Qed.

(** X6: In every state the program reaches from mounting, by events whose
    moon clicks name a link of the section they name, the active link is a
    link of the active section: both ids are in [SECTIONS]. *)
Theorem X6_active_link_belongs_to_active_section :
  forall (rt : Runtime) (es : list Event) (w0 w : World) (l : string),
    mount initialWorld = Some w0 ->
    Forall wfEvent es ->
    run es w0 = Some w ->
    activeLink (appSt w) = Some l ->
    exists sec lk,
      In sec SECTIONS /\ In lk (links sec)
      /\ activeSection (appSt w) = Some (section_id sec)
      /\ link_id lk = l.
Proof.
  intros rt es w0 w l Hm Hes Hr Hl.
  assert (H : linkOwned (appSt w)).
  { apply (@run_linkOwned rt es Hes w0 w); [| |exact Hr].
    - apply mount_owner. exact Hm.
    - rewrite (@mount_app rt w0 Hm). apply linkOwned_none. reflexivity. }
  destruct (H l Hl) as (s & Hs & Hown).
  destruct (@ownsb_known s l Hown) as (sec & lk & H1 & H2 & H3 & H4).
  exists sec, lk. rewrite H3. auto.
Qed.

Lemma X6_witness :
  exists sec lk,
    In sec SECTIONS /\ In lk (links sec)
    /\ activeSection (appSt atGalleryWorld) = Some (section_id sec)
    /\ link_id lk = "gallery".
Proof.
  apply (@X6_active_link_belongs_to_active_section rationalRuntime
           [NavSection "art"; Frame 1 3; Frame 2 1;
            ClickSubSphere "art" "gallery"]
           mountedWorld atGalleryWorld "gallery").
  - vm_compute. reflexivity.
  - repeat constructor.
  - vm_compute. reflexivity.
  - reflexivity.
Defined.

(* ================================================================== *)
(** ** The navigation bar *)
(* ================================================================== *)

(** X7: The logo goes up one level: from a link to its section, from a
    section to home, and it does nothing at home.  Two clicks on it lead
    home from everywhere. *)
Theorem X7_navLogoClick_goes_up_one_level :
  forall a : App,
    (truthy (activeLink a) = true ->
     navOf (navLogoClick a) = (activeSection a, None, None))
    /\ (truthy (activeLink a) = false -> truthy (activeSection a) = true ->
        navOf (navLogoClick a) = (None, None, None)
        /\ subSpherePositions (navLogoClick a) = [])
    /\ (truthy (activeLink a) = false -> truthy (activeSection a) = false ->
        navLogoClick a = a)
    /\ truthy (activeSection (navLogoClick (navLogoClick a))) = false
    /\ truthy (activeLink (navLogoClick (navLogoClick a))) = false.
Proof.
  intros a. unfold navLogoClick.
  destruct (truthy (activeLink a)) eqn:El;
    destruct (truthy (activeSection a)) eqn:Es;
    repeat split; try discriminate; try reflexivity; simpl;
    rewrite ?Es, ?El; simpl; try reflexivity; rewrite ?Es, ?El; reflexivity.
Qed.

(** X8: A section name of the navigation bar toggles: on another section
    it enters the section, on the active section it goes up one level (to
    the section from one of its links, to home from the section).  Clicked
    twice in a row, from a state where the section was not active, it ends
    at home. *)
Theorem X8_navSectionClick_toggles :
  forall (id : string) (a : App),
    (activeSection a <> Some id ->
     navOf (navSectionClick id a) = (Some id, None, None)
     /\ navOf (navSectionClick id (navSectionClick id a)) = (None, None, None))
    /\ (activeSection a = Some id -> truthy (activeLink a) = true ->
        navOf (navSectionClick id a) = (Some id, None, None)
        /\ navOf (navSectionClick id (navSectionClick id a))
           = (None, None, None))
    /\ (activeSection a = Some id -> truthy (activeLink a) = false ->
        navOf (navSectionClick id a) = (None, None, None)
        /\ navOf (navSectionClick id (navSectionClick id a))
           = (Some id, None, None)).
Proof.
  intros id a.
  assert (Hr : idIs (Some id) id = true) by apply idIs_refl.
  split; [|split].
  - intros Hne.
    assert (Hid : idIs (activeSection a) id = false).
    { destruct (idIs (activeSection a) id) eqn:E; [|reflexivity].
      apply idIs_true in E. contradiction. }
    assert (E : navSectionClick id a = setNav a (Some id) None None).
    { unfold navSectionClick, handleClickSection. rewrite Hid.
      rewrite andb_false_r. reflexivity. }
    rewrite E. split; [reflexivity|].
    unfold navSectionClick. cbn [activeSection activeLink setNav truthy].
    rewrite Hr. reflexivity.
  - intros Hs Hl.
    assert (E : navSectionClick id a = handleBackToSection a).
    { unfold navSectionClick. rewrite Hs, Hr, Hl. reflexivity. }
    rewrite E. unfold handleBackToSection. rewrite Hs.
    split; [reflexivity|].
    unfold navSectionClick. cbn [activeSection activeLink setNav truthy].
    rewrite Hr. reflexivity.
  - intros Hs Hl.
    assert (E : navSectionClick id a = handleBack a).
    { unfold navSectionClick. rewrite Hs, Hr, Hl. reflexivity. }
    rewrite E. split; [reflexivity|].
    unfold navSectionClick, handleClickSection, handleBack.
    cbn [activeSection activeLink setNav truthy idIs andb negb].
    reflexivity.
Qed.

(* ================================================================== *)
(** ** Moon clicks during the flight to the parent *)
(* ================================================================== *)

Section Queueing.
Context {rt : Runtime}.

Lemma settle_withApp_same_deps (w : World) (a : App) :
  settled w ->
  activeSection a = activeSection (appSt w) ->
  activeLink a = activeLink (appSt w) ->
  cameraPhase a = cameraPhase (appSt w) ->
  settle (withApp w a) = Some (withApp w a).
Proof.
  intros [Hf Hp] Hs Hl Hc. apply settle_settled. split.
  - unfold flyDepsCurrent in *. cbn [appSt withApp deps]. rewrite Hs, Hl.
    exact Hf.
  - unfold pendingDepsCurrent in *. cbn [appSt withApp deps]. rewrite Hs, Hc.
    exact Hp.
Qed.

End Queueing.

(** X9: During the flight to the parent a click on a moon of the active
    section only queues the link, and a second click replaces the first:
    the queue keeps the last link clicked.  No flight starts and the active
    link stays as it was. *)
Theorem X9_queued_moon_click_is_replaced :
  forall (rt : Runtime) (w : World) (s l1 l2 : string),
    settled w ->
    activeSection (appSt w) = Some s ->
    cameraPhase (appSt w) = flyToParent ->
    run [ClickSubSphere s l1; ClickSubSphere s l2] w
    = run [ClickSubSphere s l2] w
    /\ run [ClickSubSphere s l2] w
       = Some (withApp w (setNav (appSt w) (Some s) (activeLink (appSt w))
                                 (Some l2))).
Proof.
  intros rt w s l1 l2 Hset Hs Hc.
  assert (Hclick : forall (w1 : World) (l : string),
             settled w1 -> activeSection (appSt w1) = Some s ->
             cameraPhase (appSt w1) = flyToParent ->
             step (ClickSubSphere s l) w1
             = Some (withApp w1 (setNav (appSt w1) (Some s)
                                        (activeLink (appSt w1)) (Some l)))).
  { intros w1 l Hset1 Hs1 Hc1. unfold step. cbn [handle bind].
    unfold handleClickSubSphere. rewrite Hs1, idIs_refl, Hc1. cbn [negb Phase_eqb].
    apply settle_withApp_same_deps; [exact Hset1| | |]; simpl; auto. }
  split.
  - cbn [run]. rewrite (Hclick w l1 Hset Hs Hc). cbn [bind].
    set (w1 := withApp w _).
    assert (Hset1 : settled w1).
    { pose proof (@step_settled rt (ClickSubSphere s l1) w w1) as H.
      apply H. rewrite (Hclick w l1 Hset Hs Hc). reflexivity. }
    rewrite (Hclick w1 l2 Hset1 eq_refl Hc), (Hclick w l2 Hset Hs Hc).
    reflexivity.
  - cbn [run]. rewrite (Hclick w l2 Hset Hs Hc). reflexivity.
Qed.

Lemma X9_witness :
  @run rationalRuntime
       [ClickSubSphere "art" "process"; ClickSubSphere "art" "instagram"]
       queuedWorld
  = @run rationalRuntime [ClickSubSphere "art" "instagram"] queuedWorld
  /\ @run rationalRuntime [ClickSubSphere "art" "instagram"] queuedWorld
     = Some (withApp queuedWorld
               (setNav (appSt queuedWorld) (Some "art")
                       (activeLink (appSt queuedWorld)) (Some "instagram"))).
Proof.
  apply (@X9_queued_moon_click_is_replaced rationalRuntime queuedWorld
           "art" "process" "instagram").
  - split; reflexivity.
  - reflexivity.
  - reflexivity.
Defined.

(* ================================================================== *)
(** ** Canvas input during a flight *)
(* ================================================================== *)

Section CanvasInput.
Context {rt : Runtime}.

Lemma handleClick_flight (hit : Hit) (w : World) :
  active (cameraAnimRef (scene w)) = true -> handleClick hit w = Some w.
Proof.
  intros H. unfold handleClick. rewrite H, orb_true_r. reflexivity.
Qed.

Lemma handle_canvas_flight (e : Event) (w : World) :
  isCanvas e ->
  active (cameraAnimRef (scene w)) = true ->
  exists w1,
    handle e w = Some w1
    /\ appSt w1 = appSt w /\ scene w1 = scene w /\ deps w1 = deps w
    /\ (isDraggingRef (pointer w1) = true -> isDraggingRef (pointer w) = true).
Proof.
  intros Hc Ha. destruct e; try contradiction; cbn [handle].
  - unfold onMD. rewrite Ha. eexists. repeat split; auto.
  - eexists. split; [reflexivity|]. unfold onMM.
    destruct (isDraggingRef (pointer w)) eqn:Ed; cbn [negb]; repeat split;
      simpl; auto; intros; congruence.
  - unfold onMU. rewrite (@handleClick_flight hit w Ha).
    destruct (negb _); cbn [bind]; eexists; (split; [reflexivity|]);
      repeat split; simpl; discriminate.
  - unfold onWH. rewrite Ha. eexists. repeat split; auto.
  - unfold onTS. rewrite Ha. eexists. repeat split; auto.
  - eexists. split; [reflexivity|]. unfold onTM.
    destruct touches as [|t0 [|t1 [|]]]; try (repeat split; auto; fail).
    + destruct (isDraggingRef (pointer w)) eqn:Ed; repeat split; simpl; auto;
        intros; congruence.
    + destruct (pinchStartRef _); [|repeat split; auto].
      destruct (negb _); repeat split; auto.
  - unfold onTE. rewrite (@handleClick_flight hit w Ha).
    destruct (_ && _); cbn [bind]; eexists; (split; [reflexivity|]);
      repeat split; simpl; discriminate.
Qed.

Lemma settled_frame (w w1 : World) :
  settled w -> appSt w1 = appSt w -> deps w1 = deps w -> settled w1.
Proof.
  unfold settled, flyDepsCurrent, pendingDepsCurrent.
  intros H Ea Ed. rewrite Ea, Ed. exact H.
Qed.

End CanvasInput.

(** X10: While a camera flight is active no input on the canvas (mouse,
    wheel, touch) changes the navigation state or the scene, none of them
    fails whatever is under the pointer, and no drag starts. *)
Theorem X10_canvas_input_is_ignored_during_a_flight :
  forall (rt : Runtime) (e : Event) (w : World),
    isCanvas e ->
    settled w ->
    active (cameraAnimRef (scene w)) = true ->
    exists w',
      step e w = Some w'
      /\ appSt w' = appSt w /\ scene w' = scene w
      /\ (isDraggingRef (pointer w') = true ->
          isDraggingRef (pointer w) = true).
Proof.
  intros rt e w Hc Hset Ha.
  destruct (@handle_canvas_flight rt e w Hc Ha) as (w1 & Hh & Hap & Hsc & Hd & Hdr).
  exists w1. unfold step. rewrite Hh. cbn [bind].
  rewrite (@settle_settled rt w1 (@settled_frame w w1 Hset Hap Hd)).
  auto.
Qed.

Lemma X10_witness :
  exists w',
    @step rationalRuntime (MouseUp (HitParent 2)) enteredArtWorld = Some w'
    /\ appSt w' = appSt enteredArtWorld /\ scene w' = scene enteredArtWorld
    /\ (isDraggingRef (pointer w') = true ->
        isDraggingRef (pointer enteredArtWorld) = true).
Proof.
  apply (@X10_canvas_input_is_ignored_during_a_flight rationalRuntime
           (MouseUp (HitParent 2)) enteredArtWorld).
  - exact I.
  - split; reflexivity.
  - reflexivity.
Defined.

(* ================================================================== *)
(** ** The orbit targets while a section is active *)
(* ================================================================== *)

Section OrbitTargets.
Context {rt : Runtime}.

Lemma animate_targets (time delta : Q) (w w' : World) :
  truthy (activeSection (appSt w)) = true ->
  animate time delta w = Some w' ->
  targetRotationRef (pointer w') = targetRotationRef (pointer w)
  /\ targetZoomRef (pointer w') = targetZoomRef (pointer w)
  /\ activeSection (appSt w') = activeSection (appSt w).
Proof.
  intros Hs. unfold animate.
  destruct (cameraRef (scene w)) as [camera|]; [|intros [= <-]; auto].
  destruct (_ || _); [intros [= <-]; auto|].
  destruct (animateCamera _ _ _ _ _ _ _) as [[[c1 a1] report]|]; cbn [bind];
    [|discriminate].
  destruct (mapiM _ _ _) as [subs|]; cbn [bind]; [|discriminate].
  destruct (screenPositions _ _ _) as [positions|]; cbn [bind];
    [|discriminate].
  intros [= <-]. cbn [pointer targetRotationRef targetZoomRef appSt].
  rewrite Hs. rewrite !andb_false_r.
  split; [reflexivity|]. split; [reflexivity|].
  destruct report as [[ph pr]|], positions as [ps|]; reflexivity.
Qed.

Lemma handle_targets (e : Event) (w w' : World) :
  truthy (activeSection (appSt w)) = true ->
  handle e w = Some w' ->
  targetRotationRef (pointer w') = targetRotationRef (pointer w)
  /\ targetZoomRef (pointer w') = targetZoomRef (pointer w).
Proof.
  intros Hs. destruct e; cbn [handle]; try (intros [= <-]; auto; fail).
  - intros [= <-]. unfold onMD. destruct (active _); auto.
  - intros [= <-]. unfold onMM. destruct (negb (isDraggingRef _)); [auto|].
    rewrite Hs. auto.
  - unfold onMU. destruct (negb _).
    + destruct (handleClick hit w) as [w1|] eqn:E; cbn [bind]; [|discriminate].
      intros [= <-]. simpl. rewrite (handleClick_pointer _ _ E). auto.
    + cbn [bind]. intros [= <-]. auto.
  - intros [= <-]. unfold onWH. rewrite Hs, orb_true_r. auto.
  - intros [= <-]. unfold onTS. destruct (active _); [auto|].
    destruct touches as [|t0 [|t1 [|]]]; auto.
  - intros [= <-]. unfold onTM. rewrite Hs.
    destruct touches as [|t0 [|t1 [|]]]; auto.
    + destruct (isDraggingRef _); auto.
    + destruct (pinchStartRef _); auto.
  - unfold onTE. destruct (_ && _).
    + destruct (handleClick hit w) as [w1|] eqn:E; cbn [bind]; [|discriminate].
      intros [= <-]. simpl. rewrite (handleClick_pointer _ _ E). auto.
    + cbn [bind]. intros [= <-]. auto.
  - intros Ha. destruct (animate_targets _ _ _ Hs Ha) as (H1 & H2 & _). auto.
Qed.

End OrbitTargets.

(** X11: While a section is active nothing moves the targets of the home
    orbit: no drag, wheel turn, pinch, frame or click changes the target
    rotation or the target zoom.  The orbit the camera flies home to is the
    one the user left. *)
Theorem X11_orbit_targets_are_frozen_in_a_section :
  forall (rt : Runtime) (e : Event) (w w' : World),
    truthy (activeSection (appSt w)) = true ->
    step e w = Some w' ->
    targetRotationRef (pointer w') = targetRotationRef (pointer w)
    /\ targetZoomRef (pointer w') = targetZoomRef (pointer w).
Proof.
  intros rt e w w' Hs. unfold step.
  destruct (handle e w) as [w1|] eqn:Eh; cbn [bind]; [|discriminate].
  intros Hset. rewrite (@settle_pointer rt w1 w' Hset).
  exact (@handle_targets rt e w w1 Hs Eh).
Qed.

Lemma X11_witness :
  let w := runFrom [MouseDown (mkXY 0 0)] parkedArtWorld in
  let w' := runFrom [MouseMove (mkXY 40 30)] w in
  targetRotationRef (pointer w') = targetRotationRef (pointer w)
  /\ targetZoomRef (pointer w') = targetZoomRef (pointer w).
Proof.
  apply (@X11_orbit_targets_are_frozen_in_a_section rationalRuntime
           (MouseMove (mkXY 40 30))).
  - reflexivity.
  - vm_compute. reflexivity.
Defined.

(* ================================================================== *)
(** ** Frames and the queued link *)
(* ================================================================== *)

Section FramesPromote.
Context {rt : Runtime}.

Lemma run_frames_nav (es : list Event) :
  Forall isFrame es ->
  forall w w' : World,
    run es w = Some w' ->
    navOf (appSt w') = navOf (appSt w)
    \/ exists l,
         pendingLinkRef (appSt w) = Some l
         /\ navOf (appSt w') = (activeSection (appSt w), Some l, None).
Proof.
  induction 1 as [|e es He Hes IH]; intros w w'; cbn [run].
  - intros [= <-]. left. reflexivity.
  - destruct (step e w) as [w1|] eqn:Es; cbn [bind]; [|discriminate].
    intros Hr. destruct e; try contradiction.
    destruct (@frame_promotes_only_when_parked rt time delta w w1 Es)
      as [Hn|(l & Hl & _ & Hn)].
    + destruct (IH w1 w' Hr) as [H|(l & Hl & H)].
      * left. rewrite H. exact Hn.
      * right. exists l. unfold navOf in Hn. injection Hn as H1 H2 H3.
        rewrite <- H3, <- H1. auto.
    + right. exists l. split; [exact Hl|].
      rewrite <- Hn. apply (@frames_nav_none rt es Hes w1 w'); [|exact Hr].
      unfold navOf in Hn. congruence.
Qed.

End FramesPromote.

(** X12: Animation frames change the navigation state in one way only: a
    queued link becomes the active link of the section that is active, and
    the queue empties.  Without a queued link they change nothing of it. *)
Theorem X12_frames_only_promote_the_queued_link :
  forall (rt : Runtime) (es : list Event) (w w' : World),
    Forall isFrame es ->
    run es w = Some w' ->
    navOf (appSt w') = navOf (appSt w)
    \/ exists l,
         pendingLinkRef (appSt w) = Some l
         /\ navOf (appSt w') = (activeSection (appSt w), Some l, None).
Proof.
  intros rt es w w' Hes Hr. exact (@run_frames_nav rt es Hes w w' Hr).
Qed.

Lemma X12_witness :
  navOf (appSt yogaLinkWorld) = navOf (appSt yogaFlownWorld)
  \/ exists l,
       pendingLinkRef (appSt yogaFlownWorld) = Some l
       /\ navOf (appSt yogaLinkWorld)
          = (activeSection (appSt yogaFlownWorld), Some l, None).
Proof.
  apply (@X12_frames_only_promote_the_queued_link rationalRuntime [Frame 3 1]).
  - repeat constructor.
  - vm_compute. reflexivity.
Defined.

(** X13: When the last reported phase is not parkedAtParent, a click on a
    moon of a section that is not the active one enters that section, leaves
    no link active and queues the link; the frames that follow either keep
    this state or make the queued link the active one. *)
Theorem X13_moon_click_elsewhere_queues_the_link :
  forall (rt : Runtime) (w w1 : World) (sectionId linkId : string),
    cameraPhase (appSt w) <> parkedAtParent ->
    activeSection (appSt w) <> Some sectionId ->
    step (ClickSubSphere sectionId linkId) w = Some w1 ->
    navOf (appSt w1) = (Some sectionId, None, Some linkId)
    /\ forall (frames : list Event) (w' : World),
         Forall isFrame frames ->
         run frames w1 = Some w' ->
         navOf (appSt w') = (Some sectionId, None, Some linkId)
         \/ navOf (appSt w') = (Some sectionId, Some linkId, None).
Proof.
  intros rt w w1 sectionId linkId Hph Hne Hs.
  pose proof (@moon_click_on_other_section_queues rt w w1 sectionId linkId
                Hph Hne Hs) as Hn.
  split; [exact Hn|]. intros frames w' Hf Hr.
  destruct (@run_frames_nav rt frames Hf w1 w' Hr)
    as [H|(l & Hl & H)].
  - left. rewrite H. exact Hn.
  - right. unfold navOf in Hn. injection Hn as H1 H2 H3.
    rewrite H, H1. rewrite H3 in Hl. injection Hl as <-. reflexivity.
Qed.

Lemma X13_witness :
  navOf (appSt yogaQueuedWorld) = (Some "yoga", None, Some "classes")
  /\ forall (frames : list Event) (w' : World),
       Forall isFrame frames ->
       @run rationalRuntime frames yogaQueuedWorld = Some w' ->
       navOf (appSt w') = (Some "yoga", None, Some "classes")
       \/ navOf (appSt w') = (Some "yoga", Some "classes", None).
Proof.
  apply (@X13_moon_click_elsewhere_queues_the_link rationalRuntime homeWorld
           yogaQueuedWorld "yoga" "classes").
  - discriminate.
  - discriminate.
  - vm_compute. reflexivity.
Defined.

(* ================================================================== *)
(** ** What the effects and a frame do to the scene *)
(* ================================================================== *)

Section SceneFrame.
Context {rt : Runtime}.

(** The fly trigger effect writes the animation record and the three
    bookkeeping refs only. *)
Lemma flyEffect_meshes (w w' : World) :
  flyEffect w = Some w' ->
  exists anim mounted prevSection prevLink,
    scene w' = scene w
    \/ scene w' = setFlight (scene w) anim mounted prevSection prevLink.
Proof.
  unfold flyEffect. destruct (cameraRef (scene w)) as [camera|].
  - destruct (negb _).
    + intros [= <-]. do 4 eexists. right. reflexivity.
    + destruct (flyTrigger _ _ _) as [anim|]; cbn [bind]; [|discriminate].
      intros [= <-]. do 4 eexists. right. reflexivity.
  - intros [= <-]. exists initialAnim, true, None, None. left. reflexivity.
Qed.

Lemma commit_meshes (w w' : World) :
  commit w = Some w' ->
  spheresRef (scene w') = spheresRef (scene w)
  /\ subSpheresRef (scene w') = subSpheresRef (scene w)
  /\ zoomRef (scene w') = zoomRef (scene w)
  /\ rotationRef (scene w') = rotationRef (scene w)
  /\ cameraRef (scene w') = cameraRef (scene w).
Proof.
  unfold commit.
  destruct (idEqb _ _ && idEqb _ _); cbn [bind].
  - destruct (Phase_eqb _ _ && idEqb _ _); intros [= <-]; simpl; auto.
  - destruct (flyEffect w) as [w1|] eqn:E; cbn [bind]; [|discriminate].
    destruct (flyEffect_meshes _ E) as (anim & m & ps & pl & [H|H]);
      destruct (Phase_eqb _ _ && idEqb _ _); intros [= <-]; simpl;
      rewrite H; simpl; auto.
Qed.

Lemma settle_meshes (w w' : World) :
  settle w = Some w' ->
  spheresRef (scene w') = spheresRef (scene w)
  /\ subSpheresRef (scene w') = subSpheresRef (scene w)
  /\ zoomRef (scene w') = zoomRef (scene w)
  /\ rotationRef (scene w') = rotationRef (scene w)
  /\ cameraRef (scene w') = cameraRef (scene w).
Proof.
  unfold settle.
  destruct (commit w) as [w1|] eqn:E1; cbn [bind]; [|discriminate].
  intros E2. apply commit_meshes in E1, E2.
  destruct E1 as (A1 & A2 & A3 & A4 & A5), E2 as (B1 & B2 & B3 & B4 & B5).
  repeat split; congruence.
Qed.

(** What [animate] returns when it runs. *)
Lemma animate_inv (time delta : Q) (w w' : World) :
  animate time delta w = Some w' ->
  (sceneReady (scene w) = false /\ w' = w)
  \/ exists camera rotation zoom camera1 anim1 report subSpheres positions,
       sceneReady (scene w) = true
       /\ cameraRef (scene w) = Some camera
       /\ animateCamera time delta (appSt w) (scene w) camera rotation zoom
          = Some (camera1, anim1, report)
       /\ mapiM (updateSubs time (appSt w)
                   (mapi (updateSphere time (appSt w) (torusCurve (scene w)))
                         0 (spheresRef (scene w))))
                0 (subSpheresRef (scene w)) = Some subSpheres
       /\ screenPositions (appSt w) camera1 subSpheres = Some positions
       /\ cameraRef (scene w') = Some camera1
       /\ cameraAnimRef (scene w') = anim1
       /\ spheresRef (scene w')
          = mapi (updateSphere time (appSt w) (torusCurve (scene w)))
                 0 (spheresRef (scene w))
       /\ subSpheresRef (scene w') = subSpheres
       /\ zoomRef (scene w')
          = zoomRef (scene w)
            + (targetZoomRef (pointer w) - zoomRef (scene w)) * (5 # 100)
       /\ appSt w'
          = (let a1 := match report with
                       | Some (ph, pr) => handleCameraProgress ph pr (appSt w)
                       | None => appSt w
                       end in
             match positions with
             | Some ps => setSubSpherePositions ps a1
             | None => a1
             end).
Proof.
  unfold animate, sceneReady.
  destruct (cameraRef (scene w)) as [camera|]; [|intros [= <-]; left; auto].
  destruct (Nat.eqb (List.length (spheresRef (scene w))) 0);
    [intros [= <-]; left; auto|].
  destruct (Nat.eqb (List.length (subSpheresRef (scene w))) 0);
    [intros [= <-]; left; auto|].
  cbn [orb negb andb].
  destruct (animateCamera _ _ _ _ _ _ _) as [[[c1 a1] report]|] eqn:Ec;
    cbn [bind]; [|discriminate].
  destruct (mapiM _ _ _) as [subs|] eqn:Em; cbn [bind]; [|discriminate].
  destruct (screenPositions _ _ _) as [positions|] eqn:Ep; cbn [bind];
    [|discriminate].
  intros [= <-]. right.
  do 8 eexists. split; [reflexivity|]. split; [reflexivity|].
  split; [exact Ec|]. split; [reflexivity|]. split; [exact Ep|].
  cbn [scene appSt cameraRef cameraAnimRef spheresRef subSpheresRef zoomRef].
  repeat split; reflexivity.
Qed.

End SceneFrame.

(* ================================================================== *)
(** ** The smoothed zoom *)
(* ================================================================== *)

Section SmoothedZoom.
Context {rt : Runtime}.

Lemma step_zoomSmoothed (e : Event) (w w' : World) :
  zoomInRange (pointer w) -> zoomSmoothedInRange (scene w) ->
  step e w = Some w' ->
  zoomInRange (pointer w') /\ zoomSmoothedInRange (scene w').
Proof.
  intros Hp Hz. unfold step.
  destruct (handle e w) as [w1|] eqn:Eh; cbn [bind]; [|discriminate].
  intros Hs.
  pose proof (@handle_zoom rt e w w1 Hp Eh) as Hp1.
  rewrite <- (@settle_pointer rt w1 w' Hs) in Hp1.
  split; [exact Hp1|].
  destruct (settle_meshes _ Hs) as (_ & _ & Ez & _).
  unfold zoomSmoothedInRange. rewrite Ez.
  assert (Hsc : ~ isFrame e -> zoomRef (scene w1) = zoomRef (scene w)).
  { intros Hnf. rewrite (@handle_scene rt e w w1 Hnf Eh). reflexivity. }
  destruct e; try (rewrite Hsc by (intros H; exact H); exact Hz).
  cbn [handle] in Eh.
  destruct (animate_inv _ _ _ Eh) as [[_ ->]|H]; [exact Hz|].
  destruct H as (camera & rotation & zoom & camera1 & anim1 & report & subs
                 & positions & _ & _ & _ & _ & _ & _ & _ & _ & _ & E & _).
  rewrite E. destruct Hp as [Hp2 Hp8], Hz as [Hz2 Hz8]. split; lra.
Qed.

Lemma run_zoomSmoothed (es : list Event) :
  forall w w' : World,
    zoomInRange (pointer w) -> zoomSmoothedInRange (scene w) ->
    run es w = Some w' ->
    zoomInRange (pointer w') /\ zoomSmoothedInRange (scene w').
Proof.
  induction es as [|e es IH]; intros w w' Hp Hz; cbn [run].
  - intros [= <-]. auto.
  - destruct (step e w) as [w1|] eqn:Es; cbn [bind]; [|discriminate].
    destruct (@step_zoomSmoothed e w w1 Hp Hz Es) as [Hp1 Hz1].
    apply IH; assumption.
Qed.

Lemma mount_meshes (w0 : World) :
  mount initialWorld = Some w0 ->
  spheresRef (scene w0) = map (fun _ => mkSphere vzero 1 (25 # 100)) SECTIONS
  /\ subSpheresRef (scene w0)
     = map (fun sec => map (fun _ => mkSub vzero (8 # 10) (2 # 10) None None)
                           (links sec)) SECTIONS
  /\ zoomRef (scene w0) = 45 # 10.
Proof.
  unfold mount.
  destruct (flyEffect _) as [w2|] eqn:E; cbn [bind]; [|discriminate].
  intros Hs. destruct (settle_meshes _ Hs) as (E1 & E2 & E3 & _).
  rewrite E1, E2, E3. cbn [scene].
  destruct (flyEffect_meshes _ E) as (anim & m & ps & pl & [H|H]);
    rewrite H; auto.
Qed.

End SmoothedZoom.

(** X14: The zoom radius the camera uses at home, which follows the zoom
    target by five percent of the gap on each frame, is within [2, 8] in
    every state the program reaches from mounting. *)
Theorem X14_smoothed_zoom_stays_in_range :
  forall (rt : Runtime) (es : list Event) (w0 w : World),
    mount initialWorld = Some w0 ->
    run es w0 = Some w ->
    zoomSmoothedInRange (scene w).
Proof.
  intros rt es w0 w Hm Hr.
  apply (@run_zoomSmoothed rt es w0 w); [| |exact Hr].
  - rewrite (@mount_pointer rt w0 Hm). split; discriminate.
  - destruct (@mount_meshes rt w0 Hm) as (_ & _ & E).
    unfold zoomSmoothedInRange. rewrite E. split; discriminate.
Qed.

Lemma X14_witness : zoomSmoothedInRange (scene homeWorld).
Proof.
  apply (@X14_smoothed_zoom_stays_in_range rationalRuntime [Frame 1 (1 # 60)]
           mountedWorld).
  - vm_compute. reflexivity.
  - vm_compute. reflexivity.
Defined.

(* ================================================================== *)
(** ** Opacities of the planets and the moons *)
(* ================================================================== *)

Lemma Forall_mapi {A B : Type} (P : A -> Prop) (Q : B -> Prop)
  (f : nat -> A -> B) (xs : list A) :
  (forall i x, P x -> Q (f i x)) ->
  forall i, Forall P xs -> Forall Q (mapi f i xs).
Proof.
  intros Hf. induction xs as [|x xs IH]; intros i H; cbn [mapi].
  - constructor.
  - inversion H; subst. constructor; [apply Hf; assumption | apply IH; assumption].
Qed.

Lemma Forall_mapiM {A B : Type} (P : A -> Prop) (Q : B -> Prop)
  (f : nat -> A -> option B) (xs : list A) :
  (forall i x y, P x -> f i x = Some y -> Q y) ->
  forall i ys, Forall P xs -> mapiM f i xs = Some ys -> Forall Q ys.
Proof.
  intros Hf. induction xs as [|x xs IH]; intros i ys H; cbn [mapiM].
  - intros [= <-]. constructor.
  - inversion H; subst.
    destruct (f i x) as [y|] eqn:Ey; cbn [bind]; [|discriminate].
    destruct (mapiM f (S i) xs) as [ys'|] eqn:Em; cbn [bind]; [|discriminate].
    intros [= <-]. constructor.
    + exact (Hf i x y H2 Ey).
    + exact (IH (S i) ys' H3 Em).
Qed.

Section MoonInvariant.
Context {rt : Runtime}.
Variable P : SubSphere -> Prop.
Hypothesis P_updateSub :
  forall (time : Q) (a : App) (parent : Sphere) (section : SectionData)
         (sIdx lIdx : nat) (sub sub' : SubSphere),
    P sub -> updateSub time a parent section sIdx lIdx sub = Some sub' ->
    P sub'.

Lemma updateSubs_moons (time : Q) (a : App) (spheres : list Sphere)
  (sIdx : nat) (subs subs' : list SubSphere) :
  Forall P subs -> updateSubs time a spheres sIdx subs = Some subs' ->
  Forall P subs'.
Proof.
  intros H. unfold updateSubs.
  destruct (nth_error spheres sIdx) as [parent|]; [|intros [= <-]; exact H].
  destruct (nth_error SECTIONS sIdx) as [section|]; [|intros [= <-]; exact H].
  apply Forall_mapiM with (P := P); [|exact H].
  intros i x y Hx Hy. exact (P_updateSub _ _ _ _ _ _ Hx Hy).
Qed.

Lemma step_moons (e : Event) (w w' : World) :
  Forall (Forall P) (subSpheresRef (scene w)) -> step e w = Some w' ->
  Forall (Forall P) (subSpheresRef (scene w')).
Proof.
  intros Ho. unfold step.
  destruct (handle e w) as [w1|] eqn:Eh; cbn [bind]; [|discriminate].
  intros Hs. destruct (settle_meshes _ Hs) as (_ & E2 & _). rewrite E2.
  assert (Hsc : ~ isFrame e -> scene w1 = scene w).
  { intros Hnf. exact (@handle_scene rt e w w1 Hnf Eh). }
  destruct e; try (rewrite Hsc by (intros H; exact H); exact Ho).
  cbn [handle] in Eh.
  destruct (animate_inv _ _ _ Eh) as [[_ ->]|H]; [exact Ho|].
  destruct H as (camera & rotation & zoom & camera1 & anim1 & report & subs
                 & positions & _ & _ & _ & Em & _ & _ & _ & _ & Esub & _).
  rewrite Esub.
  exact (@Forall_mapiM _ _ (Forall P) (Forall P) _ _
           (fun i x y Hx Hy => @updateSubs_moons _ _ _ _ _ _ Hx Hy)
           0%nat subs Ho Em).
Qed.

Lemma run_moons (es : list Event) :
  forall w w' : World,
    Forall (Forall P) (subSpheresRef (scene w)) -> run es w = Some w' ->
    Forall (Forall P) (subSpheresRef (scene w')).
Proof.
  induction es as [|e es IH]; intros w w' Ho; cbn [run].
  - intros [= <-]. exact Ho.
  - destruct (step e w) as [w1|] eqn:Es; cbn [bind]; [|discriminate].
    apply IH. exact (@step_moons e w w1 Ho Es).
Qed.

End MoonInvariant.

Section Opacities.
Context {rt : Runtime}.

Lemma updateSphere_opacity (time : Q) (a : App) (cache : option Curve)
  (index : nat) (sphere : Sphere) :
  6 # 100 <= sphere_opacity sphere /\ sphere_opacity sphere <= 1 ->
  6 # 100 <= sphere_opacity (updateSphere time a cache index sphere)
  /\ sphere_opacity (updateSphere time a cache index sphere) <= 1.
Proof.
  intros [H1 H2]. unfold updateSphere.
  destruct (nth_error SECTIONS index) as [section|]; [|auto].
  destruct (truthy (activeSection a)); cbn [sphere_opacity].
  - destruct (idIs (activeSection a) (section_id section));
      [destruct (truthy (activeLink a))|]; split; lra.
  - split; lra.
Qed.

Lemma updateSub_opacity (time : Q) (a : App) (parent : Sphere)
  (section : SectionData) (sIdx lIdx : nat) (sub sub' : SubSphere) :
  15 # 100 <= sub_opacity sub /\ sub_opacity sub <= 1 ->
  updateSub time a parent section sIdx lIdx sub = Some sub' ->
  15 # 100 <= sub_opacity sub' /\ sub_opacity sub' <= 1.
Proof.
  intros [H1 H2]. unfold updateSub.
  destruct (if idIs (activeSection a) (section_id section)
            then link <- nth_error (links section) lIdx ;;
                 Some (idIs (activeLink a) (link_id link))
            else Some false) as [isActiveLink|]; cbn [bind]; [|discriminate].
  intros [= <-]. cbn [sub_opacity].
  destruct (truthy (activeLink a) && idIs (activeSection a) (section_id section));
    [destruct isActiveLink
    |destruct (idIs (activeSection a) (section_id section))]; split; lra.
Qed.

Lemma step_planets (e : Event) (w w' : World) :
  Forall (fun sp => 6 # 100 <= sphere_opacity sp /\ sphere_opacity sp <= 1)
         (spheresRef (scene w)) ->
  step e w = Some w' ->
  Forall (fun sp => 6 # 100 <= sphere_opacity sp /\ sphere_opacity sp <= 1)
         (spheresRef (scene w')).
Proof.
  intros Ho. unfold step.
  destruct (handle e w) as [w1|] eqn:Eh; cbn [bind]; [|discriminate].
  intros Hs. destruct (settle_meshes _ Hs) as (E1 & _). rewrite E1.
  assert (Hsc : ~ isFrame e -> scene w1 = scene w).
  { intros Hnf. exact (@handle_scene rt e w w1 Hnf Eh). }
  destruct e; try (rewrite Hsc by (intros H; exact H); exact Ho).
  cbn [handle] in Eh.
  destruct (animate_inv _ _ _ Eh) as [[_ ->]|H]; [exact Ho|].
  destruct H as (camera & rotation & zoom & camera1 & anim1 & report & subs
                 & positions & _ & _ & _ & _ & _ & _ & _ & Esp & _).
  rewrite Esp.
  apply Forall_mapi with (P := fun sp => 6 # 100 <= sphere_opacity sp
                                         /\ sphere_opacity sp <= 1);
    [|exact Ho].
  intros i x Hx. apply updateSphere_opacity. exact Hx.
Qed.

Lemma run_planets (es : list Event) :
  forall w w' : World,
    Forall (fun sp => 6 # 100 <= sphere_opacity sp /\ sphere_opacity sp <= 1)
           (spheresRef (scene w)) ->
    run es w = Some w' ->
    Forall (fun sp => 6 # 100 <= sphere_opacity sp /\ sphere_opacity sp <= 1)
           (spheresRef (scene w')).
Proof.
  induction es as [|e es IH]; intros w w' Ho; cbn [run].
  - intros [= <-]. exact Ho.
  - destruct (step e w) as [w1|] eqn:Es; cbn [bind]; [|discriminate].
    apply IH. exact (@step_planets e w w1 Ho Es).
Qed.

End Opacities.

(** X15: In every state the program reaches from mounting the opacity of
    each planet is within [0.06, 1] and the opacity of each moon within
    [0.15, 1]: the easing toward the target opacities never overshoots. *)
Theorem X15_opacities_stay_in_range :
  forall (rt : Runtime) (es : list Event) (w0 w : World),
    mount initialWorld = Some w0 ->
    run es w0 = Some w ->
    opacitiesInRange (scene w).
Proof.
  intros rt es w0 w Hm Hr.
  destruct (@mount_meshes rt w0 Hm) as (E1 & E2 & _).
  split.
  - apply (@run_planets rt es w0 w); [|exact Hr]. rewrite E1.
    apply Forall_map, Forall_forall. intros sec _. simpl. split; discriminate.
  - apply (@run_moons rt _ (@updateSub_opacity rt) es w0 w); [|exact Hr].
    rewrite E2. apply Forall_map, Forall_forall. intros sec _.
    apply Forall_map, Forall_forall. intros lk _. simpl. split; discriminate.
Qed.

Lemma X15_witness : opacitiesInRange (scene parkedArtWorld).
Proof.
  apply (@X15_opacities_stay_in_range rationalRuntime
           [NavSection "art"; Frame 1 3; Frame 2 1] mountedWorld).
  - vm_compute. reflexivity.
  - vm_compute. reflexivity.
Defined.

(* ================================================================== *)
(** ** The progress of a flight *)
(* ================================================================== *)

Lemma Qgeb_true (a b : Q) : Qgeb a b = true <-> b <= a.
Proof. unfold Qgeb. apply Qle_bool_iff. Qed.

Lemma Qgeb_false (a b : Q) : Qgeb a b = false <-> a < b.
Proof.
  unfold Qgeb. split.
  - intros H. apply Qnot_le_lt. intros Hle. apply Qle_bool_iff in Hle.
    congruence.
  - intros H. destruct (Qle_bool b a) eqn:E; [|reflexivity].
    apply Qle_bool_iff in E. exfalso. exact (Qlt_not_le _ _ H E).
Qed.

Section FlightProgress.
Context {rt : Runtime}.

(** The camera step of [animate], case by case.  During a flight the camera
    is on the segment from the start pose to the end pose of the flight, at
    the eased progress. *)
Lemma animateCamera_inv (time delta : Q) (a : App) (s : Scene)
  (camera : Camera) (rotation : XY) (zoom : Q) (camera1 : Camera)
  (anim1 : CameraAnim) (report : option (Phase * Q)) :
  animateCamera time delta a s camera rotation zoom
  = Some (camera1, anim1, report) ->
  let anim := cameraAnimRef s in
  (active anim = false /\ anim1 = anim
   /\ (report = None \/ exists ph, report = Some (ph, 0)))
  \/ (active anim = true
      /\ exists endP lookEnd : Vec3,
           let p1 := progress anim + delta / duration anim in
           let p2 := if Qgeb p1 1 then 1 else p1 in
           let t := easeInOutCubic p2 in
           camera1 = mkCamera (lerpVectors (startPos anim) endP t)
                              (upY camera)
                              (lerpVectors (startLookAt anim) lookEnd t)
           /\ anim1 = mkAnim (if Qgeb p1 1 then false else true) (phase anim)
                             (startPos anim) (endPos anim) (startLookAt anim)
                             (endLookAt anim)
                             (Some (lerpVectors (startLookAt anim) lookEnd t))
                             p2 (duration anim) (targetSectionIndex anim)
                             (targetLinkIndex anim)
           /\ report = Some (phase anim, p2)
           /\ ((phase anim = flyToParent
                /\ exists sphere,
                     at_ (spheresRef s) (targetSectionIndex anim) = Some sphere
                     /\ lookEnd = sphere_position sphere
                     /\ endP = vadd (vadd (sphere_position sphere)
                                          (multiplyScalar
                                             (normalize (sphere_position sphere))
                                             (6 # 10)))
                                    (mkVec3 0 (15 # 100) 0))
               \/ (phase anim = flyToSub
                   /\ exists subs sub,
                        at_ (subSpheresRef s) (targetSectionIndex anim)
                        = Some subs
                        /\ at_ subs (targetLinkIndex anim) = Some sub
                        /\ lookEnd = sub_position sub
                        /\ endP = vadd (vadd (sub_position sub)
                                             (multiplyScalar
                                                (normalize (sub_position sub))
                                                (15 # 100)))
                                       (mkVec3 0 (4 # 100) 0))
               \/ (endP = endPos anim /\ lookEnd = endLookAt anim
                   /\ (phase anim = flyToParent ->
                       (targetSectionIndex anim < 0)%Z)
                   /\ (phase anim = flyToSub ->
                       (targetSectionIndex anim < 0)%Z
                       \/ (targetLinkIndex anim < 0)%Z)))).
Proof.
  intros H anim. unfold animateCamera in H. fold anim in H.
  destruct (active anim) eqn:Ha.
  - right. split; [reflexivity|].
    destruct (Phase_eqb (phase anim) flyToParent
              && (0 <=? targetSectionIndex anim)%Z) eqn:E1.
    + apply andb_true_iff in E1. destruct E1 as [Ep Ei].
      apply Phase_eqb_true in Ep.
      destruct (at_ (spheresRef s) (targetSectionIndex anim)) as [sphere|] eqn:Es;
        cbn [bind] in H; [|discriminate].
      injection H as <- <- <-. do 2 eexists.
      split; [reflexivity|]. split; [reflexivity|]. split; [reflexivity|].
      left. split; [exact Ep|]. exists sphere. auto.
    + destruct (Phase_eqb (phase anim) flyToSub
                && (0 <=? targetSectionIndex anim)%Z
                && (0 <=? targetLinkIndex anim)%Z) eqn:E2.
      * apply andb_true_iff in E2. destruct E2 as [E2 El].
        apply andb_true_iff in E2. destruct E2 as [Ep Ei].
        apply Phase_eqb_true in Ep.
        destruct (at_ (subSpheresRef s) (targetSectionIndex anim))
          as [subs|] eqn:Es; cbn [bind] in H; [|discriminate].
        destruct (at_ subs (targetLinkIndex anim)) as [sub|] eqn:Eb;
          cbn [bind] in H; [|discriminate].
        injection H as <- <- <-. do 2 eexists.
        split; [reflexivity|]. split; [reflexivity|]. split; [reflexivity|].
        right. left. split; [exact Ep|]. exists subs, sub. auto.
      * injection H as <- <- <-. do 2 eexists.
        split; [reflexivity|]. split; [reflexivity|]. split; [reflexivity|].
        right. right. split; [reflexivity|]. split; [reflexivity|]. split.
        -- intros Ep. rewrite Ep in E1. cbn [Phase_eqb andb] in E1.
           apply Z.leb_gt in E1. exact E1.
        -- intros Ep. rewrite Ep in E2. cbn [Phase_eqb andb] in E2.
           apply andb_false_iff in E2.
           destruct E2 as [E2|E2]; apply Z.leb_gt in E2; auto.
  - left. split; [reflexivity|].
    destruct (negb (truthy (activeSection a))).
    + injection H as <- <- <-. split; [reflexivity|]. right. eauto.
    + destruct (truthy (activeSection a) && negb (truthy (activeLink a))).
      * destruct (if (0 <=? sectionIndexOf (activeSection a))%Z then _ else _)
          as [c|]; cbn [bind] in H; [|discriminate].
        injection H as <- <- <-. split; [reflexivity|]. right. eauto.
      * destruct (truthy (activeLink a)).
        -- destruct (if (0 <=? sectionIndexOf (activeSection a))%Z
                        && (0 <=? linkIndexOf _ _)%Z then _ else _)
             as [c|]; cbn [bind] in H; [|discriminate].
           injection H as <- <- <-. split; [reflexivity|]. right. eauto.
        -- injection H as <- <- <-. split; [reflexivity|]. left. reflexivity.
Qed.

End FlightProgress.

Lemma flightOK_new (camera : Camera) (prevLink : Id) (old anim : CameraAnim) :
  NewFlight camera prevLink old anim -> flightOK anim.
Proof.
  intros H. destruct H; unfold flightOK; cbn [progress duration active];
    repeat split; try discriminate; try reflexivity.
  destruct (truthy prevLink); reflexivity.
Qed.

Lemma handleClick_progress (hit : Hit) (w w' : World) :
  handleClick hit w = Some w' ->
  cameraProgress (appSt w') = cameraProgress (appSt w).
Proof.
  unfold handleClick, dispatchHit.
  destruct (_ || _); [intros [= <-]; reflexivity|].
  destruct hit as [|idx|sIdx lIdx].
  - intros [= <-]; reflexivity.
  - destruct (negb _); [|intros [= <-]; reflexivity].
    destruct (0 <=? idx)%Z; [|intros [= <-]; reflexivity].
    destruct (nth_error SECTIONS _); cbn [bind]; [|discriminate].
    intros [= <-]. cbn [appSt withApp]. unfold handleClickSection.
    destruct (_ && _); reflexivity.
  - destruct (_ && _); [|intros [= <-]; reflexivity].
    destruct (at_ (subSpheresRef (scene w)) sIdx) as [subs|]; cbn [bind];
      [|discriminate].
    destruct (at_ subs lIdx) as [sub|]; cbn [bind]; [|discriminate].
    destruct (Qgtb _ _); [|intros [= <-]; reflexivity].
    destruct (at_ SECTIONS sIdx) as [s|]; cbn [bind]; [|discriminate].
    destruct (at_ (links s) lIdx); cbn [bind]; [|discriminate].
    intros [= <-]. cbn [appSt withApp]. unfold handleClickSubSphere.
    destruct (negb _); [reflexivity|]. destruct (Phase_eqb _ _); reflexivity.
Qed.

Section FlightInvariant.
Context {rt : Runtime}.

Lemma handle_progress (e : Event) (w w' : World) :
  ~ isFrame e -> handle e w = Some w' ->
  cameraProgress (appSt w') = cameraProgress (appSt w).
Proof.
  intros Hnf. destruct e; cbn [handle]; try (intros [= <-]; reflexivity).
  - intros [= <-]. unfold onMD. destruct (active _); reflexivity.
  - intros [= <-]. unfold onMM. destruct (negb _); reflexivity.
  - unfold onMU. destruct (negb _).
    + destruct (handleClick hit w) as [w1|] eqn:E; cbn [bind]; [|discriminate].
      intros [= <-]. exact (handleClick_progress _ _ E).
    + cbn [bind]. intros [= <-]. reflexivity.
  - intros [= <-]. unfold onWH. destruct (_ || _); reflexivity.
  - intros [= <-]. unfold onTS. destruct (active _); [reflexivity|].
    destruct touches as [|t0 [|t1 [|]]]; reflexivity.
  - intros [= <-]. unfold onTM.
    destruct touches as [|t0 [|t1 [|]]]; try reflexivity.
    + destruct (isDraggingRef _); reflexivity.
    + destruct (pinchStartRef _); [|reflexivity]. destruct (negb _); reflexivity.
  - unfold onTE. destruct (_ && _).
    + destruct (handleClick hit w) as [w1|] eqn:E; cbn [bind]; [|discriminate].
      intros [= <-]. exact (handleClick_progress _ _ E).
    + cbn [bind]. intros [= <-]. reflexivity.
  - simpl in Hnf. contradiction.
  - intros [= <-]. cbn [appSt withApp]. unfold handleClickSection.
    destruct (_ && _); reflexivity.
  - intros [= <-]. cbn [appSt withApp]. unfold handleClickSubSphere.
    destruct (negb _); [reflexivity|]. destruct (Phase_eqb _ _); reflexivity.
  - intros [= <-]. cbn [appSt withApp]. unfold navLogoClick.
    destruct (truthy (activeLink _)); [reflexivity|].
    destruct (truthy (activeSection _)); reflexivity.
  - intros [= <-]. cbn [appSt withApp]. unfold navSectionClick, handleClickSection.
    destruct (_ && _); [reflexivity|].
    destruct (idIs _ _); [reflexivity|]. cbn [andb]. reflexivity.
Qed.

Lemma pendingLinkEffect_progress (a : App) :
  cameraProgress (pendingLinkEffect a) = cameraProgress a.
Proof. unfold pendingLinkEffect. destruct (_ && _); reflexivity. Qed.

Lemma settle_progress (w w' : World) :
  settle w = Some w' -> cameraProgress (appSt w') = cameraProgress (appSt w).
Proof.
  intros Hs. apply settle_result in Hs. destruct Hs as [_ [E|E]]; rewrite E.
  - reflexivity.
  - apply pendingLinkEffect_progress.
Qed.

Lemma flyEffect_flightOK (w w' : World) :
  flightOK (cameraAnimRef (scene w)) -> flyEffect w = Some w' ->
  flightOK (cameraAnimRef (scene w')).
Proof.
  intros H. unfold flyEffect.
  destruct (cameraRef (scene w)) as [camera|]; [|intros [= <-]; exact H].
  destruct (negb _); [intros [= <-]; exact H|].
  destruct (flyTrigger camera (appSt w) (scene w)) as [anim|] eqn:E;
    cbn [bind]; [|discriminate].
  intros [= <-]. cbn [scene withScene setFlight cameraAnimRef].
  destruct (@flyTrigger_cases rt camera (appSt w) (scene w) anim E) as [->|Hn].
  - exact H.
  - exact (@flightOK_new _ _ _ _ Hn).
Qed.

Lemma commit_flightOK (w w' : World) :
  flightOK (cameraAnimRef (scene w)) -> commit w = Some w' ->
  flightOK (cameraAnimRef (scene w')).
Proof.
  intros H. unfold commit.
  destruct (idEqb _ _ && idEqb _ _); cbn [bind].
  - destruct (Phase_eqb _ _ && idEqb _ _); intros [= <-]; exact H.
  - destruct (flyEffect w) as [w1|] eqn:E; cbn [bind]; [|discriminate].
    pose proof (@flyEffect_flightOK w w1 H E) as H1.
    destruct (Phase_eqb _ _ && idEqb _ _); intros [= <-]; exact H1.
Qed.

Lemma settle_flightOK (w w' : World) :
  flightOK (cameraAnimRef (scene w)) -> settle w = Some w' ->
  flightOK (cameraAnimRef (scene w')).
Proof.
  intros H. unfold settle.
  destruct (commit w) as [w1|] eqn:E1; cbn [bind]; [|discriminate].
  apply commit_flightOK. exact (@commit_flightOK w w1 H E1).
Qed.

Lemma Qdiv_nonneg (a b : Q) : 0 <= a -> 0 < b -> 0 <= a / b.
Proof.
  intros Ha Hb. apply Qle_shift_div_l; [exact Hb|]. lra.
Qed.

Lemma animate_flightOK (time delta : Q) (w w' : World) :
  0 <= delta ->
  flightOK (cameraAnimRef (scene w)) ->
  0 <= cameraProgress (appSt w) /\ cameraProgress (appSt w) <= 1 ->
  animate time delta w = Some w' ->
  flightOK (cameraAnimRef (scene w'))
  /\ 0 <= cameraProgress (appSt w') /\ cameraProgress (appSt w') <= 1.
Proof.
  intros Hd Hf Hc Ha.
  destruct (animate_inv _ _ _ Ha) as [[_ ->]|H]; [auto|].
  destruct H as (camera & rotation & zoom & camera1 & anim1 & report & subs
                 & positions & _ & _ & Ec & _ & _ & _ & Ea & _ & _ & _ & Eapp).
  rewrite Ea, Eapp.
  assert (Hpr : forall (a : App) (ps : option (list ScreenPos)),
             cameraProgress (match ps with
                             | Some p => setSubSpherePositions p a
                             | None => a
                             end) = cameraProgress a).
  { intros a [p|]; reflexivity. }
  cbv zeta. rewrite Hpr.
  destruct Hf as (Hp0 & Hp1 & Hdur & Hact).
  destruct (animateCamera_inv _ _ _ _ _ _ _ Ec)
    as [(Hin & -> & Hrep)|(Hin & endP & lookEnd & _ & -> & -> & _)].
  - split; [unfold flightOK; auto|].
    destruct Hrep as [->|[ph ->]]; [exact Hc|].
    cbn [handleCameraProgress cameraProgress]. split; discriminate.
  - pose proof (@Qdiv_nonneg delta (duration (cameraAnimRef (scene w))) Hd Hdur)
      as Hq.
    set (p1 := progress (cameraAnimRef (scene w))
               + delta / duration (cameraAnimRef (scene w))) in *.
    assert (H0 : 0 <= p1) by (unfold p1; lra).
    unfold flightOK. cbn [progress duration active handleCameraProgress
                          cameraProgress].
    destruct (Qgeb p1 1) eqn:Eg.
    + repeat split; try discriminate; exact Hdur.
    + apply Qgeb_false in Eg.
      repeat split; try exact H0; try exact Hdur; try lra; intros _; exact Eg.
Qed.

Lemma step_flightOK (e : Event) (w w' : World) :
  frameOK e ->
  flightOK (cameraAnimRef (scene w)) ->
  0 <= cameraProgress (appSt w) /\ cameraProgress (appSt w) <= 1 ->
  step e w = Some w' ->
  flightOK (cameraAnimRef (scene w'))
  /\ 0 <= cameraProgress (appSt w') /\ cameraProgress (appSt w') <= 1.
Proof.
  intros He Hf Hc. unfold step.
  destruct (handle e w) as [w1|] eqn:Eh; cbn [bind]; [|discriminate].
  intros Hs. rewrite (settle_progress _ Hs).
  assert (H1 : flightOK (cameraAnimRef (scene w1))
               /\ 0 <= cameraProgress (appSt w1)
               /\ cameraProgress (appSt w1) <= 1).
  { assert (Hnf : ~ isFrame e ->
                  flightOK (cameraAnimRef (scene w1))
                  /\ 0 <= cameraProgress (appSt w1)
                  /\ cameraProgress (appSt w1) <= 1).
    { intros Hnf. rewrite (@handle_scene rt e w w1 Hnf Eh),
        (@handle_progress e w w1 Hnf Eh). auto. }
    destruct e; try (apply Hnf; intros H; exact H).
    cbn [handle] in Eh. cbn [frameOK] in He.
    exact (@animate_flightOK time delta w w1 He Hf Hc Eh). }
  destruct H1 as [H1 H2]. split; [|exact H2].
  exact (@settle_flightOK w1 w' H1 Hs).
Qed.

Lemma run_flightOK (es : list Event) :
  Forall frameOK es ->
  forall w w' : World,
    flightOK (cameraAnimRef (scene w)) ->
    0 <= cameraProgress (appSt w) /\ cameraProgress (appSt w) <= 1 ->
    run es w = Some w' ->
    flightOK (cameraAnimRef (scene w'))
    /\ 0 <= cameraProgress (appSt w') /\ cameraProgress (appSt w') <= 1.
Proof.
  induction 1 as [|e es He _ IH]; intros w w' Hf Hc; cbn [run].
  - intros [= <-]. auto.
  - destruct (step e w) as [w1|] eqn:Es; cbn [bind]; [|discriminate].
    destruct (@step_flightOK e w w1 He Hf Hc Es) as [Hf1 Hc1].
    apply IH; assumption.
Qed.

Lemma mount_flightOK (w0 : World) :
  mount initialWorld = Some w0 ->
  flightOK (cameraAnimRef (scene w0)).
Proof.
  unfold mount.
  destruct (flyEffect _) as [w2|] eqn:E; cbn [bind]; [|discriminate].
  apply settle_flightOK. cbn [scene].
  apply (@flyEffect_flightOK _ w2) in E; [exact E|].
  cbn [scene withScene initEffect cameraAnimRef initialWorld initialScene].
  unfold flightOK, initialAnim. cbn [progress duration active].
  repeat split; discriminate.
Qed.

End FlightInvariant.

(** X16: In every state the program reaches from mounting by frames whose
    time deltas are not negative, the progress of the animation record is
    within [0, 1] and below 1 while the flight is active, its duration is
    positive, and the progress reported to the overlays is within [0, 1]. *)
Theorem X16_flight_progress_stays_in_unit_interval :
  forall (rt : Runtime) (es : list Event) (w0 w : World),
    mount initialWorld = Some w0 ->
    Forall frameOK es ->
    run es w0 = Some w ->
    flightOK (cameraAnimRef (scene w))
    /\ 0 <= cameraProgress (appSt w) /\ cameraProgress (appSt w) <= 1.
Proof.
  intros rt es w0 w Hm Hes Hr.
  apply (@run_flightOK rt es Hes w0 w); [| |exact Hr].
  - exact (@mount_flightOK rt w0 Hm).
  - rewrite (@mount_app rt w0 Hm). split; discriminate.
Qed.

Lemma X16_witness :
  flightOK (cameraAnimRef (scene queuedWorld))
  /\ 0 <= cameraProgress (appSt queuedWorld)
  /\ cameraProgress (appSt queuedWorld) <= 1.
Proof.
  apply (@X16_flight_progress_stays_in_unit_interval rationalRuntime queuedTrace
           mountedWorld).
  - vm_compute. reflexivity.
  - repeat constructor. discriminate.
  - vm_compute. reflexivity.
Defined.

(* ================================================================== *)
(** ** The last frame of a flight *)
(* ================================================================== *)

(** X17: The frame on which the progress of a flight reaches 1 ends the
    flight: the progress is set to 1, the record is no longer active, and
    the frame reports the phase of the flight with progress 1.  The camera
    is put at the interpolation from the start pose of the flight to its end
    pose at the weight [easeInOutCubic(1)], which is 1, and the record
    keeps the point the camera looks at.  The end pose is the home position
    fixed at the start for a flight home, and the offset position beside the
    planet or the moon, as it is on that frame, for a flight to a section or
    a link, looking at its centre. *)
Theorem X17_last_frame_of_a_flight :
  forall (rt : Runtime) (time delta : Q) (w w' : World),
    active (cameraAnimRef (scene w)) = true ->
    1 <= progress (cameraAnimRef (scene w))
         + delta / duration (cameraAnimRef (scene w)) ->
    sceneReady (scene w) = true ->
    animate time delta w = Some w' ->
    let anim := cameraAnimRef (scene w) in
    let anim' := cameraAnimRef (scene w') in
    let t := easeInOutCubic 1 in
    active anim' = false /\ progress anim' = 1
    /\ cameraPhase (appSt w') = phase anim
    /\ cameraProgress (appSt w') = 1
    /\ t == 1
    /\ exists camera',
         cameraRef (scene w') = Some camera'
         /\ currentLookAt anim' = Some (lookTarget camera')
         /\ (phase anim = flyHome ->
             position camera' = lerpVectors (startPos anim) (endPos anim) t
             /\ lookTarget camera'
                = lerpVectors (startLookAt anim) (endLookAt anim) t)
         /\ (forall sphere,
               phase anim = flyToParent ->
               at_ (spheresRef (scene w)) (targetSectionIndex anim)
               = Some sphere ->
               position camera'
               = lerpVectors (startPos anim)
                   (vadd (vadd (sphere_position sphere)
                               (multiplyScalar
                                  (normalize (sphere_position sphere)) (6 # 10)))
                         (mkVec3 0 (15 # 100) 0)) t
               /\ lookTarget camera'
                  = lerpVectors (startLookAt anim) (sphere_position sphere) t)
         /\ (forall subs sub,
               phase anim = flyToSub ->
               at_ (subSpheresRef (scene w)) (targetSectionIndex anim)
               = Some subs ->
               at_ subs (targetLinkIndex anim) = Some sub ->
               position camera'
               = lerpVectors (startPos anim)
                   (vadd (vadd (sub_position sub)
                               (multiplyScalar
                                  (normalize (sub_position sub)) (15 # 100)))
                         (mkVec3 0 (4 # 100) 0)) t
               /\ lookTarget camera'
                  = lerpVectors (startLookAt anim) (sub_position sub) t).
Proof.
  intros rt time delta w w' Hact Hdone Hready Ha anim anim' t.
  destruct (animate_inv _ _ _ Ha) as [[Hnr _]|H]; [congruence|].
  destruct H as (camera & rotation & zoom & camera1 & anim1 & report & subs
                 & positions & _ & _ & Ec & _ & _ & Ecam & Ean & _ & _ & _
                 & Eapp).
  assert (Hrep : forall (a : App) (ps : option (list ScreenPos)),
             cameraProgress (match ps with
                             | Some p => setSubSpherePositions p a
                             | None => a
                             end) = cameraProgress a
             /\ cameraPhase (match ps with
                             | Some p => setSubSpherePositions p a
                             | None => a
                             end) = cameraPhase a).
  { intros a [p|]; split; reflexivity. }
  destruct (animateCamera_inv _ _ _ _ _ _ _ Ec)
    as [(Hin & _)|(_ & endP & lookEnd & Hc1 & Ha1 & Hr1 & Hend)];
    [fold anim in Hin; unfold anim in Hin; congruence|].
  fold anim in Hc1, Ha1, Hr1, Hend.
  apply Qgeb_true in Hdone. fold anim in Hdone.
  cbv zeta in Hc1, Ha1, Hr1. rewrite Hdone in Hc1, Ha1, Hr1.
  fold t in Hc1, Ha1.
  unfold anim'. rewrite Ean, Ha1, Eapp, Hr1. cbv zeta.
  destruct (Hrep (handleCameraProgress (phase anim) 1 (appSt w)) positions)
    as [E1 E2].
  rewrite E1, E2. cbn [active progress handleCameraProgress cameraPhase
                       cameraProgress currentLookAt].
  split; [reflexivity|]. split; [reflexivity|].
  split; [reflexivity|]. split; [reflexivity|].
  split; [reflexivity|].
  exists camera1. split; [exact Ecam|].
  rewrite Hc1. cbn [position lookTarget].
  split; [reflexivity|].
  split; [|split].
  - intros Hph.
    destruct Hend as [(Hp & _)|[(Hp & _)|(-> & -> & _)]]; try congruence.
    split; reflexivity.
  - intros sphere Hph Hs.
    destruct Hend as [(_ & sp & Hsp & -> & ->)|[(Hp & _)|(_ & _ & Hneg & _)]].
    + assert (sp = sphere) by congruence. subst sp.
      split; reflexivity.
    + congruence.
    + specialize (Hneg Hph). apply at_bound in Hs. lia.
  - intros sbs sub Hph Hs Hb.
    destruct Hend
      as [(Hp & _)|[(_ & sbs' & sub' & Hs' & Hb' & -> & ->)|(_ & _ & _ & Hneg)]].
    + congruence.
    + assert (sbs' = sbs) by congruence. subst sbs'.
      assert (sub' = sub) by congruence. subst sub'.
      split; reflexivity.
    + apply at_bound in Hs, Hb. destruct (Hneg Hph); lia.
Qed.

Lemma X17_witness :
  let w' := match @animate rationalRuntime 2 3 queuedWorld with
            | Some w1 => w1
            | None => queuedWorld
            end in
  let anim := cameraAnimRef (scene queuedWorld) in
  let anim' := cameraAnimRef (scene w') in
  let t := easeInOutCubic 1 in
  active anim' = false /\ progress anim' = 1
  /\ cameraPhase (appSt w') = phase anim
  /\ cameraProgress (appSt w') = 1
  /\ t == 1
  /\ exists camera',
       cameraRef (scene w') = Some camera'
       /\ currentLookAt anim' = Some (lookTarget camera')
       /\ (phase anim = flyHome ->
           position camera' = lerpVectors (startPos anim) (endPos anim) t
           /\ lookTarget camera'
              = lerpVectors (startLookAt anim) (endLookAt anim) t)
       /\ (forall sphere,
             phase anim = flyToParent ->
             at_ (spheresRef (scene queuedWorld)) (targetSectionIndex anim)
             = Some sphere ->
             position camera'
             = lerpVectors (startPos anim)
                 (vadd (vadd (sphere_position sphere)
                             (multiplyScalar
                                (@normalize rationalRuntime
                                   (sphere_position sphere)) (6 # 10)))
                       (mkVec3 0 (15 # 100) 0)) t
             /\ lookTarget camera'
                = lerpVectors (startLookAt anim) (sphere_position sphere) t)
       /\ (forall subs sub,
             phase anim = flyToSub ->
             at_ (subSpheresRef (scene queuedWorld)) (targetSectionIndex anim)
             = Some subs ->
             at_ subs (targetLinkIndex anim) = Some sub ->
             position camera'
             = lerpVectors (startPos anim)
                 (vadd (vadd (sub_position sub)
                             (multiplyScalar
                                (@normalize rationalRuntime (sub_position sub))
                                (15 # 100)))
                       (mkVec3 0 (4 # 100) 0)) t
             /\ lookTarget camera'
                = lerpVectors (startLookAt anim) (sub_position sub) t).
Proof.
  apply (@X17_last_frame_of_a_flight rationalRuntime 2 3 queuedWorld).
  - reflexivity.
  - vm_compute. discriminate.
  - reflexivity.
  - vm_compute. reflexivity.
Defined.

(* ================================================================== *)
(** ** Ids and indices of [SECTIONS] *)
(* ================================================================== *)

Lemma SECTIONS_index (i : Z) (sec : SectionData) :
  at_ SECTIONS i = Some sec ->
  (i = 0 \/ i = 1 \/ i = 2 \/ i = 3 \/ i = 4)%Z.
Proof.
  intros H. apply at_bound in H.
  change (List.length SECTIONS) with 5%nat in H. lia.
Qed.

Lemma links_index (i j : Z) (sec : SectionData) (lk : Link) :
  at_ SECTIONS i = Some sec -> at_ (links sec) j = Some lk ->
  (j = 0 \/ j = 1 \/ j = 2)%Z.
Proof.
  intros Hs Hl. apply at_bound in Hl.
  destruct (SECTIONS_index _ Hs) as [-> | [-> | [-> | [-> | ->]]]];
    injection Hs as <-; cbn [links List.length] in Hl; lia.
Qed.

(** The ids of [SECTIONS] are distinct and not empty: looking a section up
    by its id gives back its index. *)
Lemma sectionIndexOf_at (i : Z) (sec : SectionData) :
  at_ SECTIONS i = Some sec ->
  sectionIndexOf (Some (section_id sec)) = i /\ section_id sec <> "".
Proof.
  intros Hs.
  destruct (SECTIONS_index _ Hs) as [-> | [-> | [-> | [-> | ->]]]];
    injection Hs as <-; split; try reflexivity; discriminate.
Qed.

(** The same for the links of a section. *)
Lemma linkIndexOf_at (i j : Z) (sec : SectionData) (lk : Link) :
  at_ SECTIONS i = Some sec -> at_ (links sec) j = Some lk ->
  linkIndexOf i (Some (link_id lk)) = j /\ link_id lk <> "".
Proof.
  intros Hs Hl. pose proof (links_index _ _ Hs Hl) as Hj.
  destruct (SECTIONS_index _ Hs) as [-> | [-> | [-> | [-> | ->]]]];
    injection Hs as <-;
    destruct Hj as [-> | [-> | ->]]; injection Hl as <-;
    split; try reflexivity; discriminate.
Qed.

(* ================================================================== *)
(** ** The scene after mounting *)
(* ================================================================== *)

Section Mounted.
Context {rt : Runtime}.

Lemma flyEffect_mountedRef (w w' : World) :
  flyEffect w = Some w' ->
  (mountedRef (scene w) = true -> mountedRef (scene w') = true)
  /\ (cameraRef (scene w) <> None -> mountedRef (scene w') = true).
Proof.
  unfold flyEffect. destruct (cameraRef (scene w)) as [camera|].
  - destruct (mountedRef (scene w)) eqn:Em; cbn [negb].
    + destruct (flyTrigger _ _ _) as [anim|]; cbn [bind]; [|discriminate].
      intros [= <-]. cbn [scene withScene setFlight mountedRef]. auto.
    + intros [= <-]. cbn [scene withScene setFlight mountedRef]. auto.
  - intros [= <-]. split; [auto|]. intros H. contradiction.
Qed.

Lemma commit_mountedRef (w w' : World) :
  mountedRef (scene w) = true -> commit w = Some w' ->
  mountedRef (scene w') = true.
Proof.
  intros H. unfold commit.
  destruct (idEqb _ _ && idEqb _ _); cbn [bind].
  - destruct (Phase_eqb _ _ && idEqb _ _); intros [= <-]; exact H.
  - destruct (flyEffect w) as [w1|] eqn:E; cbn [bind]; [|discriminate].
    destruct (flyEffect_mountedRef _ E) as [H1 _]. specialize (H1 H).
    destruct (Phase_eqb _ _ && idEqb _ _); intros [= <-]; exact H1.
Qed.

Lemma settle_mountedRef (w w' : World) :
  mountedRef (scene w) = true -> settle w = Some w' ->
  mountedRef (scene w') = true.
Proof.
  intros H. unfold settle.
  destruct (commit w) as [w1|] eqn:E1; cbn [bind]; [|discriminate].
  apply commit_mountedRef. exact (@commit_mountedRef w w1 H E1).
Qed.

Lemma animate_mountedRef (time delta : Q) (w w' : World) :
  animate time delta w = Some w' ->
  mountedRef (scene w') = mountedRef (scene w).
Proof.
  unfold animate.
  destruct (cameraRef (scene w)) as [camera|]; [|intros [= <-]; reflexivity].
  destruct (_ || _); [intros [= <-]; reflexivity|].
  destruct (animateCamera _ _ _ _ _ _ _) as [[[c1 a1] report]|]; cbn [bind];
    [|discriminate].
  destruct (mapiM _ _ _) as [subs|]; cbn [bind]; [|discriminate].
  destruct (screenPositions _ _ _) as [positions|]; cbn [bind];
    [|discriminate].
  intros [= <-]. reflexivity.
Qed.

Lemma step_mountedRef (e : Event) (w w' : World) :
  mountedRef (scene w) = true -> step e w = Some w' ->
  mountedRef (scene w') = true.
Proof.
  intros H. unfold step.
  destruct (handle e w) as [w1|] eqn:Eh; cbn [bind]; [|discriminate].
  apply settle_mountedRef.
  assert (Hnf : ~ isFrame e -> mountedRef (scene w1) = true).
  { intros Hnf. rewrite (@handle_scene rt e w w1 Hnf Eh). exact H. }
  destruct e; try (apply Hnf; intros F; exact F).
  cbn [handle] in Eh. rewrite (animate_mountedRef _ _ _ Eh). exact H.
Qed.

Lemma run_mountedRef (es : list Event) :
  forall w w' : World,
    mountedRef (scene w) = true -> run es w = Some w' ->
    mountedRef (scene w') = true.
Proof.
  induction es as [|e es IH]; intros w w' H; cbn [run].
  - intros [= <-]. exact H.
  - destruct (step e w) as [w1|] eqn:Es; cbn [bind]; [|discriminate].
    apply IH. exact (@step_mountedRef e w w1 H Es).
Qed.

Lemma mount_mountedRef (w0 : World) :
  mount initialWorld = Some w0 -> mountedRef (scene w0) = true.
Proof.
  unfold mount.
  destruct (flyEffect _) as [w2|] eqn:E; cbn [bind]; [|discriminate].
  apply settle_mountedRef. cbn [scene].
  destruct (flyEffect_mountedRef _ E) as [_ H]. apply H. discriminate.
Qed.

(** The states the program reaches from mounting. *)
Lemma reached (es : list Event) (w0 w : World) :
  mount initialWorld = Some w0 ->
  Forall hitOK es ->
  run es w0 = Some w ->
  sceneOK (scene w) /\ settled w /\ mountedRef (scene w) = true.
Proof.
  intros Hm Hes Hr.
  destruct (@mount_total rt) as (w0' & Hm' & Hok0).
  assert (w0' = w0) by congruence. subst w0'.
  destruct (@run_total rt es Hes w0 Hok0) as (w' & Hr' & Hok).
  assert (w' = w) by congruence. subst w'.
  split; [exact Hok|]. split.
  - apply (@run_settled rt es w0 w); [|exact Hr].
    exact (@mount_settled rt w0 Hm).
  - apply (@run_mountedRef es w0 w); [|exact Hr].
    exact (@mount_mountedRef w0 Hm).
Qed.

(** A commit in which only the fly trigger effect has to run. *)
Lemma commit_fly (w w1 : World) :
  flyDepsCurrent w = false ->
  pendingDepsCurrent w = true ->
  flyEffect w = Some w1 ->
  commit w
  = Some (withDeps w1 (mkDeps (activeSection (appSt w), activeLink (appSt w))
                              (pendingDeps (deps w1))))
  /\ settled (withDeps w1 (mkDeps (activeSection (appSt w),
                                    activeLink (appSt w))
                                   (pendingDeps (deps w1)))).
Proof.
  intros Hf Hp E. unfold commit. unfold flyDepsCurrent in Hf. rewrite Hf, E.
  cbn [bind]. destruct (flyEffect_frame _ E) as (Ea & _ & Ed).
  cbn [deps withDeps pendingDeps fst snd].
  unfold pendingDepsCurrent in Hp. rewrite Ed, Hp.
  split; [reflexivity|]. split.
  - unfold flyDepsCurrent. cbn [deps withDeps flyDeps fst snd appSt].
    rewrite Ea, !idEqb_refl. reflexivity.
  - unfold pendingDepsCurrent. cbn [deps withDeps pendingDeps appSt].
    rewrite Ea. exact Hp.
Qed.

End Mounted.

(** X18: Mounting succeeds, and every sequence of events whose release
    events hit meshes of the scene runs to its end without a failure.  The
    scene is built once: in every state reached there are one planet per
    section and one moon per link, and no effect is left to run. *)
Theorem X18_every_run_completes_on_the_scene_built_at_mount :
  forall (rt : Runtime) (es : list Event),
    Forall hitOK es ->
    exists w0 w : World,
      mount initialWorld = Some w0
      /\ run es w0 = Some w
      /\ settled w
      /\ List.length (spheresRef (scene w)) = List.length SECTIONS
      /\ Forall2 (fun subs sec => List.length subs = List.length (links sec))
                 (subSpheresRef (scene w)) SECTIONS.
Proof.
  intros rt es Hes.
  destruct (@mount_total rt) as (w0 & Hm & Hok0).
  destruct (@run_total rt es Hes w0 Hok0) as (w & Hr & Hok).
  exists w0, w. split; [exact Hm|]. split; [exact Hr|].
  destruct (@reached rt es w0 w Hm Hes Hr) as (_ & Hset & _).
  split; [exact Hset|]. destruct Hok as (_ & Hs & Hsub & _). auto.
Qed.

Lemma X18_witness :
  exists w0 w : World,
    @mount rationalRuntime initialWorld = Some w0
    /\ @run rationalRuntime
            [MouseDown (mkXY 0 0); MouseUp (HitParent 2); ClickSection "blog";
             MouseUp (HitSub 1 1)] w0 = Some w
    /\ settled w
    /\ List.length (spheresRef (scene w)) = List.length SECTIONS
    /\ Forall2 (fun subs sec => List.length subs = List.length (links sec))
               (subSpheresRef (scene w)) SECTIONS.
Proof.
  apply (@X18_every_run_completes_on_the_scene_built_at_mount rationalRuntime).
  repeat constructor.
  exists (nth 1 SECTIONS (mkSection "" "" "" 0 0 [])),
         (mkLink "github" "GitHub" "Open source work"
            "Contributions and repositories. Code that solves real problems.").
  split; reflexivity.
Defined.

(* ================================================================== *)
(** ** A click on a moon of the active section *)
(* ================================================================== *)

(** X19: When the camera is parked at a section, a click on one of its
    moons whose opacity is above 0.3 makes the link of that moon the active
    link and starts the flight to the link, and the flight targets the moon
    that was clicked: the indices the program finds from the two ids are
    those of the mesh under the pointer. *)
Theorem X19_moon_click_flies_to_the_clicked_moon :
  forall (rt : Runtime) (es : list Event) (w0 w : World) (sIdx lIdx : Z)
         (sec : SectionData) (lk : Link) (subs : list SubSphere)
         (sub : SubSphere),
    mount initialWorld = Some w0 ->
    Forall hitOK es ->
    run es w0 = Some w ->
    at_ SECTIONS sIdx = Some sec ->
    at_ (links sec) lIdx = Some lk ->
    activeSection (appSt w) = Some (section_id sec) ->
    truthy (activeLink (appSt w)) = false ->
    cameraPhase (appSt w) <> flyToParent ->
    active (cameraAnimRef (scene w)) = false ->
    hasDraggedRef (pointer w) = false ->
    at_ (subSpheresRef (scene w)) sIdx = Some subs ->
    at_ subs lIdx = Some sub ->
    3 # 10 < sub_opacity sub ->
    exists w' : World,
      step (MouseUp (HitSub sIdx lIdx)) w = Some w'
      /\ navOf (appSt w')
         = (Some (section_id sec), Some (link_id lk), pendingLinkRef (appSt w))
      /\ active (cameraAnimRef (scene w')) = true
      /\ phase (cameraAnimRef (scene w')) = flyToSub
      /\ targetSectionIndex (cameraAnimRef (scene w')) = sIdx
      /\ targetLinkIndex (cameraAnimRef (scene w')) = lIdx
      /\ progress (cameraAnimRef (scene w')) = 0
      /\ duration (cameraAnimRef (scene w')) = 18 # 10.
Proof.
  intros rt es w0 w sIdx lIdx sec lk subs sub Hm Hes Hr Hsec Hlk Has Hal Hph
         Hact Hdrag Hsubs Hsub Hop.
  destruct (@reached rt es w0 w Hm Hes Hr) as (Hok & Hset & Hmounted).
  destruct (sectionIndexOf_at _ Hsec) as [Esi Hsne].
  destruct (linkIndexOf_at _ _ Hsec Hlk) as [Eli Hlne].
  pose proof (@truthy_nonempty _ Hsne) as Hts.
  pose proof (@truthy_nonempty _ Hlne) as Htl.
  (* the handler *)
  set (a1 := setNav (appSt w) (Some (section_id sec)) (Some (link_id lk))
                    (pendingLinkRef (appSt w))).
  assert (Hh : handle (MouseUp (HitSub sIdx lIdx)) w
               = Some (releasePointer (withApp w a1))).
  { cbn [handle]. unfold onMU, handleClick, dispatchHit.
    rewrite Hdrag, Hact. cbn [negb orb].
    rewrite Has, Hts, Hal. cbn [negb andb].
    rewrite Hsubs. cbn [bind]. rewrite Hsub. cbn [bind].
    assert (Hg : Qgtb (sub_opacity sub) (3 # 10) = true).
    { unfold Qgtb. destruct (Qle_bool (sub_opacity sub) (3 # 10)) eqn:E;
        [|reflexivity].
      apply Qle_bool_iff in E. exfalso. exact (Qlt_not_le _ _ Hop E). }
    rewrite Hg, Hsec. cbn [bind]. rewrite Hlk. cbn [bind].
    unfold handleClickSubSphere. rewrite Has, idIs_refl. cbn [negb].
    destruct (Phase_eqb (cameraPhase (appSt w)) flyToParent) eqn:Ep.
    - apply Phase_eqb_true in Ep. contradiction.
    - reflexivity. }
  set (w1 := releasePointer (withApp w a1)) in *.
  (* the render *)
  destruct Hset as [Hfd Hpd].
  assert (Hfd1 : flyDepsCurrent w1 = false).
  { unfold flyDepsCurrent in *. cbn [w1 releasePointer withPointer withApp
                                      deps appSt a1 setNav activeSection
                                      activeLink].
    apply andb_true_iff in Hfd. destruct Hfd as [_ Hl].
    apply idEqb_true in Hl. rewrite Hl.
    destruct (activeLink (appSt w)) as [l0|] eqn:El; cbn [idEqb];
      [|apply andb_false_r].
    destruct (String.eqb l0 (link_id lk)) eqn:E; [|apply andb_false_r].
    apply String.eqb_eq in E. subst l0. congruence. }
  assert (Hpd1 : pendingDepsCurrent w1 = true).
  { unfold pendingDepsCurrent in *. cbn [w1 releasePointer withPointer withApp
                                          deps appSt a1 setNav activeSection
                                          cameraPhase].
    rewrite <- Has. exact Hpd. }
  destruct Hok as ([camera Hcam] & _ & _ & [look Hlook] & _).
  set (anim := mkAnim true flyToSub (position camera)
                      (endPos (cameraAnimRef (scene w))) look
                      (endLookAt (cameraAnimRef (scene w)))
                      (Some look) 0 (18 # 10) sIdx lIdx).
  assert (Hfly : flyEffect w1
                 = Some (withScene w1
                           (setFlight (scene w) anim true
                                      (Some (section_id sec))
                                      (Some (link_id lk))))).
  { unfold flyEffect. cbn [w1 releasePointer withPointer withApp scene appSt].
    rewrite Hcam, Hmounted. cbn [negb].
    unfold flyTrigger. cbn [a1 setNav activeLink activeSection].
    rewrite Htl, Hts. cbn [andb]. rewrite Esi, Eli.
    assert (H0s : (0 <=? sIdx)%Z = true)
      by (apply Z.leb_le; apply at_bound in Hsec; lia).
    assert (H0l : (0 <=? lIdx)%Z = true)
      by (apply Z.leb_le; apply at_bound in Hlk; lia).
    rewrite H0s, H0l, Hlook. cbn [andb bind]. reflexivity. }
  destruct (@commit_fly rt w1 _ Hfd1 Hpd1 Hfly) as [Hc Hset2].
  eexists. split.
  - unfold step. rewrite Hh. cbn [bind]. unfold settle. rewrite Hc.
    cbn [bind]. apply commit_settled. exact Hset2.
  - cbn [appSt withDeps withScene scene setFlight cameraAnimRef].
    repeat split.
Qed.

Lemma X19_witness :
  exists w' : World,
    @step rationalRuntime (MouseUp (HitSub 0 0)) parkedArtWorld = Some w'
    /\ navOf (appSt w')
       = (Some "art", Some "gallery", pendingLinkRef (appSt parkedArtWorld))
    /\ active (cameraAnimRef (scene w')) = true
    /\ phase (cameraAnimRef (scene w')) = flyToSub
    /\ targetSectionIndex (cameraAnimRef (scene w')) = 0%Z
    /\ targetLinkIndex (cameraAnimRef (scene w')) = 0%Z
    /\ progress (cameraAnimRef (scene w')) = 0
    /\ duration (cameraAnimRef (scene w')) = 18 # 10.
Proof.
  apply (@X19_moon_click_flies_to_the_clicked_moon rationalRuntime
           [NavSection "art"; Frame 1 3; Frame 2 1] mountedWorld parkedArtWorld
           0%Z 0%Z
           (nth 0 SECTIONS (mkSection "" "" "" 0 0 []))
           (mkLink "gallery" "Gallery" "Paintings, prints & murals"
              "A collection of original works spanning painting, screen printing, and large-scale mural projects. Each piece explores the intersection of geometric form and organic energy.")
           (nth 0 (subSpheresRef (scene parkedArtWorld)) [])
           (nth 0 (nth 0 (subSpheresRef (scene parkedArtWorld)) [])
                (mkSub vzero 0 0 None None))).
  - vm_compute. reflexivity.
  - repeat constructor.
  - vm_compute. reflexivity.
  - reflexivity.
  - reflexivity.
  - reflexivity.
  - reflexivity.
  - discriminate.
  - reflexivity.
  - reflexivity.
  - reflexivity.
  - reflexivity.
  - vm_compute. reflexivity.
Defined.

(* ================================================================== *)
(** ** The screen positions a frame reports *)
(* ================================================================== *)

Section Positions.
Context {rt : Runtime}.

Lemma settle_positions (w w' : World) :
  settle w = Some w' ->
  subSpherePositions (appSt w') = subSpherePositions (appSt w).
Proof.
  intros Hs. apply settle_result in Hs. destruct Hs as [_ [E|E]]; rewrite E.
  - reflexivity.
  - unfold pendingLinkEffect. destruct (_ && _); reflexivity.
Qed.

End Positions.

(** X20: A frame reports one screen position per moon of the active
    section, in the order of its links and with the opacity of the moon,
    when a section is active and no link is; it reports the empty list at
    home and while a link is active. *)
Theorem X20_frame_reports_one_position_per_moon :
  forall (rt : Runtime) (es : list Event) (w0 w w' : World) (time delta : Q),
    mount initialWorld = Some w0 ->
    Forall hitOK es ->
    run es w0 = Some w ->
    step (Frame time delta) w = Some w' ->
    let a := appSt w in
    (truthy (activeSection a) = false \/ truthy (activeLink a) = true ->
     subSpherePositions (appSt w') = [])
    /\ (forall sec : SectionData,
          truthy (activeSection a) = true ->
          truthy (activeLink a) = false ->
          at_ SECTIONS (sectionIndexOf (activeSection a)) = Some sec ->
          exists subs : list SubSphere,
            at_ (subSpheresRef (scene w')) (sectionIndexOf (activeSection a))
            = Some subs
            /\ List.length (subSpherePositions (appSt w'))
               = List.length (links sec)
            /\ map screen_opacity (subSpherePositions (appSt w'))
               = map sub_opacity subs).
Proof.
  intros rt es w0 w w' time delta Hm Hes Hr Hstep a.
  destruct (@reached rt es w0 w Hm Hes Hr) as (Hok & _ & _).
  unfold step in Hstep. cbn [handle] in Hstep.
  destruct (animate time delta w) as [w1|] eqn:Ea; cbn [bind] in Hstep;
    [|discriminate].
  rewrite (@settle_positions rt w1 w' Hstep).
  destruct (settle_meshes _ Hstep) as (_ & Esub & _). rewrite Esub.
  destruct (@animate_total rt time delta w Hok) as (w1' & Ea' & Hok1).
  assert (w1' = w1) by congruence. subst w1'.
  destruct (animate_inv _ _ _ Ea) as [[Hnr _]|H].
  { exfalso. destruct Hok as ([camera Hc] & Hs & Hsub & _).
    unfold sceneReady in Hnr.
    rewrite Hc, Hs, (Forall2_length Hsub) in Hnr. discriminate. }
  destruct H as (camera & rotation & zoom & camera1 & anim1 & report & subs
                 & positions & _ & _ & _ & _ & Ep & _ & _ & _ & Esubs & _
                 & Eapp).
  rewrite Eapp, Esubs. cbv zeta.
  assert (Hpos : forall (a0 : App) (ps : list ScreenPos),
             subSpherePositions (setSubSpherePositions ps a0) = ps)
    by reflexivity.
  unfold screenPositions in Ep. fold a in Ep.
  split.
  - intros Hhome.
    assert (Hc : truthy (activeSection a) && negb (truthy (activeLink a))
                 = false).
    { destruct Hhome as [H|H]; rewrite H; [reflexivity|apply andb_false_r]. }
    rewrite Hc in Ep. injection Ep as <-. apply Hpos.
  - intros sec Hs Hl Hsec. rewrite Hs, Hl in Ep. cbn [negb andb] in Ep.
    pose proof (at_bound _ _ Hsec) as Hb.
    destruct (0 <=? sectionIndexOf (activeSection a))%Z eqn:Ei;
      [|apply Z.leb_gt in Ei; lia].
    destruct (at_ subs (sectionIndexOf (activeSection a))) as [sbs|] eqn:Es;
      cbn [bind] in Ep; [|discriminate].
    injection Ep as <-. exists sbs. split; [reflexivity|].
    rewrite Hpos. split.
    + rewrite length_map.
      destruct Hok1 as (_ & _ & Hshape & _). rewrite Esubs in Hshape.
      unfold at_ in Es, Hsec.
      destruct (sectionIndexOf (activeSection a) <? 0)%Z; [discriminate|].
      destruct (Forall2_nth_l Hshape _ Es) as (sec' & Hsec' & Hlen).
      assert (sec' = sec) by congruence. subst sec'. exact Hlen.
    + rewrite map_map. reflexivity.
Qed.

Lemma X20_witness :
  let a := appSt enteredArtWorld in
  let w' := runFrom [Frame 1 1] enteredArtWorld in
  (truthy (activeSection a) = false \/ truthy (activeLink a) = true ->
   subSpherePositions (appSt w') = [])
  /\ (forall sec : SectionData,
        truthy (activeSection a) = true ->
        truthy (activeLink a) = false ->
        at_ SECTIONS (sectionIndexOf (activeSection a)) = Some sec ->
        exists subs : list SubSphere,
          at_ (subSpheresRef (scene w')) (sectionIndexOf (activeSection a))
          = Some subs
          /\ List.length (subSpherePositions (appSt w'))
             = List.length (links sec)
          /\ map screen_opacity (subSpherePositions (appSt w'))
             = map sub_opacity subs).
Proof.
  apply (@X20_frame_reports_one_position_per_moon rationalRuntime
           [NavSection "art"] mountedWorld enteredArtWorld
           (runFrom [Frame 1 1] enteredArtWorld) 1 1).
  - vm_compute. reflexivity.
  - repeat constructor.
  - vm_compute. reflexivity.
  - vm_compute. reflexivity.
Defined.

(* ================================================================== *)
(** ** What the overlays show and offer *)
(* ================================================================== *)

Lemma nth_error_mapi {A B : Type} (f : nat -> A -> B) (xs : list A) :
  forall i j, nth_error (mapi f i xs) j = option_map (f (i + j)%nat) (nth_error xs j).
Proof.
  induction xs as [|x xs IH]; intros i j; cbn [mapi].
  - destruct j; reflexivity.
  - destruct j as [|j]; cbn [nth_error option_map].
    + rewrite Nat.add_0_r. reflexivity.
    + rewrite IH. replace (S i + j)%nat with (i + S j)%nat by lia. reflexivity.
Qed.

Lemma ownsb_In (sec : SectionData) (lk : Link) :
  In sec SECTIONS -> In lk (links sec) ->
  ownsb (section_id sec) (link_id lk) = true.
Proof.
  intros Hs Hl. unfold ownsb. apply existsb_exists. exists sec.
  split; [exact Hs|]. rewrite String.eqb_refl. cbn [andb].
  apply existsb_exists. exists lk. split; [exact Hl|]. apply String.eqb_refl.
Qed.

Lemma find_section (id : Id) (sec : SectionData) :
  find (fun s => idIs id (section_id s)) SECTIONS = Some sec ->
  In sec SECTIONS /\ id = Some (section_id sec).
Proof.
  intros H. apply find_some in H. destruct H as [Hin H].
  apply idIs_true in H. auto.
Qed.

(** One entry of the labels, read back. *)
Lemma SubSphereLabels_item (a : App) (v : LabelsView) (i : nat) (lab : Label) :
  SubSphereLabels a = Some v ->
  nth_error (labels_items v) i = Some (Some lab) ->
  exists (sec : SectionData) (pos : ScreenPos),
    In sec SECTIONS
    /\ activeSection a = Some (section_id sec)
    /\ truthy (activeLink a) = false
    /\ nth_error (links sec) i = Some (label_link lab)
    /\ nth_error (subSpherePositions a) i = Some pos
    /\ label_left lab = screen_x pos
    /\ label_top lab = screen_y pos + 18
    /\ label_onClick lab
       = ClickSubSphere (section_id sec) (link_id (label_link lab))
    /\ screen_z pos <= 1
    /\ 1 # 10 <= screen_opacity pos
    /\ (label_pointerEvents lab = true -> 3 # 10 < screen_opacity pos).
Proof.
  unfold SubSphereLabels.
  destruct (truthy (activeLink a)) eqn:El;
    [rewrite orb_true_r; cbn [orb]; discriminate|].
  destruct (negb (truthy (activeSection a)) || false
            || Nat.eqb (List.length (subSpherePositions a)) 0);
    [discriminate|].
  destruct (find _ SECTIONS) as [sec|] eqn:Ef; [|discriminate].
  destruct (@find_section _ _ Ef) as [Hin Hid].
  set (op := if Phase_eqb (cameraPhase a) flyToParent then _ else _).
  destruct (Qle_bool op 0); [discriminate|].
  intros [= <-]. cbn [labels_items]. rewrite nth_error_mapi. cbn [Nat.add].
  destruct (nth_error (subSpherePositions a) i) as [pos|] eqn:Ep;
    cbn [option_map]; [|discriminate].
  intros [= H]. exists sec, pos.
  destruct (Qgtb (screen_z pos) 1) eqn:Ez; cbn [orb] in H; [discriminate|].
  destruct (List.length (links sec) <=? i)%nat; [discriminate|].
  destruct (nth_error (links sec) i) as [link|] eqn:Elk; cbn [bind] in H;
    [|discriminate].
  destruct (Qltb (Qmin op (screen_opacity pos)) (1 # 10)) eqn:Eo;
    [discriminate|].
  injection H as <-. cbn [label_link label_left label_top label_onClick
                          label_pointerEvents].
  apply Qgtb_false in Ez. apply Qltb_false in Eo.
  pose proof (Q.le_min_r op (screen_opacity pos)) as Hmin.
  repeat split; auto.
  - lra.
  - intros Hg. unfold Qgtb in Hg. apply negb_true_iff in Hg.
    apply Qnot_le_lt. intros Hle.
    assert (Hle' : Qmin op (screen_opacity pos) <= 3 # 10) by lra.
    apply Qle_bool_iff in Hle'. congruence.
Qed.

(** X21: The label [SubSphereLabels] renders at index [i] names link [i] of
    the active section and sits 18 pixels below the reported position [i];
    its click raises the moon click of that section and link.  No label is
    rendered while a link is active, for a position behind the far plane or
    for a moon whose opacity is below 0.1, and a label takes pointer events
    only when the opacity of its moon is above 0.3, the threshold of the
    click on the moon itself. *)
Theorem X21_labels_follow_the_moons :
  forall (a : App) (v : LabelsView) (i : nat) (lab : Label),
    SubSphereLabels a = Some v ->
    nth_error (labels_items v) i = Some (Some lab) ->
    exists (sec : SectionData) (pos : ScreenPos),
      In sec SECTIONS
      /\ activeSection a = Some (section_id sec)
      /\ truthy (activeLink a) = false
      /\ nth_error (links sec) i = Some (label_link lab)
      /\ nth_error (subSpherePositions a) i = Some pos
      /\ label_left lab = screen_x pos
      /\ label_top lab = screen_y pos + 18
      /\ label_onClick lab
         = ClickSubSphere (section_id sec) (link_id (label_link lab))
      /\ screen_z pos <= 1
      /\ 1 # 10 <= screen_opacity pos
      /\ (label_pointerEvents lab = true -> 3 # 10 < screen_opacity pos).
Proof.
  intros a v i lab Hv Hi. exact (@SubSphereLabels_item a v i lab Hv Hi).
Qed.

Lemma X21_witness :
  let a := appSt parkedArtWorld in
  let v := match SubSphereLabels a with
           | Some v => v
           | None => mkLabelsView "" 0 []
           end in
  let lab := match nth_error (labels_items v) 1 with
             | Some (Some lab) => lab
             | _ => mkLabel (mkLink "" "" "" "") 0 0 0 false Back
             end in
  exists (sec : SectionData) (pos : ScreenPos),
    In sec SECTIONS
    /\ activeSection a = Some (section_id sec)
    /\ truthy (activeLink a) = false
    /\ nth_error (links sec) 1 = Some (label_link lab)
    /\ nth_error (subSpherePositions a) 1 = Some pos
    /\ label_left lab = screen_x pos
    /\ label_top lab = screen_y pos + 18
    /\ label_onClick lab
       = ClickSubSphere (section_id sec) (link_id (label_link lab))
    /\ screen_z pos <= 1
    /\ 1 # 10 <= screen_opacity pos
    /\ (label_pointerEvents lab = true -> 3 # 10 < screen_opacity pos).
Proof.
  intros a v lab. apply (@X21_labels_follow_the_moons a v 1%nat lab).
  - vm_compute. reflexivity.
  - vm_compute. reflexivity.
Defined.

(** X22: Every moon click the overlays offer, from a label or from the
    links of the navigation bar, names the section that is active and one
    of its links, and is offered only while no link is active.  A moon
    click on another section can only come from the canvas. *)
Theorem X22_overlays_offer_moons_of_the_active_section :
  forall (a : App) (s l : string),
    In (ClickSubSphere s l) (overlayClicks a) ->
    activeSection a = Some s
    /\ truthy (activeLink a) = false
    /\ ownsb s l = true
    /\ wfEvent (ClickSubSphere s l).
Proof.
  intros a s l Hin.
  assert (H : activeSection a = Some s /\ truthy (activeLink a) = false
              /\ ownsb s l = true); [|cbn [wfEvent]; tauto].
  unfold overlayClicks in Hin. apply in_app_or in Hin.
  destruct Hin as [Hin|Hin].
  - destruct (SubSphereLabels a) as [v|] eqn:Ev; [|contradiction].
    apply in_flat_map in Hin. destruct Hin as (item & Hitem & He).
    destruct item as [lab|]; [|contradiction].
    destruct (label_pointerEvents lab); [|contradiction].
    destruct He as [He|[]].
    apply In_nth_error in Hitem. destruct Hitem as [i Hi].
    destruct (@SubSphereLabels_item a v i lab Ev Hi)
      as (sec & pos & Hsec & Has & Hal & Hlk & _ & _ & _ & Hclick & _).
    rewrite Hclick in He. injection He as <- <-.
    split; [exact Has|]. split; [exact Hal|].
    apply ownsb_In; [exact Hsec|]. exact (nth_error_In _ _ Hlk).
  - unfold NavBar in Hin. destruct Hin as [Hin|Hin]; [discriminate|].
    apply in_app_or in Hin. destruct Hin as [Hin|Hin].
    + destruct (negb _); [destruct Hin as [Hin|[]]; discriminate|contradiction].
    + apply in_flat_map in Hin. destruct Hin as (sec & Hsec & [He|He]);
        [discriminate|].
      destruct (idIs (activeSection a) (section_id sec)
                && negb (truthy (activeLink a))) eqn:Ec; [|contradiction].
      apply andb_true_iff in Ec. destruct Ec as [Eid El].
      apply idIs_true in Eid. apply negb_true_iff in El.
      apply in_map_iff in He. destruct He as (lk & He & Hlk).
      injection He as <- <-.
      split; [exact Eid|]. split; [exact El|].
      apply ownsb_In; assumption.
Qed.

Lemma X22_witness :
  activeSection (appSt parkedArtWorld) = Some "art"
  /\ truthy (activeLink (appSt parkedArtWorld)) = false
  /\ ownsb "art" "process" = true
  /\ wfEvent (ClickSubSphere "art" "process").
Proof.
  apply (@X22_overlays_offer_moons_of_the_active_section (appSt parkedArtWorld)
           "art" "process").
  vm_compute. tauto.
Defined.

Lemma Qmax0_pos (x : Q) : 0 < Qmax 0 x -> Qmax 0 x == x /\ 0 < x.
Proof.
  intros H. destruct (Q.max_spec 0 x) as [[Hlt E]|[Hle E]].
  - split; [exact E|exact Hlt].
  - rewrite E in H. exfalso. exact (Qlt_irrefl _ H).
Qed.

Lemma Qle_bool_false (a b : Q) : Qle_bool a b = false -> b < a.
Proof.
  intros H. apply Qnot_le_lt. intros Hle. apply Qle_bool_iff in Hle.
  congruence.
Qed.

Lemma Qgtb_true (a b : Q) : Qgtb a b = true <-> b < a.
Proof.
  unfold Qgtb. rewrite negb_true_iff. split.
  - apply Qle_bool_false.
  - intros H. destruct (Qle_bool a b) eqn:E; [|reflexivity].
    apply Qle_bool_iff in E. exfalso. exact (Qlt_not_le _ _ H E).
Qed.

(** X23: When [LinkPanel] renders, it shows the active link of the active
    section, both found in [SECTIONS].  During the flight to the link it
    appears once the progress has passed 0.6 and takes pointer events once
    it has passed 0.8; during a flight away it is gone from a third of the
    way and takes no pointer events from a sixth of the way. *)
Theorem X23_LinkPanel_shows_the_active_link :
  forall (a : App) (p : Panel),
    LinkPanel a = Some p ->
    In (panel_section p) SECTIONS
    /\ In (panel_link p) (links (panel_section p))
    /\ activeSection a = Some (section_id (panel_section p))
    /\ activeLink a = Some (link_id (panel_link p))
    /\ 0 < panel_opacity p
    /\ (cameraPhase a = flyToSub ->
        6 # 10 < cameraProgress a
        /\ (panel_pointerEvents p = true -> 8 # 10 < cameraProgress a))
    /\ (cameraPhase a = flyToParent \/ cameraPhase a = flyHome ->
        cameraProgress a < 1 # 3
        /\ (panel_pointerEvents p = true -> cameraProgress a < 1 # 6))
    /\ (cameraPhase a <> flyToSub -> cameraPhase a <> flyToParent ->
        cameraPhase a <> flyHome ->
        panel_opacity p = 1 /\ panel_pointerEvents p = true).
Proof.
  intros a p. unfold LinkPanel.
  destruct (negb (truthy (activeSection a)) || negb (truthy (activeLink a)));
    [discriminate|].
  destruct (find _ SECTIONS) as [sec|] eqn:Es; [|discriminate].
  destruct (find _ (links sec)) as [lk|] eqn:El; [|discriminate].
  destruct (@find_section _ _ Es) as [Hsec Hid].
  apply find_some in El. destruct El as [Hlk Hl]. apply idIs_true in Hl.
  set (op := if Phase_eqb (cameraPhase a) flyToSub then _ else _).
  destruct (Qle_bool op 0) eqn:Eop; [discriminate|].
  apply Qle_bool_false in Eop.
  intros [= <-]. cbn [panel_section panel_link panel_opacity
                      panel_pointerEvents].
  split; [exact Hsec|]. split; [exact Hlk|]. split; [exact Hid|].
  split; [exact Hl|]. split; [exact Eop|].
  split; [|split].
  - intros Hph. unfold op in *. rewrite Hph in *. cbn [Phase_eqb] in *.
    destruct (@Qmax0_pos _ Eop) as [E Hpos]. unfold Qdiv in E, Hpos.
    change (/ (4 # 10)) with (10 # 4) in E, Hpos.
    split; [lra|]. intros Hg. apply Qgtb_true in Hg. rewrite E in Hg. lra.
  - intros Hph. unfold op in *.
    assert (E0 : (if Phase_eqb (cameraPhase a) flyToSub
                  then Qmax 0 ((cameraProgress a - (6 # 10)) / (4 # 10))
                  else if Phase_eqb (cameraPhase a) flyToParent
                          || Phase_eqb (cameraPhase a) flyHome
                  then Qmax 0 (1 - cameraProgress a * 3)
                  else 1) = Qmax 0 (1 - cameraProgress a * 3))
      by (destruct Hph as [-> | ->]; reflexivity).
    rewrite E0 in *. destruct (@Qmax0_pos _ Eop) as [E Hpos].
    split; [lra|]. intros Hg. apply Qgtb_true in Hg. rewrite E in Hg. lra.
  - intros H1 H2 H3. unfold op.
    destruct (cameraPhase a); try contradiction; split; reflexivity.
Qed.

Lemma X23_witness :
  let a := appSt atGalleryWorld in
  let p := mkPanel (nth 0 SECTIONS (mkSection "" "" "" 0 0 []))
                   (nth 0 (links (nth 0 SECTIONS (mkSection "" "" "" 0 0 [])))
                        (mkLink "" "" "" ""))
                   1 true in
  In (panel_section p) SECTIONS
  /\ In (panel_link p) (links (panel_section p))
  /\ activeSection a = Some (section_id (panel_section p))
  /\ activeLink a = Some (link_id (panel_link p))
  /\ 0 < panel_opacity p
  /\ (cameraPhase a = flyToSub ->
      6 # 10 < cameraProgress a
      /\ (panel_pointerEvents p = true -> 8 # 10 < cameraProgress a))
  /\ (cameraPhase a = flyToParent \/ cameraPhase a = flyHome ->
      cameraProgress a < 1 # 3
      /\ (panel_pointerEvents p = true -> cameraProgress a < 1 # 6))
  /\ (cameraPhase a <> flyToSub -> cameraPhase a <> flyToParent ->
      cameraPhase a <> flyHome ->
      panel_opacity p = 1 /\ panel_pointerEvents p = true).
Proof.
  apply (@X23_LinkPanel_shows_the_active_link (appSt atGalleryWorld)).
  vm_compute. reflexivity.
Defined.

(** The ids of [SECTIONS] are distinct: a section and a link of it are the
    first ones with their ids. *)
Lemma find_known (sec : SectionData) (lk : Link) :
  In sec SECTIONS -> In lk (links sec) ->
  find (fun s => idIs (Some (section_id sec)) (section_id s)) SECTIONS
  = Some sec
  /\ find (fun l => idIs (Some (link_id lk)) (link_id l)) (links sec) = Some lk
  /\ truthy (Some (section_id sec)) = true
  /\ truthy (Some (link_id lk)) = true.
Proof.
  intros Hs Hl. cbn [SECTIONS In] in Hs.
  repeat (destruct Hs as [<-|Hs];
          [cbn [links In] in Hl;
           repeat (destruct Hl as [<-|Hl]; [repeat split|]); contradiction|]).
  contradiction.
Qed.

(** X24: When the active section and the active link are a section of
    [SECTIONS] and one of its links, and the camera is not in a flight,
    [LinkPanel] shows that link, fully opaque and taking pointer events. *)
Theorem X24_LinkPanel_opens_on_a_known_link :
  forall (a : App) (sec : SectionData) (lk : Link),
    In sec SECTIONS ->
    In lk (links sec) ->
    activeSection a = Some (section_id sec) ->
    activeLink a = Some (link_id lk) ->
    cameraPhase a <> flyToSub ->
    cameraPhase a <> flyToParent ->
    cameraPhase a <> flyHome ->
    LinkPanel a = Some (mkPanel sec lk 1 true).
Proof.
  intros a sec lk Hs Hl Has Hal H1 H2 H3.
  destruct (@find_known sec lk Hs Hl) as (Fs & Fl & Ts & Tl).
  unfold LinkPanel. rewrite Has, Hal, Ts, Tl. cbn [negb orb].
  rewrite Fs, Fl.
  destruct (cameraPhase a); try contradiction; reflexivity.
Qed.

Lemma X24_witness :
  LinkPanel (appSt atGalleryWorld)
  = Some (mkPanel (nth 0 SECTIONS (mkSection "" "" "" 0 0 []))
                  (nth 0 (links (nth 0 SECTIONS (mkSection "" "" "" 0 0 [])))
                       (mkLink "" "" "" ""))
                  1 true).
Proof.
  apply (@X24_LinkPanel_opens_on_a_known_link (appSt atGalleryWorld)).
  - left. reflexivity.
  - left. reflexivity.
  - reflexivity.
  - reflexivity.
  - discriminate.
  - discriminate.
  - discriminate.
Defined.

(* ================================================================== *)
(** ** The frames of [useAnimationFrame] *)
(* ================================================================== *)

(** The frames raised once the clock is set. *)
Lemma useAnimationFrame_frames (times : list Q) :
  forall previous : Q,
    useAnimationFrame times (Some previous)
    = map (fun pt => Frame (snd pt / 1000) ((snd pt - fst pt) / 1000))
          (combine (previous :: times) times).
Proof.
  induction times as [|time rest IH]; intros previous.
  - reflexivity.
  - cbn [useAnimationFrame requestedFrame fst snd combine map].
    rewrite IH. reflexivity.
Qed.

(** The frames of timestamps that do not go backwards. *)
Lemma frames_nonnegative (times : list Q) :
  forall previous : Q,
    nondecreasing previous times ->
    Forall frameOK
           (map (fun pt => Frame (snd pt / 1000) ((snd pt - fst pt) / 1000))
                (combine (previous :: times) times)).
Proof.
  induction times as [|time rest IH]; intros previous Hn.
  - constructor.
  - destruct Hn as [Hle Hn]. cbn [combine map fst snd].
    constructor; [|exact (IH time Hn)].
    cbn [frameOK]. unfold Qdiv. change (/ 1000) with (1 # 1000). lra.
Qed.

(** X25: The first timestamp of [requestAnimationFrame] only sets the
    clock; every later one raises one frame, with the timestamp in seconds
    and the time since the timestamp before it, in seconds.  So there is one
    frame less than timestamps, and when the timestamps do not go backwards
    no frame has a negative time delta. *)
Theorem X25_useAnimationFrame_one_frame_per_later_timestamp :
  forall (first : Q) (times : list Q),
    let es := useAnimationFrame (first :: times) None in
    es = map (fun pt => Frame (snd pt / 1000) ((snd pt - fst pt) / 1000))
             (combine (first :: times) times)
    /\ List.length es = List.length times
    /\ Forall isFrame es
    /\ (nondecreasing first times -> Forall frameOK es).
Proof.
  intros first times es.
  assert (E : es = map (fun pt => Frame (snd pt / 1000)
                                        ((snd pt - fst pt) / 1000))
                       (combine (first :: times) times)).
  { exact (@useAnimationFrame_frames times first). }
  split; [exact E|]. rewrite E.
  split.
  { rewrite length_map, length_combine. cbn [List.length]. lia. }
  split.
  { apply Forall_forall. intros e He. apply in_map_iff in He.
    destruct He as (pt & <- & _). exact I. }
  apply frames_nonnegative.
Qed.

(* ================================================================== *)
(** ** The lines of the drawing *)
(* ================================================================== *)

Lemma updateConstellationLine_range (a : App) (spheres : list Sphere)
  (i : nat) (line : ConstellationLine) :
  lineInRange line -> lineInRange (updateConstellationLine a spheres i line).
Proof.
  intros [H0 H1]. unfold updateConstellationLine, lineInRange.
  destruct (nth_error spheres i); [|auto].
  destruct (nth_error spheres _); [|auto].
  cbn [line_opacity].
  destruct (showConstellation a && negb (truthy (activeSection a)));
    split; lra.
Qed.

Lemma animateLines_range (a : App) (spheres : list Sphere) (ls : Lines) :
  4 # 100 <= lineMat_opacity ls /\ lineMat_opacity ls <= 1 ->
  Forall lineInRange (constellationLinesRef ls) ->
  (4 # 100 <= lineMat_opacity (animateLines a spheres ls)
   /\ lineMat_opacity (animateLines a spheres ls) <= 1)
  /\ Forall lineInRange (constellationLinesRef (animateLines a spheres ls))
  /\ List.length (constellationLinesRef (animateLines a spheres ls))
     = List.length (constellationLinesRef ls).
Proof.
  intros [H0 H1] Hl. unfold animateLines.
  cbn [lineMat_opacity constellationLinesRef].
  split; [|split].
  - destruct (truthy (activeLink a)); [|destruct (truthy (activeSection a))];
      split; lra.
  - apply Forall_mapi with (P := lineInRange); [|exact Hl].
    intros i x Hx. apply updateConstellationLine_range. exact Hx.
  - apply mapi_length.
Qed.

(** X26: Whatever the states and the planets of the calls of [animate],
    the opacity of the torus line stays within [0.04, 1] and that of each
    constellation line within [0, 0.35], and there stays one constellation
    line per section. *)
Theorem X26_line_opacities_stay_in_range :
  forall calls : list (App * list Sphere),
    let ls := linesAfter calls initialLines in
    4 # 100 <= lineMat_opacity ls /\ lineMat_opacity ls <= 1
    /\ Forall lineInRange (constellationLinesRef ls)
    /\ List.length (constellationLinesRef ls) = List.length SECTIONS.
Proof.
  intros calls.
  assert (H : forall ls0 : Lines,
             (4 # 100 <= lineMat_opacity ls0 /\ lineMat_opacity ls0 <= 1) ->
             Forall lineInRange (constellationLinesRef ls0) ->
             let ls := linesAfter calls ls0 in
             (4 # 100 <= lineMat_opacity ls /\ lineMat_opacity ls <= 1)
             /\ Forall lineInRange (constellationLinesRef ls)
             /\ List.length (constellationLinesRef ls)
                = List.length (constellationLinesRef ls0)).
  { induction calls as [|call calls IH]; intros ls0 Hm Hl.
    - cbn. auto.
    - cbn [linesAfter fold_left].
      destruct (@animateLines_range (fst call) (snd call) ls0 Hm Hl)
        as (Hm1 & Hl1 & Hlen1).
      destruct (IH _ Hm1 Hl1) as (Hm2 & Hl2 & Hlen2).
      unfold linesAfter in *. cbv zeta in *.
      split; [exact Hm2|]. split; [exact Hl2|]. congruence. }
  destruct (H initialLines) as ([H1 H2] & H3 & H4).
  - cbn. split; discriminate.
  - unfold initialLines. cbn [constellationLinesRef].
    apply Forall_map, Forall_forall. intros sec _.
    unfold lineInRange. cbn. split; discriminate.
  - cbv zeta. split; [exact H1|]. split; [exact H2|]. split; [exact H3|].
    rewrite H4. unfold initialLines. cbn [constellationLinesRef].
    apply length_map.
Qed.

Lemma Forall_mapi_below {A B : Type} (P : A -> Prop) (Q : B -> Prop)
  (f : nat -> A -> B) (n : nat) (xs : list A) :
  (forall i x, (i < n)%nat -> P x -> Q (f i x)) ->
  forall i, (i + List.length xs <= n)%nat -> Forall P xs ->
            Forall Q (mapi f i xs).
Proof.
  intros Hf. induction xs as [|x xs IH]; intros i Hi H; cbn [mapi].
  - constructor.
  - cbn [List.length] in Hi. inversion H; subst. constructor.
    + apply Hf; [lia | assumption].
    + apply IH; [lia | assumption].
Qed.

(** The opacity of a constellation line after [k] calls with the
    constellation off is at most [0.35 * 0.92 ^ k]. *)
Lemma constellation_decay_step (call : App * list Sphere) (i k : nat)
  (line : ConstellationLine) :
  constellationOff call ->
  (i < List.length SECTIONS)%nat ->
  0 <= line_opacity line ->
  line_opacity line <= Nat.iter k (fun x => x * (92 # 100)) (35 # 100) ->
  let line' := updateConstellationLine (fst call) (snd call) i line in
  0 <= line_opacity line'
  /\ line_opacity line' <= Nat.iter (S k) (fun x => x * (92 # 100)) (35 # 100)
  /\ line_visible line' = Qgtb (line_opacity line') (1 # 100).
Proof.
  intros [Hoff Hlen] Hi H0 Hk. unfold updateConstellationLine.
  assert (Hn : ((i + 1) mod List.length SECTIONS < List.length SECTIONS)%nat)
    by (apply Nat.mod_upper_bound; discriminate).
  rewrite <- Hlen in Hi, Hn.
  destruct (nth_error (snd call) i) as [p1|] eqn:E1;
    [|apply nth_error_None in E1; lia].
  rewrite <- Hlen. 
  destruct (nth_error (snd call) ((i + 1) mod List.length (snd call)))
    as [p2|] eqn:E2; [|apply nth_error_None in E2; lia].
  rewrite Hoff. cbv zeta. cbn [line_opacity line_visible].
  rewrite Nat.iter_succ.
  set (g := Nat.iter k (fun x => x * (92 # 100)) (35 # 100)) in *.
  repeat split; lra.
Qed.

Lemma constellation_decay (calls : list (App * list Sphere)) :
  Forall constellationOff calls ->
  forall (k : nat) (ls : Lines),
    (List.length (constellationLinesRef ls) <= List.length SECTIONS)%nat ->
    Forall (fun line =>
              0 <= line_opacity line
              /\ line_opacity line
                 <= Nat.iter k (fun x => x * (92 # 100)) (35 # 100))
           (constellationLinesRef ls) ->
    (calls <> [] ->
     Forall (fun line =>
               line_visible line = Qgtb (line_opacity line) (1 # 100))
            (constellationLinesRef (linesAfter calls ls)))
    /\ Forall (fun line =>
                 0 <= line_opacity line
                 /\ line_opacity line
                    <= Nat.iter (k + List.length calls)
                                (fun x => x * (92 # 100)) (35 # 100))
              (constellationLinesRef (linesAfter calls ls)).
Proof.
  induction 1 as [|call calls Hc Hcs IH]; intros k ls Hlen Hl.
  - cbn [linesAfter fold_left List.length]. rewrite Nat.add_0_r.
    split; [congruence | exact Hl].
  - cbn [linesAfter fold_left List.length].
    set (ls1 := animateLines (fst call) (snd call) ls).
    assert (H1 : Forall (fun line =>
                           (0 <= line_opacity line
                            /\ line_opacity line
                               <= Nat.iter (S k) (fun x => x * (92 # 100))
                                           (35 # 100))
                           /\ line_visible line
                              = Qgtb (line_opacity line) (1 # 100))
                        (constellationLinesRef ls1)).
    { unfold ls1, animateLines. cbn [constellationLinesRef].
      apply Forall_mapi_below
        with (P := fun line =>
                     0 <= line_opacity line
                     /\ line_opacity line
                        <= Nat.iter k (fun x => x * (92 # 100)) (35 # 100))
             (n := List.length SECTIONS); [|exact Hlen|exact Hl].
      intros i x Hi [Hx0 Hxk].
      destruct (@constellation_decay_step call i k x Hc Hi Hx0 Hxk)
        as (A & B & C).
      auto. }
    assert (Hlen1 : (List.length (constellationLinesRef ls1)
                     <= List.length SECTIONS)%nat).
    { unfold ls1, animateLines. cbn [constellationLinesRef].
      rewrite mapi_length. exact Hlen. }
    assert (H1' : Forall (fun line =>
                            0 <= line_opacity line
                            /\ line_opacity line
                               <= Nat.iter (S k) (fun x => x * (92 # 100))
                                           (35 # 100))
                         (constellationLinesRef ls1)).
    { eapply Forall_impl; [|exact H1]. cbv beta. tauto. }
    destruct (IH (S k) ls1 Hlen1 H1') as [Hv Hr].
    replace (k + S (List.length calls))%nat
      with (S k + List.length calls)%nat by lia.
    split; [|exact Hr]. intros _.
    destruct calls as [|c cs].
    + cbn [fold_left]. eapply Forall_impl; [|exact H1]. cbv beta. tauto.
    + apply Hv. discriminate.
Qed.

Lemma decay_antitone (k m : nat) :
  0 <= Nat.iter k (fun x => x * (92 # 100)) (35 # 100)
  /\ Nat.iter (k + m) (fun x => x * (92 # 100)) (35 # 100)
     <= Nat.iter k (fun x => x * (92 # 100)) (35 # 100).
Proof.
  assert (H0 : forall j, 0 <= Nat.iter j (fun x => x * (92 # 100)) (35 # 100)).
  { induction j as [|j IH]; [cbn; discriminate|].
    rewrite Nat.iter_succ. lra. }
  split; [apply H0|].
  induction m as [|m IH].
  - rewrite Nat.add_0_r. apply Qle_refl.
  - replace (k + S m)%nat with (S (k + m)) by lia. rewrite Nat.iter_succ.
    pose proof (H0 (k + m)%nat). lra.
Qed.

(** X27: While the constellation is off, by its toggle or because a
    section is active, its lines fade by eight percent of their opacity on
    each call of [animate]: after 43 calls every line is below the cut-off
    opacity 0.01 and hidden, whatever opacity within [0, 0.35] it had. *)
Theorem X27_constellation_is_hidden_after_43_frames :
  forall (calls : list (App * list Sphere)) (ls : Lines),
    Forall constellationOff calls ->
    (43 <= List.length calls)%nat ->
    Forall lineInRange (constellationLinesRef ls) ->
    (List.length (constellationLinesRef ls) <= List.length SECTIONS)%nat ->
    Forall (fun line =>
              line_visible line = false
              /\ 0 <= line_opacity line /\ line_opacity line <= 1 # 100)
           (constellationLinesRef (linesAfter calls ls)).
Proof.
  intros calls ls Hoff Hn Hl Hlen.
  destruct (@constellation_decay calls Hoff 0%nat ls Hlen Hl) as [Hv Hr].
  assert (Hne : calls <> []) by (destruct calls; [cbn in Hn; lia|discriminate]).
  specialize (Hv Hne).
  assert (H43 : Nat.iter 43 (fun x => x * (92 # 100)) (35 # 100) <= 1 # 100).
  { apply Qle_bool_iff. vm_compute. reflexivity. }
  assert (Hb : Nat.iter (0 + List.length calls) (fun x => x * (92 # 100))
                        (35 # 100) <= 1 # 100).
  { replace (0 + List.length calls)%nat
      with (43 + (List.length calls - 43))%nat by lia.
    destruct (decay_antitone 43 (List.length calls - 43)) as [_ H]. lra. }
  rewrite Forall_forall in *. intros line Hin.
  destruct (Hr line Hin) as [H0 H1]. specialize (Hv line Hin).
  assert (Hle : line_opacity line <= 1 # 100) by lra.
  split; [|split; assumption].
  rewrite Hv. apply Qgtb_false. exact Hle.
Qed.

Lemma X27_witness :
  Forall (fun line =>
            line_visible line = false
            /\ 0 <= line_opacity line /\ line_opacity line <= 1 # 100)
         (constellationLinesRef
            (linesAfter
               (repeat (appSt parkedArtWorld,
                        spheresRef (scene parkedArtWorld)) 43)
               (mkLines 1 (map (fun _ => mkLine vzero vzero (35 # 100) true)
                               SECTIONS)))).
Proof.
  apply (@X27_constellation_is_hidden_after_43_frames
           (repeat (appSt parkedArtWorld, spheresRef (scene parkedArtWorld)) 43)
           (mkLines 1 (map (fun _ => mkLine vzero vzero (35 # 100) true)
                           SECTIONS))).
  - apply Forall_forall. intros call Hin. apply repeat_spec in Hin.
    subst call. split; reflexivity.
  - rewrite repeat_length. apply le_n.
  - repeat constructor; discriminate.
  - apply le_n.
Defined.

(* ================================================================== *)
(** ** The orbits of the moons *)
(* ================================================================== *)

Lemma orInit_range (cell : option Q) (init lo hi : Q) :
  lo <= init /\ init <= hi ->
  match cell with Some v => lo <= v /\ v <= hi | None => True end ->
  lo <= orInit cell init /\ orInit cell init <= hi.
Proof.
  intros Hi Hc. unfold orInit. destruct cell as [v|]; [|exact Hi].
  destruct (Qeq_bool v 0); [exact Hi | exact Hc].
Qed.

Lemma updateSub_orbit {rt : Runtime} (time : Q) (a : App) (parent : Sphere)
  (section : SectionData) (sIdx lIdx : nat) (sub sub' : SubSphere) :
  moonOrbitInRange sub ->
  updateSub time a parent section sIdx lIdx sub = Some sub' ->
  moonOrbitInRange sub'.
Proof.
  intros [Hr Hk]. unfold updateSub.
  destruct (if idIs (activeSection a) (section_id section)
            then link <- nth_error (links section) lIdx ;;
                 Some (idIs (activeLink a) (link_id link))
            else Some false) as [isActiveLink|]; cbn [bind]; [|discriminate].
  intros [= <-]. unfold moonOrbitInRange. cbn [sub_cOrbitR sub_cScale].
  destruct (seededVal_bounds (subSeed (Z.of_nat sIdx) (Z.of_nat lIdx)) 61)
    as (_ & Hlt & Hge).
  assert (H0 : 0 <= seededVal (subSeed (Z.of_nat sIdx) (Z.of_nat lIdx)) 61)
    by (apply Hge; unfold subSeed; lia).
  set (sv := seededVal (subSeed (Z.of_nat sIdx) (Z.of_nat lIdx)) 61) in *.
  split.
  - set (target := if isActiveLink then 1 # 10 else _).
    assert (Ht : 1 # 10 <= target /\ target <= 345 # 1000).
    { unfold target. destruct isActiveLink; [split; discriminate|].
      destruct (idIs (activeSection a) (section_id section)); split; lra. }
    pose proof (@orInit_range (sub_cOrbitR sub) target _ _ Ht Hr) as Hc.
    set (c0 := orInit (sub_cOrbitR sub) target) in *.
    destruct Ht, Hc. split; lra.
  - set (target := if isActiveLink then 25 # 10 else _).
    assert (Ht : 45 # 100 <= target /\ target <= 25 # 10).
    { unfold target. destruct isActiveLink; [split; discriminate|].
      destruct (idIs (activeSection a) (section_id section));
        split; discriminate. }
    pose proof (@orInit_range (sub_cScale sub) target _ _ Ht Hk) as Hc.
    set (c0 := orInit (sub_cScale sub) target) in *.
    destruct Ht, Hc. split; lra.
Qed.

(** X29: In every state the program reaches from mounting, the eased
    orbit radius of each moon, once a frame has set it, is within
    [0.1, 0.345] and its eased scale within [0.45, 2.5]: a moon neither
    falls into its planet nor leaves it, whatever its seed. *)
Theorem X29_moon_orbits_stay_in_range :
  forall (rt : Runtime) (es : list Event) (w0 w : World),
    mount initialWorld = Some w0 ->
    run es w0 = Some w ->
    Forall (Forall moonOrbitInRange) (subSpheresRef (scene w)).
Proof.
  intros rt es w0 w Hm Hr.
  apply (@run_moons rt moonOrbitInRange (@updateSub_orbit rt) es w0 w);
    [|exact Hr].
  destruct (@mount_meshes rt w0 Hm) as (_ & E & _). rewrite E.
  apply Forall_map, Forall_forall. intros sec _.
  apply Forall_map, Forall_forall. intros lk _.
  split; exact I.
Qed.

Lemma X29_witness :
  Forall (Forall moonOrbitInRange) (subSpheresRef (scene homeWorld)).
Proof.
  apply (@X29_moon_orbits_stay_in_range rationalRuntime [Frame 1 (1 # 60)]
           mountedWorld).
  - vm_compute. reflexivity.
  - vm_compute. reflexivity.
Defined.
